(** * mdtoolkit: the Markdown structural extraction engine

    A shallow embedding of [extract_code_blocks] (src/mdtoolkit/extractor.py)
    and [extract_tables] (src/mdtoolkit/tables.py), with the pieces of the
    Python runtime they stand on: [str] methods, list indexing, and the
    backtracking semantics of the two [re] patterns.

    Conventions.
    - A Python [str] is a sequence of Unicode code points: [str := list N].
      String literals of the source are written [lit "..."].
    - Python integers are [Z] where the source does arithmetic that could go
      below zero (the binary search), [nat] where it only counts up.
    - A Python exception or a loop that does not finish is [None]; every
      fallible definition returns [option]. *)

From Stdlib Require Import String Ascii.
From Stdlib Require DecimalString DecimalZ DecimalPos FinFun.
From Stdlib Require Import List Sorted NArith ZArith Lia Bool Arith.
Import ListNotations.

Set Implicit Arguments.

(** ** The option monad, for code that can raise *)

Definition bind {A B : Type} (x : option A) (f : A -> option B) : option B :=
  match x with Some a => f a | None => None end.

Notation "x <- e ;; k" := (bind e (fun x => k))
  (at level 61, e at next level, right associativity).
Notation "' p <- e ;; k" := (bind e (fun p => k))
  (at level 61, p pattern, e at next level, right associativity).

Definition is_some {A : Type} (x : option A) : bool :=
  match x with Some _ => true | None => false end.

(** ** Python strings *)

Module Py.

Definition char := N.
Definition str := list char.

(** A source literal: each byte of the Rocq string is one code point. *)
Definition lit (s : string) : str :=
  map N_of_ascii (list_ascii_of_string s).

Definition NL : char := 10%N.
Definition CR : char := 13%N.
Definition TAB : char := 9%N.
Definition SPACE : char := 32%N.
Definition BACKTICK : char := 96%N.
Definition PIPE : char := 124%N.
Definition COLON : char := 58%N.
Definition DASH : char := 45%N.

Definition in_range (lo hi c : N) : bool := (N.leb lo c) && (N.leb c hi).

(** [str.isspace] on one code point; also what [str.strip()] removes and
    what the pattern escape [\s] matches on a [str] pattern. *)
Definition is_space (c : char) : bool :=
  in_range 9 13 c || in_range 28 32 c || N.eqb c 133 || N.eqb c 160
  || N.eqb c 5760 || in_range 8192 8202 c || in_range 8232 8233 c
  || N.eqb c 8239 || N.eqb c 8287 || N.eqb c 12288.

(** The line boundaries of [str.splitlines]. *)
Definition is_linebreak (c : char) : bool :=
  in_range 10 13 c || in_range 28 30 c || N.eqb c 133
  || in_range 8232 8233 c.

Fixpoint dropwhile (p : char -> bool) (s : str) : str :=
  match s with
  | c :: s' => if p c then dropwhile p s' else s
  | [] => []
  end.

Definition lstrip_with (p : char -> bool) (s : str) : str := dropwhile p s.
Definition rstrip_with (p : char -> bool) (s : str) : str :=
  rev (dropwhile p (rev s)).

(** [s.strip()] *)
Definition strip (s : str) : str := rstrip_with is_space (lstrip_with is_space s).

(** [s.strip(chars)] *)
Definition strip_chars (chars : str) (s : str) : str :=
  let p := fun c => existsb (N.eqb c) chars in
  rstrip_with p (lstrip_with p s).

Fixpoint startswith (s prefix : str) {struct prefix} : bool :=
  match prefix, s with
  | [], _ => true
  | p :: prefix', c :: s' => N.eqb c p && startswith s' prefix'
  | _ :: _, [] => false
  end.

Definition endswith (s suffix : str) : bool := startswith (rev s) (rev suffix).

(** [s.split(sep)] for a separator of one character: never an empty list. *)
Fixpoint split (sep : char) (s : str) : list str :=
  match s with
  | [] => [[]]
  | c :: s' =>
      if N.eqb c sep then [] :: split sep s'
      else match split sep s' with
           | cell :: cells => (c :: cell) :: cells
           | [] => [[c]]
           end
  end.

(** [sep.join(parts)] *)
Fixpoint join (sep : str) (parts : list str) : str :=
  match parts with
  | [] => []
  | [p] => p
  | p :: ps => p ++ sep ++ join sep ps
  end.

(** [s.splitlines()]: [cur] is the line being read, reversed; [after_cr]
    says the previous character was a carriage return, so that a line feed
    right after it belongs to the same boundary.  No line is produced for
    the empty remainder after the last boundary. *)
Fixpoint splitlines_from (after_cr : bool) (cur : str) (s : str) : list str :=
  match s with
  | [] => match cur with [] => [] | _ => [rev cur] end
  | c :: s' =>
      if after_cr && N.eqb c NL then splitlines_from false [] s'
      else if is_linebreak c then rev cur :: splitlines_from (N.eqb c CR) [] s'
      else splitlines_from false (c :: cur) s'
  end.

Definition splitlines (s : str) : list str := splitlines_from false [] s.

(** [s[a:b]] for [0 <= a <= b], on strings and on lists *)
Definition slice {A : Type} (s : list A) (a b : nat) : list A :=
  firstn (b - a) (skipn a s).

(** [xs[i]] for a Python integer index: negative indices count from the end,
    anything out of range raises [IndexError]. *)
Definition index {A : Type} (xs : list A) (i : Z) : option A :=
  let n := Z.of_nat (length xs) in
  if (0 <=? i)%Z then nth_error xs (Z.to_nat i)
  else if (0 <=? n + i)%Z then nth_error xs (Z.to_nat (n + i))
  else None.

End Py.

Import Py.

(** ** The [re] module, for the constructs the two patterns use

    Matching is by backtracking in priority order, as in CPython's engine:
    a greedy repeat tries the longest run first, a lazy one the shortest,
    an optional item is tried present before absent, and the first complete
    match wins.  The matcher is written in continuation-passing style: [k] is
    what remains to be matched. *)

Module Re.

Inductive regex : Type :=
| Lit (c : char)                  (* one literal character *)
| Star (p : char -> bool)         (* [set]*   greedy *)
| Plus (p : char -> bool)         (* [set]+   greedy *)
| LazyStar (p : char -> bool)     (* [set]*?  lazy *)
| Opt (r : regex)                 (* (?:r)?   greedy *)
| Group (n : nat) (r : regex)     (* (r), capture group number n *)
| Cat (r1 r2 : regex)
| Bol                             (* ^ without MULTILINE *)
| Eol.                            (* $ without MULTILINE *)

Infix "@@" := Cat (at level 60, right associativity).

(** Where the matcher stands: the offset, the text from there on, and the
    spans of the groups closed so far (most recent first). *)
Record mstate : Type := MState {
  pos : nat;
  rest : str;
  groups : list (nat * (nat * nat))
}.

Definition cont := mstate -> option mstate.

Definition or_else {A : Type} (x y : option A) : option A :=
  match x with Some a => Some a | None => y end.

Fixpoint greedy_star (p : char -> bool) (k : cont) (s : str) (i : nat)
    (g : list (nat * (nat * nat))) : option mstate :=
  match s with
  | c :: s' =>
      if p c then or_else (greedy_star p k s' (S i) g) (k (MState i s g))
      else k (MState i s g)
  | [] => k (MState i s g)
  end.

Fixpoint lazy_star (p : char -> bool) (k : cont) (s : str) (i : nat)
    (g : list (nat * (nat * nat))) : option mstate :=
  or_else (k (MState i s g))
    match s with
    | c :: s' => if p c then lazy_star p k s' (S i) g else None
    | [] => None
    end.

Definition one (p : char -> bool) (k : cont) (st : mstate) : option mstate :=
  match rest st with
  | c :: s' => if p c then k (MState (S (pos st)) s' (groups st)) else None
  | [] => None
  end.

Fixpoint run (r : regex) (k : cont) (st : mstate) : option mstate :=
  match r with
  | Lit c => one (N.eqb c) k st
  | Star p => greedy_star p k (rest st) (pos st) (groups st)
  | Plus p =>
      one p (fun st' => greedy_star p k (rest st') (pos st') (groups st')) st
  | LazyStar p => lazy_star p k (rest st) (pos st) (groups st)
  | Opt r' => or_else (run r' k st) (k st)
  | Group n r' =>
      run r'
        (fun st' =>
           k (MState (pos st') (rest st') ((n, (pos st, pos st')) :: groups st')))
        st
  | Cat r1 r2 => run r1 (run r2 k) st
  | Bol => if Nat.eqb (pos st) 0 then k st else None
  | Eol =>
      match rest st with
      | [] => k st
      | [c] => if N.eqb c NL then k st else None
      | _ => None
      end
  end.

(** A match object. *)
Record rmatch : Type := RMatch {
  m_string : str;
  m_start : nat;
  m_end : nat;
  m_groups : list (nat * (nat * nat))
}.

Fixpoint assoc (n : nat) (g : list (nat * (nat * nat))) : option (nat * nat) :=
  match g with
  | (n', span) :: g' => if Nat.eqb n n' then Some span else assoc n g'
  | [] => None
  end.

(** [m.group(n)]: [None] when the group took no part in the match. *)
Definition group (m : rmatch) (n : nat) : option str :=
  match assoc n (m_groups m) with
  | Some (a, b) => Some (slice (m_string m) a b)
  | None => None
  end.

(** One attempt of pattern [r] at offset [i] of [text]. *)
Definition match_at (r : regex) (text : str) (i : nat) : option rmatch :=
  match run r Some (MState i (skipn i text) []) with
  | Some st => Some (RMatch text i (pos st) (groups st))
  | None => None
  end.

(** [re.match(r, text)] *)
Definition re_match (r : regex) (text : str) : option rmatch :=
  match_at r text 0.

(** [r.finditer(text)], collected: attempts at increasing offsets; after a
    match the scan resumes at its end.  After an empty match CPython resumes
    at the same offset and insists on progress; the model steps one
    character there (the fence pattern cannot match the empty string).
    [None] when [fuel] runs out. *)
Fixpoint finditer_from (fuel : nat) (r : regex) (text : str) (i : nat)
    : option (list rmatch) :=
  match fuel with
  | O => None
  | S fuel' =>
      if Nat.ltb (length text) i then Some []
      else
        match match_at r text i with
        | Some m =>
            ms <- finditer_from fuel' r text
                    (if Nat.ltb i (m_end m) then m_end m else S i) ;;
            Some (m :: ms)
        | None => finditer_from fuel' r text (S i)
        end
  end.

Definition finditer (r : regex) (text : str) : option (list rmatch) :=
  finditer_from (length text + 2) r text 0.

End Re.

Import Re.

(** ** src/mdtoolkit/extractor.py *)

Definition lang_char (c : char) : bool :=
  in_range 97 122 c || in_range 65 90 c || in_range 48 57 c
  || N.eqb c 95 || N.eqb c 43 || N.eqb c 35 || N.eqb c 46 || N.eqb c 45.

Definition space_or_tab (c : char) : bool := N.eqb c SPACE || N.eqb c TAB.
Definition not_newline (c : char) : bool := negb (N.eqb c NL).
Definition any_char (c : char) : bool := true.

(** The pattern of [fence_re], compiled with [re.DOTALL]: the dot of the
    body group matches every character. *)
Definition fence_re : regex :=
  Lit BACKTICK @@ Lit BACKTICK @@ Lit BACKTICK
  @@ Star space_or_tab
  @@ Group 1 (Star lang_char)
  @@ Opt (Lit COLON @@ Group 2 (Plus not_newline))
  @@ Lit NL
  @@ Group 3 (LazyStar any_char)
  @@ Lit BACKTICK @@ Lit BACKTICK @@ Lit BACKTICK.

(** [enumerate(xs)], counting from [i] *)
Fixpoint enumerate_from {A : Type} (i : Z) (xs : list A) : list (Z * A) :=
  match xs with
  | [] => []
  | x :: xs' => (i, x) :: enumerate_from (i + 1) xs'
  end.

(** The loop that fills [line_starts]. *)
Definition build_line_starts (md_text : str) : list Z :=
  fold_left
    (fun line_starts '(i, ch) =>
       if N.eqb ch NL then line_starts ++ [(i + 1)%Z] else line_starts)
    (enumerate_from 0 md_text) [0%Z].

(** The [while lo < hi] loop of [offset_to_line]. *)
Fixpoint offset_to_line_loop (fuel : nat) (line_starts : list Z)
    (offset lo hi : Z) : option Z :=
  match fuel with
  | O => None
  | S fuel' =>
      if (lo <? hi)%Z then
        let mid := ((lo + hi + 1) / 2)%Z in
        v <- index line_starts mid ;;
        if (v <=? offset)%Z
        then offset_to_line_loop fuel' line_starts offset mid hi
        else offset_to_line_loop fuel' line_starts offset lo (mid - 1)%Z
      else Some (lo + 1)%Z
  end.

Definition offset_to_line (line_starts : list Z) (offset : Z) : option Z :=
  offset_to_line_loop (S (length line_starts)) line_starts offset
    0%Z (Z.of_nat (length line_starts) - 1)%Z.

(** One result tuple [(lang, hint, code, line_no)]; [code] is whatever
    [m.group(3)] is, so possibly [None]. *)
Record block : Type := Block {
  lang : str;
  hint : str;
  code : option str;
  line_no : Z
}.

(** [m.group(n).strip() if m.group(n) else ""] *)
Definition group_stripped (m : rmatch) (n : nat) : str :=
  match group m n with
  | Some (c :: s) => strip (c :: s)
  | Some [] => []
  | None => []
  end.

Definition block_of_match (line_starts : list Z) (m : rmatch) : option block :=
  n <- offset_to_line line_starts (Z.of_nat (m_start m)) ;;
  Some (Block (group_stripped m 1) (group_stripped m 2) (group m 3) n).

Fixpoint blocks_of_matches (line_starts : list Z) (ms : list rmatch)
    : option (list block) :=
  match ms with
  | [] => Some []
  | m :: ms' =>
      b <- block_of_match line_starts m ;;
      bs <- blocks_of_matches line_starts ms' ;;
      Some (b :: bs)
  end.

Definition extract_code_blocks (md_text : str) : option (list block) :=
  let line_starts := build_line_starts md_text in
  ms <- finditer fence_re md_text ;;
  blocks_of_matches line_starts ms.

(** ** src/mdtoolkit/tables.py *)

Definition sep_char (c : char) : bool :=
  is_space c || N.eqb c DASH || N.eqb c PIPE || N.eqb c COLON.

(** The separator-row pattern. *)
Definition sep_re : regex :=
  Bol @@ Star is_space @@ Opt (Lit PIPE) @@ Plus sep_char
  @@ Opt (Lit PIPE) @@ Star is_space @@ Eol.

(** [l.startswith("|") and l.endswith("|")] *)
Definition is_table_line (l : str) : bool :=
  startswith l (lit "|") && endswith l (lit "|").

(** [[c.strip() for c in r.strip("|").split("|")]] *)
Definition cells_of (r : str) : list str :=
  map strip (split PIPE (strip_chars (lit "|") r)).

(** The comprehension that builds [rows] from [raw]. *)
Definition rows_of (raw : list str) : list (list str) :=
  map cells_of (filter (fun r => negb (is_some (re_match sep_re r))) raw).

(** The inner [while]: from line [i] on, append the stripped lines to [raw]
    until one is not a table line; returns the final [i] and [raw]. *)
Fixpoint collect_run (fuel : nat) (lines : list str) (i : nat)
    (raw : list str) : option (nat * list str) :=
  match fuel with
  | O => None
  | S fuel' =>
      if Nat.ltb i (length lines) then
        li <- nth_error lines i ;;
        let l := strip li in
        if negb (is_table_line l) then Some (i, raw)
        else collect_run fuel' lines (S i) (raw ++ [l])
      else Some (i, raw)
  end.

(** One appended table, with the line interval [[occ_first, occ_stop)] its
    run covered.  The interval is bookkeeping added by the model; the source
    keeps only [occ_rows]. *)
Record table_occ : Type := TableOcc {
  occ_first : nat;
  occ_stop : nat;
  occ_rows : list (list str)
}.

(** The outer [while i < len(lines)]. *)
Fixpoint scan_tables (fuel : nat) (lines : list str) (i : nat)
    (tables : list table_occ) : option (list table_occ) :=
  match fuel with
  | O => None
  | S fuel' =>
      if Nat.ltb i (length lines) then
        li <- nth_error lines i ;;
        let line := strip li in
        if is_table_line line then
          '(i', raw) <- collect_run (S (length lines)) lines i [] ;;
          let rows := rows_of raw in
          match rows with
          | _ :: _ => scan_tables fuel' lines i' (tables ++ [TableOcc i i' rows])
          | [] => scan_tables fuel' lines i' tables
          end
        else scan_tables fuel' lines (S i) tables
      else Some tables
  end.

Definition table_occurrences (md_text : str) : option (list table_occ) :=
  let lines := splitlines md_text in
  scan_tables (S (length lines)) lines 0 [].

Definition extract_tables (md_text : str) : option (list (list (list str))) :=
  occs <- table_occurrences md_text ;;
  Some (map occ_rows occs).

(** * Definitions used to state and prove the properties *)

(** Length of the longest prefix of [s] made of characters in [p]. *)
Fixpoint run_len (p : char -> bool) (s : str) : nat :=
  match s with
  | c :: s' => if p c then S (run_len p s') else 0
  | [] => 0
  end.

(** Which character sets a pattern can consume. *)
Fixpoint classes_in (q : char -> bool) (r : regex) : Prop :=
  match r with
  | Lit c => q c = true
  | Star p | Plus p | LazyStar p => forall c, p c = true -> q c = true
  | Opt r' | Group _ r' => classes_in q r'
  | Cat r1 r2 => classes_in q r1 /\ classes_in q r2
  | Bol | Eol => True
  end.

(** From [st], after consuming characters of [q] only, the continuation
    [k] is entered in a state where it returns [m]. *)
Definition reaches (q : char -> bool) (k : cont) (st : mstate) (m : mstate)
    : Prop :=
  exists j st',
    j <= length (rest st) /\ forallb q (firstn j (rest st)) = true /\
    pos st' = pos st + j /\ rest st' = skipn j (rest st) /\ k st' = Some m.

(** In the specification's words: a line made only of whitespace, dashes,
    pipes and colons. *)
Definition separator_like (r : str) : bool :=
  forallb (fun c => is_space c || N.eqb c DASH || N.eqb c PIPE || N.eqb c COLON) r.

(** Truth value of a Python list or string. *)
Definition nonempty {A : Type} (xs : list A) : bool :=
  match xs with [] => false | _ :: _ => true end.

(** The delimiter. *)
Definition TICKS3 : str := [BACKTICK; BACKTICK; BACKTICK].

(** Offset of the first triple backtick in [s]. *)
Fixpoint find_close (s : str) : option nat :=
  if startswith s TICKS3 then Some 0
  else match s with
       | _ :: s' => option_map S (find_close s')
       | [] => None
       end.

(** The body and the closing delimiter, read at offset [i]. *)
Definition fence_close (g : list (nat * (nat * nat))) (i : nat) (s : str)
    : option mstate :=
  match find_close s with
  | Some j =>
      Some (MState (3 + (i + j)) (skipn (3 + j) s) ((3, (i, i + j)) :: g))
  | None => None
  end.

(** What the fence pattern does at offset [i] with [s] ahead, without
    backtracking: the delimiter, the longest run of blanks, the longest run
    of tag characters, then either a newline or a colon with the rest of the
    line (at least one character), then the body up to the first triple
    backtick. *)
Definition fence_parse (i : nat) (s : str) : option mstate :=
  if startswith s TICKS3 then
    let s1 := skipn 3 s in
    let i1 := 3 + i in
    let a := run_len space_or_tab s1 in
    let s2 := skipn a s1 in
    let i2 := i1 + a in
    let b := run_len lang_char s2 in
    let g1 := [(1, (i2, i2 + b))] in
    match skipn b s2 with
    | c :: s4 =>
        if N.eqb c NL then fence_close g1 (S (i2 + b)) s4
        else if N.eqb c COLON then
          match s4 with
          | c2 :: s4' =>
              if not_newline c2 then
                let h := run_len not_newline s4' in
                match skipn h s4' with
                | _ :: s5 =>
                    fence_close ((2, (S (i2 + b), S (S (i2 + b)) + h)) :: g1)
                      (S (S (S (i2 + b)) + h)) s5
                | [] => None
                end
              else None
          | [] => None
          end
        else None
    | [] => None
    end
  else None.

(** The pattern from the body group on. *)
Definition body_re : regex :=
  Group 3 (LazyStar any_char) @@ Lit BACKTICK @@ Lit BACKTICK @@ Lit BACKTICK.

(** The pattern from the optional hint on. *)
Definition hint_re : regex :=
  Opt (Lit COLON @@ Group 2 (Plus not_newline)) @@ Lit NL @@ body_re.

(** The pattern from the language group on. *)
Definition lang_re : regex := Group 1 (Star lang_char) @@ hint_re.

(** The entries [build_line_starts] appends, for text that starts at
    offset [i]. *)
Fixpoint starts_from (i : Z) (s : str) : list Z :=
  match s with
  | [] => []
  | c :: s' =>
      if N.eqb c NL then (i + 1)%Z :: starts_from (i + 1)%Z s'
      else starts_from (i + 1)%Z s'
  end.

(** Number of newlines in [s]. *)
Definition count_nl (s : str) : nat :=
  List.length (filter (fun c => N.eqb c NL) s).

(** What the search returns: [n] is the 1-based index of the greatest
    entry that is at most [offset]. *)
Definition greatest_at_most (ls : list Z) (offset n : Z) : Prop :=
  (1 <= n <= Z.of_nat (List.length ls))%Z /\
  (exists v, index ls (n - 1) = Some v /\ (v <= offset)%Z) /\
  (forall j v, (n <= j)%Z -> index ls j = Some v -> (offset < v)%Z).

(** Where the scan resumes after a match found at offset [i]. *)
Definition resume (i : nat) (m : rmatch) : nat :=
  if Nat.ltb i (m_end m) then m_end m else S i.

(** The scan from offset [i], without fuel. *)
Inductive scans (r : regex) (text : str) : nat -> list rmatch -> Prop :=
| scans_end i : length text < i -> scans r text i []
| scans_hit i m ms :
    i <= length text -> match_at r text i = Some m ->
    scans r text (resume i m) ms -> scans r text i (m :: ms)
| scans_miss i ms :
    i <= length text -> match_at r text i = None ->
    scans r text (S i) ms -> scans r text i ms.

(** The tuple built from match [m] in a document [text]. *)
Definition block_at (text : str) (m : rmatch) : block :=
  Block (group_stripped m 1) (group_stripped m 2) (group m 3)
    (Z.of_nat (S (count_nl (firstn (m_start m) text)))).

(** Whether [s] contains a triple backtick. *)
Definition has_ticks3 (s : str) : bool := is_some (find_close s).

(** The text of an opening line's optional hint. *)
Definition hint_text (h : option str) : str :=
  match h with Some n => COLON :: n | None => [] end.

(** A fence: delimiter, blanks, tag, optional hint, newline, body, closing
    delimiter, and whatever follows. *)
Definition fence_text (ws tag : str) (h : option str) (body post : str) : str :=
  TICKS3 ++ ws ++ tag ++ hint_text h ++ NL :: body ++ TICKS3 ++ post.

(** A physical line that is a candidate table line once trimmed. *)
Definition table_line (li : str) : bool := is_table_line (strip li).

(** Number of candidate table lines at the head of [ls]. *)
Fixpoint run_lines (ls : list str) : nat :=
  match ls with
  | l :: ls' => if table_line l then S (run_lines ls') else 0
  | [] => 0
  end.

(** The table appended for a finished run, if any row survived. *)
Definition close_run (cur : option (nat * list str)) (i : nat)
    : list table_occ :=
  match cur with
  | Some (first, raw) =>
      match rows_of raw with
      | [] => []
      | rows => [TableOcc first i rows]
      end
  | None => []
  end.

(** The run being read, with one more trimmed line. *)
Definition extend_run (cur : option (nat * list str)) (i : nat) (l : str)
    : option (nat * list str) :=
  match cur with
  | Some (first, raw) => Some (first, raw ++ [l])
  | None => Some (i, [l])
  end.

(** The tables of the lines [ls], which start at index [i], read in one
    pass; [cur] is the run being read: its first index and its trimmed
    lines so far. *)
Fixpoint walk (i : nat) (ls : list str) (cur : option (nat * list str))
    : list table_occ :=
  match ls with
  | [] => close_run cur i
  | l :: ls' =>
      if table_line l then walk (S i) ls' (extend_run cur i (strip l))
      else close_run cur i ++ walk (S i) ls' None
  end.

(** Whether line [j] exists and is a candidate table line. *)
Definition line_is_table (lines : list str) (j : nat) : bool :=
  match nth_error lines j with Some l => table_line l | None => false end.

(** Lines [a] to [b - 1] are a maximal run of candidate table lines. *)
Definition maximal_run (lines : list str) (a b : nat) : Prop :=
  a < b <= length lines /\
  (forall j, a <= j < b -> line_is_table lines j = true) /\
  (a = 0 \/ line_is_table lines (a - 1) = false) /\
  line_is_table lines b = false.

(** The trimmed lines [a] to [b - 1]: what the inner loop collects. *)
Definition run_text (lines : list str) (a b : nat) : list str :=
  map strip (slice lines a b).

(** A table read from a maximal run, holding its surviving rows. *)
Definition good_occ (lines : list str) (o : table_occ) : Prop :=
  maximal_run lines (occ_first o) (occ_stop o) /\
  occ_rows o = rows_of (run_text lines (occ_first o) (occ_stop o)) /\
  occ_rows o <> [].

(** The invariant of the run being read when the pass stands at line
    [i]. *)
Definition cur_ok (lines : list str) (i : nat) (cur : option (nat * list str))
    : Prop :=
  match cur with
  | None => i = 0 \/ line_is_table lines (i - 1) = false
  | Some (first, raw) =>
      first < i /\ raw = run_text lines first i /\
      (forall j, first <= j < i -> line_is_table lines j = true) /\
      (first = 0 \/ line_is_table lines (first - 1) = false)
  end.

(** Tables in the order of their runs, with at least one line between
    the end of one run and the start of the next. *)
Fixpoint ordered (lo : nat) (occs : list table_occ) : Prop :=
  match occs with
  | [] => True
  | o :: os =>
      lo <= occ_first o /\ occ_first o < occ_stop o /\
      ordered (S (occ_stop o)) os
  end.

(** A string with its whitespace removed: equality "up to whitespace" is
    equality of the squeezed strings. *)
Definition squeeze (s : str) : str := filter (fun c => negb (is_space c)) s.

(** ["|" + " | ".join(row) + "|"] *)
Definition rejoin (row : list str) : str :=
  lit "|" ++ join (lit " | ") row ++ lit "|".

(** In the specification's words: exactly one leading and one trailing
    pipe removed. *)
Definition strip_one_pipe (r : str) : str :=
  let r1 := match r with
            | c :: r' => if N.eqb c PIPE then r' else r
            | [] => []
            end in
  match rev r1 with
  | c :: t => if N.eqb c PIPE then rev t else r1
  | [] => []
  end.

(** In the specification's words: strip one pipe at each end, split on
    pipes, trim every cell. *)
Definition cells_spec (r : str) : list str :=
  map strip (split PIPE (strip_one_pipe r)).

(** Text that neither starts nor ends with a pipe. *)
Definition pipe_free_ends (core : str) : bool :=
  negb (startswith core [PIPE]) && negb (endswith core [PIPE]).

(** ** Example documents *)

Definition c1_pre : str := lit "intro" ++ [NL].
Definition c1_post : str := [NL] ++ lit "after".

Definition c2_text : str :=
  lit "one" ++ [NL] ++ lit "two" ++ [NL] ++ lit "three".

(** Offset [i] is the beginning of a line of [text]. *)
Definition at_line_start (text : str) (i : nat) : bool :=
  match i with
  | O => true
  | S j => match nth_error text j with
           | Some c => N.eqb c NL
           | None => false
           end
  end.

(** A fence opened in the middle of a line. *)
Definition mid_line_fence : str :=
  lit "a ```" ++ [NL] ++ lit "b" ++ [NL] ++ lit "```".

Definition c8_text : str :=
  lit "```python" ++ [NL] ++ lit "x = 1" ++ [NL] ++ lit "```".

Definition c4_text : str :=
  lit "| A | B |" ++ [NL] ++ lit "|---|---|" ++ [NL] ++ lit "| 1 | 2 |"
  ++ [NL] ++ [NL] ++ lit "|:--|--:|" ++ [NL].

(** A table line with doubled outer pipes. *)
Definition doubled_pipes : str := lit "||a||".

Definition c6_text : str := lit "| x | y |" ++ [NL] ++ lit "text".

Definition c7_first : str := lit "| a |" ++ [NL] ++ lit "| b |".
Definition c7_second : str := lit "| c |".

(** A fence whose tag is followed by a blank, and one whose colon is
    followed by nothing. *)
Definition x6_trailing_blank : str :=
  lit "```python " ++ [NL] ++ lit "x = 1" ++ [NL] ++ lit "```".

Definition x6_empty_hint : str :=
  lit "```py:" ++ [NL] ++ lit "x = 1" ++ [NL] ++ lit "```".

(** * The file writer: [save_code_files]

    src/mdtoolkit/extractor.py, lines 14-24 and 68-102 (the same code is in
    src/tool.py).  The output directory is modelled by its listing: the
    names under which something exists, each with the text read under it.
    Names are compared character by character and paths are POSIX paths.
    [out_dir] is absent or a directory that the program may create and
    write to, and nothing else changes it while the function runs.  In
    this first model no entry of [out_dir] is a dangling symbolic link;
    the section on dangling links below lifts that.  [out_dir.mkdir] makes the listing exist, [dest.exists()]
    looks a name up, and a successful [dest.write_text] adds or replaces an
    entry.  The file names that the operating system takes are a parameter,
    [accepts]: on any other name [dest.exists()] raises, or answers [False]
    and [dest.write_text] raises, so that the function ends with that
    exception, which is [None] here.  What the function prints is not
    modelled: the result is the directory once the loop over the blocks
    has ended, with the list [saved] that the table is printed from. *)

(** ** More of the Python runtime *)

Definition SLASH : char := 47%N.
Definition UNDERSCORE : char := 95%N.
Definition DOT : char := 46%N.
Definition EM_DASH : char := 8212%N.

(** [a == b] on strings *)
Fixpoint str_eqb (a b : str) : bool :=
  match a, b with
  | [], [] => true
  | x :: a', y :: b' => N.eqb x y && str_eqb a' b'
  | _, _ => false
  end.

(** [str(n)] for an integer: decimal digits, with a minus sign below
    zero. *)
Definition str_of_int (n : Z) : str :=
  lit (DecimalString.NilZero.string_of_int (Z.to_int n)).

(** [s.lower()] on ASCII letters.  It is applied to language tags only,
    which the fence pattern makes of ASCII characters. *)
Definition lower_char (c : char) : char :=
  if in_range 65 90 c then (c + 32)%N else c.

Definition lower (s : str) : str := map lower_char s.

(** [s.replace(old, new)] for one-character [old] and [new] *)
Definition replace (old new : char) (s : str) : str :=
  map (fun c => if N.eqb c old then new else c) s.

(** [s.rfind(c)]: the last index of [c], [None] for -1 *)
Fixpoint rfind (c : char) (s : str) : option nat :=
  match s with
  | [] => None
  | x :: s' =>
      match rfind c s' with
      | Some i => Some (S i)
      | None => if N.eqb x c then Some 0 else None
      end
  end.

(** [PurePath.suffix] and [PurePath.stem] of a final path component, as in
    CPython 3.8 to 3.12: the last dot splits the name unless it is the
    first or the last character. *)
Definition path_suffix (name : str) : str :=
  match rfind DOT name with
  | Some i =>
      if Nat.ltb 0 i && Nat.ltb i (length name - 1) then skipn i name else []
  | None => []
  end.

Definition path_stem (name : str) : str :=
  match rfind DOT name with
  | Some i =>
      if Nat.ltb 0 i && Nat.ltb i (length name - 1) then firstn i name
      else name
  | None => name
  end.

(** [d.get(key, default)] on a dictionary written as its list of items *)
Fixpoint dict_get (d : list (str * str)) (key default : str) : str :=
  match d with
  | [] => default
  | (k, v) :: d' => if str_eqb key k then v else dict_get d' key default
  end.

(** ** The output directory *)

(** The listing of [out_dir]: the names under which something exists,
    each with the text read under it.  A dangling symbolic link is no such
    name: [exists()] answers [False] for it. *)
Definition directory := list (str * str).

(** A path the function builds: [out_dir] itself or [out_dir / name]. *)
Inductive dest_path : Type :=
| OutDir
| Child (name : str).

(** [out_dir / fname] for a name without path separator: pathlib drops an
    empty or ["."] component. *)
Definition joinpath (fname : str) : dest_path :=
  if str_eqb fname [] || str_eqb fname (lit ".") then OutDir else Child fname.

(** [dest.name], where [out_name] is the name of [out_dir]. *)
Definition dest_name (out_name : str) (d : dest_path) : str :=
  match d with OutDir => out_name | Child n => n end.

Definition listed (entries : directory) (n : str) : bool :=
  existsb (fun e => str_eqb n (fst e)) entries.

(** [dest.exists()] once [out_dir] has been made: the directory itself
    and its parent entry [..] always exist. *)
Definition dest_exists (accepts : str -> bool) (entries : directory)
    (d : dest_path) : option bool :=
  match d with
  | OutDir => Some true
  | Child n =>
      if str_eqb n (lit "..") then Some true
      else if accepts n then Some (listed entries n)
      else None
  end.

(** [text.encode("utf-8")] succeeds: no surrogate code point. *)
Definition utf8_encodable (text : str) : bool :=
  forallb (fun c => negb (in_range 55296 57343 c)) text.

Fixpoint put (entries : directory) (n : str) (text : str) : directory :=
  match entries with
  | [] => [(n, text)]
  | (k, v) :: rest =>
      if str_eqb n k then (k, text) :: rest else (k, v) :: put rest n text
  end.

(** [dest.write_text(data, encoding="utf-8")]: [None] when [dest] is a
    directory, when [data] is not a string or cannot be encoded, and when
    the name is refused. *)
Definition write_text (accepts : str -> bool) (entries : directory)
    (d : dest_path) (data : option str) : option directory :=
  match d, data with
  | Child n, Some text =>
      if str_eqb n (lit "..") then None
      else if accepts n && utf8_encodable text
      then Some (put entries n text)
      else None
  | _, _ => None
  end.

(** ** src/mdtoolkit/extractor.py, continued *)

Definition EXT_MAP : list (str * str) :=
  [ (lit "python", lit "py");     (lit "py", lit "py");
    (lit "java", lit "java");
    (lit "javascript", lit "js"); (lit "js", lit "js");
    (lit "typescript", lit "ts"); (lit "ts", lit "ts");
    (lit "sql", lit "sql");       (lit "bash", lit "sh");
    (lit "shell", lit "sh");      (lit "sh", lit "sh");
    (lit "html", lit "html");     (lit "css", lit "css");
    (lit "xml", lit "xml");
    (lit "yaml", lit "yml");      (lit "yml", lit "yml");
    (lit "json", lit "json");
    (lit "kotlin", lit "kt");     (lit "go", lit "go");
    (lit "cpp", lit "cpp");       (lit "c", lit "c");
    (lit "ruby", lit "rb");       (lit "rust", lit "rs");
    (lit "php", lit "php");
    (lit "swift", lit "swift");   (lit "scala", lit "scala");
    (lit "r", lit "r");
    (lit "markdown", lit "md");   (lit "md", lit "md");
    (lit "dockerfile", lit "dockerfile") ].

(** [EXT_MAP.get(lang.lower(), "txt") if lang else "txt"] *)
Definition ext_of (lang : str) : str :=
  if nonempty lang then dict_get EXT_MAP (lower lang) (lit "txt")
  else lit "txt".

(** [hint.replace("/", "_") if hint else
     "code_line" + str(line_no) + "." + ext] *)
Definition fname_of (b : block) : str :=
  if nonempty (hint b) then replace SLASH UNDERSCORE (hint b)
  else lit "code_line" ++ str_of_int (line_no b) ++ lit "." ++ ext_of (lang b).

(** [stem + "_" + str(dup) + sfx] *)
Definition candidate (stem sfx : str) (dup : Z) : str :=
  stem ++ lit "_" ++ str_of_int dup ++ sfx.

(** The [while dest.exists()] loop. *)
Fixpoint dedup (accepts : str -> bool) (fuel : nat) (entries : directory)
    (stem sfx : str) (dest : dest_path) (dup : Z) : option dest_path :=
  match fuel with
  | O => None
  | S fuel' =>
      e <- dest_exists accepts entries dest ;;
      if e : bool
      then dedup accepts fuel' entries stem sfx
             (joinpath (candidate stem sfx dup)) (dup + 1)%Z
      else Some dest
  end.

(** One tuple of [saved]: [(dest.name, lang or "—", line_no,
    len(code.splitlines()))]. *)
Record saved_row : Type := Saved {
  s_name : str;
  s_lang : str;
  s_line : Z;
  s_count : nat
}.

(** The body of the [for] loop, for one block.  The [while] loop ends
    within [length entries + 2] tests ([dedup_fuel]). *)
Definition save_block (accepts : str -> bool) (out_name : str) (b : block)
    (entries : directory) : option (directory * saved_row) :=
  let dest := joinpath (fname_of b) in
  let stem := path_stem (dest_name out_name dest) in
  let sfx := path_suffix (dest_name out_name dest) in
  dest' <- dedup accepts (S (S (length entries))) entries stem sfx dest 1 ;;
  entries' <- write_text accepts entries dest' (code b) ;;
  text <- code b ;;
  Some (entries',
        Saved (dest_name out_name dest')
          (if nonempty (lang b) then lang b else [EM_DASH])
          (line_no b) (length (splitlines text))).

(** The [for] loop over the blocks. *)
Fixpoint save_blocks (accepts : str -> bool) (out_name : str)
    (blocks : list block) (entries : directory) (saved : list saved_row)
    : option (directory * list saved_row) :=
  match blocks with
  | [] => Some (entries, saved)
  | b :: rest =>
      '(entries', row) <- save_block accepts out_name b entries ;;
      save_blocks accepts out_name rest entries' (saved ++ [row])
  end.

(** [save_code_files]: [fs] is the listing of [out_dir], [None] while the
    directory does not exist.  Without blocks the function returns before
    it makes the directory. *)
Definition save_code_files (accepts : str -> bool) (out_name : str)
    (md_text : str) (fs : option directory)
    : option (option directory * list saved_row) :=
  blocks <- extract_code_blocks md_text ;;
  match blocks with
  | [] => Some (fs, [])
  | _ :: _ =>
      let entries := match fs with Some e => e | None => [] end in
      '(entries', saved) <- save_blocks accepts out_name blocks entries [] ;;
      Some (Some entries', saved)
  end.

(** ** The output directory with dangling symbolic links

    A dangling symbolic link is an entry of [out_dir] for which
    [dest.exists()] answers [False]; [dest.write_text] follows it and makes
    the file where the link leads.  A [world] is the directory as above,
    the names under which something exists, together with its dangling
    links, each with the place it leads to once every link on the way is
    followed: a name of [out_dir] itself, a path elsewhere, or no place
    where a file can be made (a loop, a missing directory).  Once a file is
    made at a place, it is found under every name that leads there. *)

Inductive place : Type :=
| Inside (name : str)       (* out_dir / name *)
| Elsewhere (path : str).   (* any other file, by its resolved path *)

Definition place_eqb (a b : place) : bool :=
  match a, b with
  | Inside x, Inside y => str_eqb x y
  | Elsewhere x, Elsewhere y => str_eqb x y
  | _, _ => false
  end.

Record world : Type := World {
  w_files : directory;
  w_links : list (str * option place)
}.

(** The link of that name, if there is one. *)
Fixpoint link_target (links : list (str * option place)) (n : str)
    : option (option place) :=
  match links with
  | [] => None
  | (k, t) :: rest => if str_eqb n k then Some t else link_target rest n
  end.

(** Where a file written under the name [n] is made. *)
Definition place_of (links : list (str * option place)) (n : str)
    : option place :=
  match link_target links n with
  | Some t => t
  | None => Some (Inside n)
  end.

Definition leads_to (t : place) (l : str * option place) : bool :=
  match snd l with Some t' => place_eqb t t' | None => false end.

(** The names of [out_dir] under which a file made at [t] is found. *)
Definition names_of (links : list (str * option place)) (t : place)
    : list str :=
  match t with Inside m => [m] | Elsewhere _ => [] end
  ++ map fst (filter (leads_to t) links).

(** A file with [text] is made at [t], where there was none. *)
Definition write_at (w : world) (t : place) (text : str) : world :=
  World (w_files w ++ map (fun a => (a, text)) (names_of (w_links w) t))
        (filter (fun l => negb (leads_to t l)) (w_links w)).

(** [dest.write_text(data, encoding="utf-8")] on a path for which
    [dest.exists()] has just answered [False], as the function calls it;
    the result holds the place where the file is made. *)
Definition write_text_w (accepts : str -> bool) (w : world) (d : dest_path)
    (data : option str) : option (world * place) :=
  match d, data with
  | Child n, Some text =>
      if str_eqb n (lit "..") then None
      else if accepts n && utf8_encodable text
      then t <- place_of (w_links w) n ;; Some (write_at w t text, t)
      else None
  | _, _ => None
  end.

(** The body of the [for] loop, with the file it makes: place and text. *)
Definition save_block_w (accepts : str -> bool) (out_name : str) (b : block)
    (w : world) : option (world * saved_row * (place * str)) :=
  let dest := joinpath (fname_of b) in
  let stem := path_stem (dest_name out_name dest) in
  let sfx := path_suffix (dest_name out_name dest) in
  dest' <- dedup accepts (S (S (length (w_files w)))) (w_files w)
             stem sfx dest 1 ;;
  r <- write_text_w accepts w dest' (code b) ;;
  text <- code b ;;
  Some (fst r,
        Saved (dest_name out_name dest')
          (if nonempty (lang b) then lang b else [EM_DASH])
          (line_no b) (length (splitlines text)),
        (snd r, text)).

Fixpoint save_blocks_w (accepts : str -> bool) (out_name : str)
    (blocks : list block) (w : world) (saved : list saved_row)
    (made : list (place * str))
    : option (world * list saved_row * list (place * str)) :=
  match blocks with
  | [] => Some (w, saved, made)
  | b :: rest =>
      r <- save_block_w accepts out_name b w ;;
      save_blocks_w accepts out_name rest (fst (fst r))
        (saved ++ [snd (fst r)]) (made ++ [snd r])
  end.

(** [save_code_files] on such a directory; [None] for [fs] while the
    directory does not exist.  The result holds [saved] and the files
    made, in the order of the blocks. *)
Definition save_code_files_w (accepts : str -> bool) (out_name : str)
    (md_text : str) (fs : option world)
    : option (option world * list saved_row * list (place * str)) :=
  blocks <- extract_code_blocks md_text ;;
  match blocks with
  | [] => Some (fs, [], [])
  | _ :: _ =>
      let w := match fs with Some w => w | None => World [] [] end in
      r <- save_blocks_w accepts out_name blocks w [] [] ;;
      Some (Some (fst (fst r)), snd (fst r), snd r)
  end.

(** The directory the loop starts from: empty when [out_dir] is made by
    the function. *)
Definition world_of (fs : option world) : world :=
  match fs with Some w => w | None => World [] [] end.

(** The names of a list differ from one another. *)
Fixpoint distinct (l : list str) : bool :=
  match l with
  | [] => true
  | x :: r => negb (existsb (str_eqb x) r) && distinct r
  end.

(** The links of a world are dangling: there is one link under a name,
    nothing exists under the name of a link, and a link into [out_dir]
    leads to a name under which nothing exists and which is no link. *)
Definition dangling (w : world) : bool :=
  distinct (map fst (w_links w))
  && forallb
       (fun l =>
          negb (listed (w_files w) (fst l))
          && match snd l with
             | Some (Inside m) =>
                 negb (listed (w_files w) m)
                 && match link_target (w_links w) m with
                    | None => true
                    | Some _ => false
                    end
             | _ => true
             end)
       (w_links w).

(** A reported name is a plain file name. *)
Definition plain_name (n : str) : Prop :=
  n <> [] /\ n <> lit "." /\ n <> lit ".." /\ ~ In SLASH n.

(** The passes of the loop over the blocks, one after the other: the
    world before and after, the rows and the files made. *)
Inductive saves (accepts : str -> bool) (out_name : str)
    : world -> list block -> world -> list saved_row -> list (place * str)
      -> Prop :=
| saves_nil w : saves accepts out_name w [] w [] []
| saves_cons w b rest w1 row x w' rows ws :
    save_block_w accepts out_name b w = Some (w1, row, x) ->
    saves accepts out_name w1 rest w' rows ws ->
    saves accepts out_name w (b :: rest) w' (row :: rows) (x :: ws).

(** ** Definitions used to state the properties of the writer *)

(** The path the loop tests at its [m]-th test. *)
Definition dest_at (stem sfx : str) (dest : dest_path) (dup : Z) (m : nat)
    : dest_path :=
  match m with
  | O => dest
  | S m' => joinpath (candidate stem sfx (dup + Z.of_nat m')%Z)
  end.

(** A file system that refuses no name. *)
Definition any_name (n : str) : bool := true.

(** The bytes [os.fsencode] makes of one character of a name on a UTF-8
    system: the surrogates U+DC80 to U+DCFF stand for one raw byte each,
    and no other surrogate can be encoded. *)
Definition fs_encodable (c : char) : bool :=
  negb (in_range 55296 57343 c) || in_range 56448 56575 c.

Definition fs_bytes (c : char) : nat :=
  if N.ltb c 128 then 1
  else if N.ltb c 2048 then 2
  else if in_range 56448 56575 c then 1
  else if N.ltb c 65536 then 3
  else 4.

(** A file system that takes the names of at most 255 bytes without a
    NUL, as Linux does. *)
Definition short_names (n : str) : bool :=
  forallb fs_encodable n && negb (existsb (N.eqb 0) n)
  && Nat.leb (list_sum (map fs_bytes n)) 255.

Definition hintless (b : block) : bool := negb (nonempty (hint b)).

(** A printed integer is made of digits and, below zero, a minus sign. *)
Definition digit_or_minus (c : char) : bool :=
  in_range 48 57 c || N.eqb c DASH.

(** A document with three fences, the second with a hint. *)
Definition x_three_fences : str :=
  lit "```py" ++ [NL] ++ lit "a" ++ [NL] ++ lit "```" ++ [NL]
  ++ lit "```js:app/main.js" ++ [NL] ++ lit "b" ++ [NL] ++ lit "```" ++ [NL]
  ++ lit "```" ++ [NL] ++ lit "c" ++ [NL] ++ lit "```" ++ [NL].

(** A listing that already holds the first name of the first fence. *)
Definition x_listing : directory := [(lit "code_line1.py", lit "old")].

(** A listing that holds a name and its first numbered name. *)
Definition x_taken : directory :=
  [(lit "a.py", lit "one"); (lit "a_1.py", lit "two")].

(** Two fences whose hints are the directory entries [.] and [..]. *)
Definition x_dot_hints : str :=
  lit "```py:." ++ [NL] ++ lit "a" ++ [NL] ++ lit "```" ++ [NL]
  ++ lit "```py:.." ++ [NL] ++ lit "b" ++ [NL] ++ lit "```" ++ [NL].

(** Two fences without hint. *)
Definition x_two_plain : str :=
  lit "```py" ++ [NL] ++ lit "a" ++ [NL] ++ lit "```" ++ [NL]
  ++ lit "text" ++ [NL]
  ++ lit "```" ++ [NL] ++ lit "b" ++ [NL] ++ lit "```" ++ [NL].

(** The same listing, in a directory where the first numbered name of the
    first fence is a dangling link that leads out of it, and the name of
    the last fence one that leads to a name of the directory. *)
Definition x_linked : world :=
  World x_listing
        [(lit "code_line1_1.py", Some (Elsewhere (lit "/tmp/target")));
         (lit "code_line7.txt", Some (Inside (lit "notes.txt")))].

(** * Properties of the matcher *)

Section ReLemmas.

Lemma or_else_none_r {A : Type} (x : option A) : or_else x None = x.
Proof. destruct x; reflexivity. Qed.

Lemma or_else_is_some {A : Type} (x y : option A) :
  is_some (or_else x y) = is_some x || is_some y.
Proof. destruct x; reflexivity. Qed.

Lemma run_len_le p s : run_len p s <= length s.
Proof. induction s as [|c s IH]; simpl; [lia|]. destruct (p c); simpl; lia. Qed.

Lemma run_len_prefix p s : forallb p (firstn (run_len p s) s) = true.
Proof.
  induction s as [|c s IH]; simpl; [reflexivity|].
  destruct (p c) eqn:E; simpl; [rewrite E; exact IH | reflexivity].
Qed.

Lemma run_len_stop p s c s' :
  skipn (run_len p s) s = c :: s' -> p c = false.
Proof.
  induction s as [|x s IH]; simpl; [discriminate|].
  destruct (p x) eqn:E; simpl; [exact IH|].
  intros H; injection H as -> _; exact E.
Qed.

Lemma run_len_app p a c s :
  forallb p a = true -> p c = false -> run_len p (a ++ c :: s) = length a.
Proof.
  intros Ha Hc. induction a as [|x a IH]; simpl in *.
  - rewrite Hc; reflexivity.
  - apply andb_true_iff in Ha as [-> Ha]. rewrite IH; auto.
Qed.

Lemma run_len_all p a : forallb p a = true -> run_len p a = length a.
Proof.
  induction a as [|x a IH]; simpl; [reflexivity|].
  intros H; apply andb_true_iff in H as [-> H]. rewrite IH; auto.
Qed.

(** A greedy repeat whose continuation fails after every shorter run
    continues after the longest one. *)
Lemma greedy_star_top p k s i g :
  (forall j, j < run_len p s -> k (MState (i + j) (skipn j s) g) = None) ->
  greedy_star p k s i g
  = k (MState (i + run_len p s) (skipn (run_len p s) s) g).
Proof.
  revert i; induction s as [|c s IH]; intros i H; simpl.
  - rewrite Nat.add_0_r; reflexivity.
  - destruct (p c) eqn:E; simpl.
    + rewrite IH.
      * specialize (H 0 ltac:(simpl; rewrite E; lia)).
        rewrite Nat.add_0_r in H; simpl in H; rewrite H, or_else_none_r.
        replace (S i + run_len p s) with (i + S (run_len p s)) by lia.
        reflexivity.
      * intros j Hj. specialize (H (S j)). simpl in H. rewrite E in H.
        replace (S i + j) with (i + S j) by lia. apply H; lia.
    + rewrite Nat.add_0_r; reflexivity.
Qed.

(** A greedy repeat succeeds exactly when the continuation succeeds after
    some run of the class. *)
Lemma greedy_star_some p k s i g :
  is_some (greedy_star p k s i g) = true <->
  exists j, j <= run_len p s /\
            is_some (k (MState (i + j) (skipn j s) g)) = true.
Proof.
  revert i; induction s as [|c s IH]; intros i; simpl.
  - split.
    + intros H; exists 0; rewrite Nat.add_0_r; auto.
    + intros (j & Hj & H). replace j with 0 in H by lia.
      rewrite Nat.add_0_r in H; exact H.
  - destruct (p c) eqn:E.
    + rewrite or_else_is_some, orb_true_iff, IH. split.
      * intros [(j & Hj & H) | H].
        -- exists (S j); split; [lia|]. simpl.
           replace (i + S j) with (S i + j) by lia; exact H.
        -- exists 0; split; [lia|]. rewrite Nat.add_0_r; exact H.
      * intros (j & Hj & H). destruct j as [|j].
        -- right. rewrite Nat.add_0_r in H; exact H.
        -- left. exists j; split; [lia|].
           replace (S i + j) with (i + S j) by lia; exact H.
    + split.
      * intros H; exists 0; rewrite Nat.add_0_r; auto.
      * intros (j & Hj & H). replace j with 0 in H by lia.
        rewrite Nat.add_0_r in H; exact H.
Qed.

Lemma reaches_here q (k : cont) st m : k st = Some m -> reaches q k st m.
Proof.
  intros H. exists 0, st. rewrite Nat.add_0_r. simpl.
  repeat split; auto; lia.
Qed.

Lemma reaches_step q (k : cont) i c s g m :
  q c = true -> reaches q k (MState (S i) s g) m ->
  reaches q k (MState i (c :: s) g) m.
Proof.
  intros Hc (j & st' & Hj & Hq & Hp & Hr & Hk). simpl in *.
  exists (S j), st'. simpl. rewrite Hc, Hq, Hp, Hr.
  repeat split; auto; lia.
Qed.

Lemma reaches_trans q (k k' : cont) st m :
  reaches q k' st m ->
  (forall st1, k' st1 = Some m -> reaches q k st1 m) ->
  reaches q k st m.
Proof.
  intros (j & st1 & Hj & Hq & Hp & Hr & Hk) H.
  destruct (H st1 Hk) as (j' & st2 & Hj' & Hq' & Hp' & Hr' & Hk').
  rewrite Hr in *. rewrite length_skipn in Hj'.
  exists (j + j'), st2. repeat split.
  - lia.
  - rewrite <- (firstn_skipn j (rest st)) at 1.
    rewrite firstn_app, firstn_firstn, forallb_app.
    replace (Nat.min (j + j') j) with j by lia.
    rewrite Hq; simpl.
    rewrite length_firstn. replace (j + j' - Nat.min j (length (rest st))) with j' by lia.
    exact Hq'.
  - lia.
  - rewrite Hr', skipn_skipn. f_equal; lia.
  - exact Hk'.
Qed.

Lemma one_reaches q p (k : cont) st m :
  (forall c, p c = true -> q c = true) ->
  one p k st = Some m -> reaches q k st m.
Proof.
  intros Hpq. unfold one. destruct st as [i [|c s] g]; simpl; [discriminate|].
  destruct (p c) eqn:E; [|discriminate]. intros H.
  apply reaches_step; [auto|]. apply reaches_here; exact H.
Qed.

Lemma greedy_star_reaches q p (k : cont) s i g m :
  (forall c, p c = true -> q c = true) ->
  greedy_star p k s i g = Some m -> reaches q k (MState i s g) m.
Proof.
  intros Hpq. revert i; induction s as [|c s IH]; intros i; simpl.
  - apply reaches_here.
  - destruct (p c) eqn:E; [|apply reaches_here].
    destruct (greedy_star p k s (S i) g) eqn:G; simpl.
    + intros H; injection H as <-. apply reaches_step; auto.
    + apply reaches_here.
Qed.

Lemma lazy_star_reaches q p (k : cont) s i g m :
  (forall c, p c = true -> q c = true) ->
  lazy_star p k s i g = Some m -> reaches q k (MState i s g) m.
Proof.
  intros Hpq. revert i; induction s as [|c s IH]; intros i; simpl.
  - rewrite or_else_none_r. apply reaches_here.
  - destruct (k (MState i (c :: s) g)) eqn:K; simpl.
    + intros H; injection H as <-. apply reaches_here; exact K.
    + destruct (p c) eqn:E; [|discriminate].
      intros H. apply reaches_step; auto.
Qed.

(** Whatever a successful match consumed lies in the pattern's classes. *)
Lemma run_reaches q r :
  classes_in q r ->
  forall k st m, run r k st = Some m -> reaches q k st m.
Proof.
  induction r as [c|p|p|p|r IH|n r IH|r1 IH1 r2 IH2| |]; simpl; intros Hq k st m H.
  - apply one_reaches with (p := N.eqb c); auto.
    intros x Hx; apply N.eqb_eq in Hx; subst; exact Hq.
  - destruct st; apply greedy_star_reaches with (p := p); auto.
  - apply reaches_trans
      with (k' := fun st' => greedy_star p k (rest st') (pos st') (groups st')).
    + apply one_reaches with (p := p); auto.
    + intros [i s g] H1. apply greedy_star_reaches with (p := p); auto.
  - destruct st; apply lazy_star_reaches with (p := p); auto.
  - destruct (run r k st) eqn:R; simpl in H.
    + injection H as <-. apply IH; auto.
    + apply reaches_here; exact H.
  - apply IH in H; auto.
    destruct H as (j & st' & Hj & Hc & Hp & Hr & Hk).
    exists j, (MState (pos st') (rest st') ((n, (pos st, pos st')) :: groups st')).
    simpl. auto.
  - destruct Hq as [Hq1 Hq2].
    apply reaches_trans with (k' := run r2 k); auto.
  - destruct (Nat.eqb (pos st) 0); [apply reaches_here; exact H | discriminate].
  - apply reaches_here.
    destruct (rest st) as [|c [|c' s]]; auto; try discriminate.
    destruct (N.eqb c NL); auto; discriminate.
Qed.

End ReLemmas.

(** * The separator-row pattern *)

Section SeparatorRows.

Lemma sep_re_sound r :
  is_some (re_match sep_re r) = true -> separator_like r = true.
Proof.
  unfold re_match, match_at. simpl skipn.
  destruct (run sep_re Some (MState 0 r [])) as [m|] eqn:R; [intros _|discriminate].
  change (run sep_re Some) with
    (run (Bol @@ Star is_space @@ Opt (Lit PIPE) @@ Plus sep_char
          @@ Opt (Lit PIPE) @@ Star is_space) (run Eol Some)) in R.
  apply run_reaches with (q := sep_char) in R.
  - destruct R as (j & st' & Hj & Hq & _ & Hr & Hk). simpl in *.
    unfold separator_like. change (forallb sep_char r = true).
    rewrite <- (firstn_skipn j r), forallb_app, Hq, <- Hr. simpl.
    destruct (rest st') as [|c [|c' s]]; try discriminate; [reflexivity|].
    simpl. destruct (N.eqb c NL) eqn:E; [|discriminate].
    apply N.eqb_eq in E; subst c; reflexivity.
  - simpl. unfold sep_char. repeat split; auto.
    + intros c ->; reflexivity.
    + intros c ->; reflexivity.
Qed.

Lemma sep_re_complete r :
  nonempty r = true -> separator_like r = true ->
  is_some (re_match sep_re r) = true.
Proof.
  destruct r as [|c r]; [discriminate|]. intros _ H.
  change (forallb sep_char (c :: r) = true) in H. simpl in H.
  apply andb_true_iff in H as [Hc Hr].
  unfold re_match, match_at. simpl skipn.
  match goal with |- is_some (match ?x with _ => _ end) = true =>
    cut (is_some x = true); [destruct x; simpl; auto|] end.
  cbn [run rest pos groups Nat.eqb].
  apply greedy_star_some. exists 0; split; [lia|]. simpl skipn.
  rewrite or_else_is_some. apply orb_true_iff; right.
  unfold one at 1. cbn [rest pos groups]. rewrite Hc.
  apply greedy_star_some. exists (length r). split.
  - rewrite run_len_all; auto.
  - rewrite skipn_all. rewrite or_else_is_some. apply orb_true_iff; right.
    reflexivity.
Qed.

(** The separator test of the source, [re.match(pattern, r)], decides
    "non-empty and made only of separator characters". *)
Lemma sep_re_spec r :
  is_some (re_match sep_re r) = nonempty r && separator_like r.
Proof.
  destruct (is_some (re_match sep_re r)) eqn:E.
  - symmetry. apply andb_true_iff; split; [|apply sep_re_sound; exact E].
    destruct r; [discriminate E | reflexivity].
  - destruct (nonempty r && separator_like r) eqn:F; [|reflexivity].
    apply andb_true_iff in F as [F1 F2].
    rewrite sep_re_complete in E; auto.
Qed.

End SeparatorRows.

(** * The fence pattern *)

Section FencePattern.

Lemma close3 i g s :
  run (Lit BACKTICK @@ Lit BACKTICK @@ Lit BACKTICK) Some (MState i s g)
  = if startswith s TICKS3 then Some (MState (3 + i) (skipn 3 s) g) else None.
Proof.
  unfold TICKS3. cbn [run]. unfold one. cbn [rest pos groups].
  destruct s as [|c1 s]; [reflexivity|].
  cbn [startswith]. rewrite (N.eqb_sym c1).
  destruct (N.eqb BACKTICK c1); cbn [andb rest pos groups]; [|reflexivity].
  destruct s as [|c2 s]; [reflexivity|].
  cbn [startswith]. rewrite (N.eqb_sym c2).
  destruct (N.eqb BACKTICK c2); cbn [andb rest pos groups]; [|reflexivity].
  destruct s as [|c3 s]; [reflexivity|].
  cbn [startswith]. rewrite (N.eqb_sym c3).
  destruct (N.eqb BACKTICK c3); cbn [andb rest pos groups]; reflexivity.
Qed.

Lemma lazy_close i0 g s : forall i,
  lazy_star any_char
    (fun st' =>
       run (Lit BACKTICK @@ Lit BACKTICK @@ Lit BACKTICK) Some
         (MState (pos st') (rest st') ((3, (i0, pos st')) :: groups st')))
    s i g
  = match find_close s with
    | Some j =>
        Some (MState (3 + (i + j)) (skipn (3 + j) s) ((3, (i0, i + j)) :: g))
    | None => None
    end.
Proof.
  induction s as [|c s IH]; intros i.
  - reflexivity.
  - cbn [lazy_star find_close any_char rest pos groups].
    rewrite IH, close3.
    destruct (startswith (c :: s) TICKS3); cbn [or_else].
    + rewrite Nat.add_0_r. reflexivity.
    + destruct (find_close s) as [j|]; cbn [option_map]; [|reflexivity].
      do 2 f_equal; [lia | do 3 f_equal; lia].
Qed.

Lemma open3 (r : regex) (k : cont) i g s :
  run (Lit BACKTICK @@ Lit BACKTICK @@ Lit BACKTICK @@ r) k (MState i s g)
  = if startswith s TICKS3 then run r k (MState (3 + i) (skipn 3 s) g)
    else None.
Proof.
  unfold TICKS3. cbn [run]. unfold one. cbn [rest pos groups].
  destruct s as [|c1 s]; [reflexivity|].
  cbn [startswith]. rewrite (N.eqb_sym c1).
  destruct (N.eqb BACKTICK c1); cbn [andb rest pos groups]; [|reflexivity].
  destruct s as [|c2 s]; [reflexivity|].
  cbn [startswith]. rewrite (N.eqb_sym c2).
  destruct (N.eqb BACKTICK c2); cbn [andb rest pos groups]; [|reflexivity].
  destruct s as [|c3 s]; [reflexivity|].
  cbn [startswith]. rewrite (N.eqb_sym c3).
  destruct (N.eqb BACKTICK c3); cbn [andb rest pos groups]; reflexivity.
Qed.

Lemma run_len_inside p s j :
  j < run_len p s -> exists c s', skipn j s = c :: s' /\ p c = true.
Proof.
  revert j; induction s as [|x s IH]; simpl; intros j Hj; [lia|].
  destruct (p x) eqn:E; [|lia].
  destruct j as [|j]; [exists x, s; auto|].
  apply IH; lia.
Qed.

Lemma body_run i s g :
  run body_re Some (MState i s g) = fence_close g i s.
Proof.
  unfold body_re, fence_close. cbn [run rest pos groups].
  apply (lazy_close i g s i).
Qed.

Lemma newline_run i s g :
  run (Lit NL @@ body_re) Some (MState i s g)
  = match s with
    | c :: s' => if N.eqb c NL then fence_close g (S i) s' else None
    | [] => None
    end.
Proof.
  change (run (Lit NL @@ body_re) Some)
    with (one (N.eqb NL) (run body_re Some)).
  unfold one; cbn [rest pos groups].
  destruct s as [|c s']; [reflexivity|].
  rewrite (N.eqb_sym c). destruct (N.eqb NL c); [apply body_run | reflexivity].
Qed.

Lemma hint_run i s g :
  run hint_re Some (MState i s g)
  = match s with
    | c :: s4 =>
        if N.eqb c NL then fence_close g (S i) s4
        else if N.eqb c COLON then
          match s4 with
          | c2 :: s4' =>
              if not_newline c2 then
                let h := run_len not_newline s4' in
                match skipn h s4' with
                | _ :: s5 =>
                    fence_close ((2, (S i, S (S i) + h)) :: g)
                      (S (S (S i) + h)) s5
                | [] => None
                end
              else None
          | [] => None
          end
        else None
    | [] => None
    end.
Proof.
  change (run hint_re Some (MState i s g)) with
    (or_else
       (one (N.eqb COLON)
          (run (Group 2 (Plus not_newline)) (run (Lit NL @@ body_re) Some))
          (MState i s g))
       (run (Lit NL @@ body_re) Some (MState i s g))).
  rewrite newline_run. unfold one at 1; cbn [rest pos groups].
  destruct s as [|c s4]; [reflexivity|].
  destruct (N.eqb c NL) eqn:ENL.
  - apply N.eqb_eq in ENL; subst c. reflexivity.
  - rewrite or_else_none_r, (N.eqb_sym c).
    destruct (N.eqb COLON c); [|reflexivity].
    cbn [run]. unfold one at 1; cbn [rest pos groups].
    destruct s4 as [|c2 s4']; [reflexivity|].
    destruct (not_newline c2); [|reflexivity].
    rewrite greedy_star_top.
    + cbn [rest pos groups].
      change (one (N.eqb NL) ?k) with (one (N.eqb NL) k).
      unfold one; cbn [rest pos groups].
      destruct (skipn (run_len not_newline s4') s4') as [|c3 s5] eqn:ES;
        [reflexivity|].
      apply run_len_stop in ES. unfold not_newline in ES.
      apply negb_false_iff in ES. rewrite (N.eqb_sym NL), ES.
      apply body_run.
    + intros j Hj. apply run_len_inside in Hj as (x & s' & -> & Hx).
      cbn [rest pos groups]. unfold one; cbn [rest pos groups].
      unfold not_newline in Hx. apply negb_true_iff in Hx.
      rewrite (N.eqb_sym NL), Hx. reflexivity.
Qed.

Lemma hint_run_fail c s i g :
  N.eqb c NL = false -> N.eqb c COLON = false ->
  run hint_re Some (MState i (c :: s) g) = None.
Proof. intros H1 H2. rewrite hint_run, H1, H2. reflexivity. Qed.

Lemma lang_char_plain c :
  lang_char c = true -> N.eqb c NL = false /\ N.eqb c COLON = false.
Proof.
  unfold lang_char, in_range, NL, COLON. intros H.
  repeat rewrite orb_true_iff in H. repeat rewrite andb_true_iff in H.
  repeat rewrite N.leb_le in H. repeat rewrite N.eqb_eq in H.
  split; apply N.eqb_neq; lia.
Qed.

Lemma space_or_tab_plain c :
  space_or_tab c = true ->
  lang_char c = false /\ N.eqb c NL = false /\ N.eqb c COLON = false.
Proof.
  unfold space_or_tab, SPACE, TAB. intros H.
  rewrite orb_true_iff in H. repeat rewrite N.eqb_eq in H.
  destruct H; subst c; repeat split; reflexivity.
Qed.

Lemma lang_run i s g :
  run lang_re Some (MState i s g)
  = let b := run_len lang_char s in
    run hint_re Some (MState (i + b) (skipn b s) ((1, (i, i + b)) :: g)).
Proof.
  unfold lang_re. cbn [run rest pos groups]. rewrite greedy_star_top.
  - reflexivity.
  - intros j Hj. apply run_len_inside in Hj as (x & s' & -> & Hx).
    cbn [rest pos groups]. apply lang_char_plain in Hx as [H1 H2].
    apply hint_run_fail; assumption.
Qed.

(** The fence pattern never backtracks into a different parse. *)
Lemma fence_run i s :
  run fence_re Some (MState i s []) = fence_parse i s.
Proof.
  change fence_re with
    (Lit BACKTICK @@ Lit BACKTICK @@ Lit BACKTICK
     @@ Star space_or_tab @@ lang_re).
  rewrite open3. unfold fence_parse.
  destruct (startswith s TICKS3); [|reflexivity].
  cbn [run rest pos groups]. rewrite greedy_star_top.
  - rewrite lang_run. cbv zeta. rewrite hint_run. reflexivity.
  - intros j Hj. apply run_len_inside in Hj as (x & s' & -> & Hx).
    apply space_or_tab_plain in Hx as (H0 & H1 & H2).
    rewrite lang_run. cbn [run_len]. rewrite H0. cbn [skipn].
    apply hint_run_fail; assumption.
Qed.

Lemma fence_close_pos g i s st : fence_close g i s = Some st -> i < pos st.
Proof.
  unfold fence_close. destruct (find_close s); [|discriminate].
  intros H; injection H as <-. simpl. lia.
Qed.

(** The fence pattern never matches the empty string, so the scan always
    resumes at the end of the match. *)
Lemma fence_match_nonempty text i m :
  match_at fence_re text i = Some m -> m_start m < m_end m.
Proof.
  unfold match_at. rewrite fence_run.
  destruct (fence_parse i (skipn i text)) as [st|] eqn:E; [|discriminate].
  intros H; injection H as <-. simpl.
  unfold fence_parse in E.
  destruct (startswith (skipn i text) TICKS3); [|discriminate].
  cbv zeta in E.
  destruct (skipn _ (skipn _ (skipn 3 (skipn i text)))) as [|c s4];
    [discriminate|].
  destruct (N.eqb c NL).
  - apply fence_close_pos in E. lia.
  - destruct (N.eqb c COLON); [|discriminate].
    destruct s4 as [|c2 s4']; [discriminate|].
    destruct (not_newline c2); [|discriminate].
    destruct (skipn _ s4') as [|c3 s5]; [discriminate|].
    apply fence_close_pos in E. lia.
Qed.

(** A successful attempt starts on a triple backtick. *)
Lemma match_at_fence_ticks text i m :
  match_at fence_re text i = Some m ->
  startswith (skipn i text) TICKS3 = true /\ m_start m = i /\ m_string m = text.
Proof.
  unfold match_at. rewrite fence_run. unfold fence_parse.
  destruct (startswith (skipn i text) TICKS3); [|discriminate].
  destruct (match _ with [] => None | _ => _ end); [|discriminate].
  intros H; injection H as <-. auto.
Qed.

End FencePattern.

(** * Line numbers *)

Section LineNumbers.

Open Scope Z_scope.

Lemma build_line_starts_eq text :
  build_line_starts text = 0 :: starts_from 0 text.
Proof.
  unfold build_line_starts.
  change (0 :: starts_from 0 text) with ([0] ++ starts_from 0 text).
  generalize [0]. generalize 0.
  induction text as [|c s IH]; intros i acc; simpl.
  - rewrite app_nil_r; reflexivity.
  - rewrite IH. destruct (N.eqb c NL); [|reflexivity].
    rewrite <- app_assoc; reflexivity.
Qed.

Lemma starts_from_gt i s : Forall (fun v => i < v) (starts_from i s).
Proof.
  revert i; induction s as [|c s IH]; intros i; simpl; [constructor|].
  assert (H : Forall (fun v => i < v) (starts_from (i + 1) s)).
  { eapply Forall_impl; [|apply IH]. simpl; intros; lia. }
  destruct (N.eqb c NL); [constructor; [lia|exact H] | exact H].
Qed.

Lemma starts_from_sorted i s : StronglySorted Z.lt (starts_from i s).
Proof.
  revert i; induction s as [|c s IH]; intros i; simpl; [constructor|].
  destruct (N.eqb c NL); [|apply IH].
  constructor; [apply IH | apply starts_from_gt].
Qed.

Lemma line_starts_sorted text :
  StronglySorted Z.lt (build_line_starts text).
Proof.
  rewrite build_line_starts_eq. constructor.
  - apply starts_from_sorted.
  - apply starts_from_gt.
Qed.

Lemma filter_le_none (i : Z) (l : list Z) :
  Forall (fun v => i < v) l -> filter (fun v => v <=? i) l = [].
Proof.
  induction 1 as [|v l Hv _ IHl]; [reflexivity|].
  simpl. destruct (Z.leb_spec v i); [lia | exact IHl].
Qed.

Lemma starts_from_count i s (k : nat) :
  List.length (filter (fun v => v <=? i + Z.of_nat k) (starts_from i s))
  = count_nl (firstn k s).
Proof.
  revert i k; induction s as [|c s IH]; intros i k.
  - destruct k; reflexivity.
  - destruct k as [|k].
    + replace (i + Z.of_nat 0) with i by lia.
      rewrite filter_le_none by apply starts_from_gt. reflexivity.
    + simpl. unfold count_nl in *. simpl.
      replace (i + Z.pos (Pos.of_succ_nat k)) with (i + 1 + Z.of_nat k) by lia.
      destruct (N.eqb c NL); simpl.
      * destruct (Z.leb_spec (i + 1) (i + 1 + Z.of_nat k)); [|lia].
        simpl. f_equal. apply IH.
      * apply IH.
Qed.

Lemma line_starts_count text (k : nat) :
  List.length (filter (fun v => v <=? Z.of_nat k) (build_line_starts text))
  = S (count_nl (firstn k text)).
Proof.
  rewrite build_line_starts_eq. simpl.
  destruct (Z.leb_spec 0 (Z.of_nat k)); [|lia]. simpl. f_equal.
  apply (starts_from_count 0 text k).
Qed.

Lemma line_starts_length text :
  List.length (build_line_starts text) = S (count_nl text).
Proof.
  rewrite build_line_starts_eq. simpl. f_equal.
  unfold count_nl. generalize 0.
  induction text as [|c s IH]; intros i; simpl; [reflexivity|].
  destruct (N.eqb c NL); simpl; rewrite IH; reflexivity.
Qed.

(** Indexing inside the list never raises. *)
Lemma index_in_range {A : Type} (xs : list A) (j : Z) :
  0 <= j < Z.of_nat (List.length xs) ->
  exists v, index xs j = Some v /\ nth_error xs (Z.to_nat j) = Some v.
Proof.
  intros H. unfold index. destruct (Z.leb_spec 0 j); [|lia].
  destruct (nth_error xs (Z.to_nat j)) eqn:E; [eauto|].
  apply nth_error_None in E. lia.
Qed.

Lemma index_nonneg {A : Type} (xs : list A) (j : Z) (v : A) :
  0 <= j -> index xs j = Some v ->
  j < Z.of_nat (List.length xs) /\ nth_error xs (Z.to_nat j) = Some v.
Proof.
  intros Hj H. unfold index in H. destruct (Z.leb_spec 0 j); [|lia].
  split; [|exact H].
  assert (Hn : nth_error xs (Z.to_nat j) <> None) by congruence.
  apply nth_error_Some in Hn. lia.
Qed.

Lemma sorted_nth (ls : list Z) :
  StronglySorted Z.lt ls ->
  forall a b x y, (a < b)%nat ->
    nth_error ls a = Some x -> nth_error ls b = Some y -> x < y.
Proof.
  induction 1 as [|v l Hs IH Hall]; intros a b x y Hab Ha Hb.
  - destruct a; discriminate.
  - destruct b as [|b]; [lia|]. simpl in Hb. destruct a as [|a].
    + simpl in Ha; injection Ha as <-.
      rewrite Forall_forall in Hall. apply Hall.
      eapply nth_error_In; eauto.
    + simpl in Ha. apply (IH a b x y); auto. lia.
Qed.

Lemma offset_to_line_loop_spec (ls : list Z) (offset : Z) :
  StronglySorted Z.lt ls ->
  forall fuel lo hi,
    0 <= lo <= hi -> hi < Z.of_nat (List.length ls) ->
    (hi - lo < Z.of_nat fuel) ->
    (exists v, index ls lo = Some v /\ v <= offset) ->
    (forall j v, hi < j -> index ls j = Some v -> offset < v) ->
    exists n, offset_to_line_loop fuel ls offset lo hi = Some n /\
              greatest_at_most ls offset n.
Proof.
  intros Hsorted. induction fuel as [|fuel IH]; intros lo hi Hlo Hhi Hf Hl Hh.
  - lia.
  - simpl. destruct (Z.ltb_spec lo hi) as [Hlt|Hge].
    + set (mid := (lo + hi + 1) / 2).
      assert (Hmid : lo < mid <= hi).
      { unfold mid.
        pose proof (Z.div_mod (lo + hi + 1) 2 ltac:(lia)).
        pose proof (Z.mod_pos_bound (lo + hi + 1) 2 ltac:(lia)). lia. }
      destruct (@index_in_range _ ls mid) as (v & Hv & Hnth); [lia|].
      rewrite Hv. simpl.
      destruct (Z.leb_spec v offset) as [Hle|Hgt].
      * apply IH; try lia; [exists v; auto | exact Hh].
      * apply IH; try lia; [exact Hl|].
        intros j w Hj Hw.
        destruct (Z.eq_dec j mid) as [->|Hne]; [congruence|].
        apply index_nonneg in Hw as [_ Hnw]; [|lia].
        assert (v < w); [|lia].
        apply (sorted_nth Hsorted) with (a := Z.to_nat mid) (b := Z.to_nat j);
          auto. lia.
    + assert (lo = hi) by lia; subst hi.
      exists (lo + 1). split; [reflexivity|].
      unfold greatest_at_most. replace (lo + 1 - 1) with lo by lia.
      repeat split; try lia; auto.
      intros j v Hj. apply Hh. lia.
Qed.

Lemma offset_to_line_spec text offset :
  0 <= offset ->
  exists n, offset_to_line (build_line_starts text) offset = Some n /\
            greatest_at_most (build_line_starts text) offset n.
Proof.
  intros Hoff. unfold offset_to_line.
  assert (Hlen := line_starts_length text).
  apply offset_to_line_loop_spec.
  - apply line_starts_sorted.
  - lia.
  - lia.
  - lia.
  - exists 0. rewrite build_line_starts_eq. split; [reflexivity | lia].
  - intros j v Hj Hv. apply index_nonneg in Hv as [Hv _]; lia.
Qed.

Lemma filter_le_all (off : Z) (l : list Z) :
  Forall (fun v => v <= off) l -> filter (fun v => v <=? off) l = l.
Proof.
  induction 1 as [|v l Hv _ IHl]; [reflexivity|].
  simpl. destruct (Z.leb_spec v off); [f_equal; exact IHl | lia].
Qed.

Lemma Forall_nth_error {A : Type} (P : A -> Prop) (l : list A) :
  (forall a x, nth_error l a = Some x -> P x) -> Forall P l.
Proof.
  intros H. apply Forall_forall. intros x Hx.
  apply In_nth_error in Hx as [a Ha]. eauto.
Qed.

(** On a sorted list the index found is the number of entries that are at
    most the offset. *)
Lemma greatest_at_most_count ls offset n :
  StronglySorted Z.lt ls -> greatest_at_most ls offset n ->
  Z.of_nat (List.length (filter (fun v => v <=? offset) ls)) = n.
Proof.
  intros Hs (Hn & (v & Hv & Hvo) & Hup).
  apply index_nonneg in Hv as [_ Hv]; [|lia].
  rewrite <- (firstn_skipn (Z.to_nat n) ls), filter_app.
  rewrite filter_le_all, filter_le_none.
  - rewrite app_nil_r, length_firstn. lia.
  - apply Forall_nth_error. intros a x Ha. rewrite nth_error_skipn in Ha.
    apply (Hup (Z.of_nat (Z.to_nat n + a))); [lia|].
    unfold index. destruct (Z.leb_spec 0 (Z.of_nat (Z.to_nat n + a))); [|lia].
    rewrite Nat2Z.id. exact Ha.
  - apply Forall_nth_error. intros a x Ha. rewrite nth_error_firstn in Ha.
    destruct (Nat.ltb_spec a (Z.to_nat n)); [|discriminate].
    destruct (Nat.eq_dec a (Z.to_nat (n - 1))) as [->|Hne].
    + assert (x = v) by congruence. lia.
    + assert (x < v); [|lia].
      apply (sorted_nth Hs) with (a := a) (b := Z.to_nat (n - 1)); auto. lia.
Qed.

(** The line number of an offset is one more than the number of newlines
    before it. *)
Lemma offset_to_line_count text (k : nat) :
  offset_to_line (build_line_starts text) (Z.of_nat k)
  = Some (Z.of_nat (S (count_nl (firstn k text)))).
Proof.
  destruct (@offset_to_line_spec text (Z.of_nat k)) as (n & Hn & Hg); [lia|].
  rewrite Hn. f_equal.
  apply greatest_at_most_count in Hg; [|apply line_starts_sorted].
  rewrite line_starts_count in Hg. auto.
Qed.

End LineNumbers.

(** * The scan of [finditer] *)

Section Finditer.

Variable r : regex.
Variable text : str.

Lemma resume_gt i m : i < resume i m.
Proof. unfold resume. destruct (Nat.ltb_spec i (m_end m)); lia. Qed.

Lemma finditer_from_scans fuel : forall i ms,
  finditer_from fuel r text i = Some ms -> scans r text i ms.
Proof.
  induction fuel as [|fuel IH]; intros i ms; simpl; [discriminate|].
  destruct (Nat.ltb_spec (length text) i) as [Hlt|Hle].
  - intros H; injection H as <-. apply scans_end; exact Hlt.
  - destruct (match_at r text i) as [m|] eqn:M.
    + destruct (finditer_from fuel r text _) as [ms'|] eqn:F; simpl;
        [|discriminate].
      intros H; injection H as <-. apply scans_hit; auto.
    + intros H. apply scans_miss; auto.
Qed.

Lemma finditer_from_total fuel : forall i,
  1 <= fuel -> length text + 2 <= fuel + i ->
  exists ms, finditer_from fuel r text i = Some ms.
Proof.
  induction fuel as [|fuel IH]; intros i H1 H2; [lia|]. simpl.
  destruct (Nat.ltb_spec (length text) i) as [Hlt|Hle]; [eauto|].
  destruct (match_at r text i) as [m|] eqn:M.
  - destruct (IH (if Nat.ltb i (m_end m) then m_end m else S i)) as [ms Hms].
    + lia.
    + pose proof (resume_gt i m) as Hr. unfold resume in Hr. lia.
    + rewrite Hms. simpl. eauto.
  - apply IH; lia.
Qed.

Lemma scans_deterministic i ms1 :
  scans r text i ms1 -> forall ms2, scans r text i ms2 -> ms1 = ms2.
Proof.
  induction 1 as [i Hi | i m ms Hi Hm _ IH | i ms Hi Hm _ IH];
    intros ms2 H2; inversion H2; subst; try lia; try congruence.
  - assert (m0 = m) by congruence; subst m0. f_equal. apply IH; assumption.
  - apply IH; assumption.
Qed.

Lemma finditer_total : exists ms, finditer r text = Some ms.
Proof. apply finditer_from_total; lia. Qed.

(** [finditer] returns exactly the matches of the scan from offset 0. *)
Lemma finditer_scans ms : finditer r text = Some ms <-> scans r text 0 ms.
Proof.
  split.
  - apply finditer_from_scans.
  - intros H. destruct finditer_total as [ms' Hms'].
    rewrite Hms'. f_equal.
    apply finditer_from_scans in Hms'.
    apply (scans_deterministic Hms' H).
Qed.

(** Every reported match was found by an attempt at its own start. *)
Lemma scans_matches i ms :
  scans r text i ms ->
  Forall (fun m => exists q, i <= q <= length text /\
                             match_at r text q = Some m) ms.
Proof.
  induction 1 as [i Hi | i m ms Hi Hm Hs IH | i ms Hi Hm Hs IH].
  - constructor.
  - constructor; [exists i; split; [lia | exact Hm]|].
    eapply Forall_impl; [|exact IH]. simpl.
    intros m' (q & Hq & Hm'). exists q. split; [|exact Hm'].
    pose proof (resume_gt i m). lia.
  - eapply Forall_impl; [|exact IH]. simpl.
    intros m' (q & Hq & Hm'). exists q. split; [lia | exact Hm'].
Qed.

(** Offsets where no attempt succeeds are skipped. *)
Lemma scans_skip n : forall i ms,
  (forall q, i <= q < i + n -> match_at r text q = None) ->
  i + n <= S (length text) ->
  scans r text (i + n) ms -> scans r text i ms.
Proof.
  induction n as [|n IH]; intros i ms Hnone Hlen H.
  - rewrite Nat.add_0_r in H; exact H.
  - apply scans_miss; [lia | apply Hnone; lia |].
    apply IH.
    + intros q Hq; apply Hnone; lia.
    + lia.
    + replace (S i + n) with (i + S n) by lia; exact H.
Qed.

End Finditer.

(** * Fenced code blocks *)

Section CodeBlocks.

Lemma blocks_of_matches_eq text ms :
  blocks_of_matches (build_line_starts text) ms
  = Some (map (block_at text) ms).
Proof.
  induction ms as [|m ms IH]; simpl; [reflexivity|].
  unfold block_of_match. rewrite offset_to_line_count. simpl.
  rewrite IH. reflexivity.
Qed.

(** [extract_code_blocks] is one tuple per match of the scan, in order. *)
Lemma extract_code_blocks_scans text bs :
  extract_code_blocks text = Some bs <->
  exists ms, scans fence_re text 0 ms /\ bs = map (block_at text) ms.
Proof.
  unfold extract_code_blocks. split.
  - destruct (finditer fence_re text) as [ms|] eqn:F; simpl; [|discriminate].
    rewrite blocks_of_matches_eq. intros H; injection H as <-.
    exists ms. split; [apply finditer_scans; exact F | reflexivity].
  - intros (ms & Hs & ->). apply finditer_scans in Hs. rewrite Hs. simpl.
    apply blocks_of_matches_eq.
Qed.

Lemma extract_code_blocks_total text :
  exists bs, extract_code_blocks text = Some bs.
Proof.
  destruct (finditer_total fence_re text) as [ms Hms].
  exists (map (block_at text) ms).
  apply extract_code_blocks_scans. exists ms. split; [|reflexivity].
  apply finditer_scans; exact Hms.
Qed.

Lemma startswith_spec (p s : str) :
  startswith s p = true <-> exists t, s = p ++ t.
Proof.
  revert s; induction p as [|x p IH]; intros s; simpl.
  - split; [intros _; exists s; reflexivity | reflexivity].
  - destruct s as [|c s].
    + split; [discriminate | intros (t & H); discriminate].
    + rewrite andb_true_iff, N.eqb_eq, IH. split.
      * intros (-> & t & ->). exists t; reflexivity.
      * intros (t & H). injection H as -> ->. split; [reflexivity | eauto].
Qed.

(** [has_ticks3] decides whether a triple backtick occurs in [s]. *)
Lemma has_ticks3_spec (s : str) :
  has_ticks3 s = true <-> exists a b, s = a ++ lit "```" ++ b.
Proof.
  change (lit "```") with TICKS3. unfold has_ticks3.
  induction s as [|c s IH].
  - split; [discriminate|].
    intros (a & b & H). destruct a; discriminate.
  - cbn [find_close].
    destruct (startswith (c :: s) TICKS3) eqn:E.
    + split; [intros _ | reflexivity].
      apply startswith_spec in E as (t & ->). exists [], t. reflexivity.
    + destruct (find_close s) as [j|]; cbn [option_map is_some] in *.
      * split; [intros _ | reflexivity].
        destruct IH as [IH _]. destruct (IH eq_refl) as (a & b & ->).
        exists (c :: a), b. reflexivity.
      * split; [discriminate|].
        intros (a & b & H). destruct a as [|x a].
        -- assert (Hs : startswith (c :: s) TICKS3 = true).
           { apply startswith_spec. exists b. exact H. }
           congruence.
        -- injection H as -> ->. destruct IH as [_ IH].
           assert (Hf : false = true).
           { apply IH. exists a, b. reflexivity. }
           discriminate.
Qed.

Lemma find_close_none_skipn s :
  find_close s = None -> forall j, startswith (skipn j s) TICKS3 = false.
Proof.
  induction s as [|c s IH]; intros H j.
  - destruct j; reflexivity.
  - cbn [find_close] in H.
    destruct (startswith (c :: s) TICKS3) eqn:E; [discriminate|].
    destruct j as [|j]; [exact E|]. simpl skipn. apply IH.
    destruct (find_close s); [discriminate | reflexivity].
Qed.

Lemma find_close_skipn_none s j :
  find_close s = None -> find_close (skipn j s) = None.
Proof.
  revert j; induction s as [|c s IH]; intros j H.
  - destruct j; reflexivity.
  - destruct j as [|j]; [exact H|]. simpl skipn. apply IH.
    cbn [find_close] in H.
    destruct (startswith (c :: s) TICKS3); [discriminate|].
    destruct (find_close s); [discriminate | reflexivity].
Qed.

Lemma fence_parse_no_ticks i s :
  startswith s TICKS3 = false -> fence_parse i s = None.
Proof. unfold fence_parse. intros ->. reflexivity. Qed.

(** A run of four backticks is not an opening: the fourth cannot start the
    tag, the hint or the newline. *)
Lemma fence_parse_4ticks i x1 x2 x3 s :
  fence_parse i (x1 :: x2 :: x3 :: BACKTICK :: s) = None.
Proof.
  unfold fence_parse.
  destruct (startswith (x1 :: x2 :: x3 :: BACKTICK :: s) TICKS3);
    reflexivity.
Qed.

(** No attempt succeeds while it starts inside text that has no triple
    backtick of its own, even when that text runs into a delimiter. *)
Lemma fence_parse_before i u t :
  find_close u = None -> u <> [] ->
  fence_parse i (u ++ TICKS3 ++ t) = None.
Proof.
  intros Hu Hne. destruct u as [|x1 [|x2 [|x3 u]]].
  - congruence.
  - apply fence_parse_4ticks.
  - apply fence_parse_4ticks.
  - apply fence_parse_no_ticks.
    cbn [find_close] in Hu.
    destruct (startswith (x1 :: x2 :: x3 :: u) TICKS3) eqn:E; [discriminate|].
    exact E.
Qed.

Lemma skipn_app_length {A : Type} (a b : list A) :
  skipn (length a) (a ++ b) = b.
Proof. induction a; simpl; auto. Qed.

Lemma skipn_app_lt {A : Type} (q : nat) (a b : list A) :
  q < length a ->
  skipn q (a ++ b) = skipn q a ++ b /\ skipn q a <> [].
Proof.
  revert q; induction a as [|x a IH]; intros q Hq; simpl in Hq; [lia|].
  destruct q as [|q]; simpl; [split; [reflexivity | discriminate]|].
  apply IH; lia.
Qed.

Lemma match_at_before pre t q :
  find_close pre = None -> q < length pre ->
  match_at fence_re (pre ++ TICKS3 ++ t) q = None.
Proof.
  intros Hpre Hq. unfold match_at. rewrite fence_run.
  destruct (@skipn_app_lt _ q pre (TICKS3 ++ t) Hq) as [-> Hne].
  rewrite fence_parse_before; auto.
  apply find_close_skipn_none; exact Hpre.
Qed.

Lemma match_at_after a post q :
  find_close post = None -> length a <= q ->
  match_at fence_re (a ++ post) q = None.
Proof.
  intros Hpost Hq. unfold match_at. rewrite fence_run.
  replace q with ((q - length a) + length a) by lia.
  rewrite <- skipn_skipn, skipn_app_length.
  rewrite fence_parse_no_ticks; [reflexivity|].
  apply find_close_none_skipn; exact Hpost.
Qed.

Lemma run_len_app_stop p a t :
  forallb p a = true ->
  match t with c :: _ => p c = false | [] => True end ->
  run_len p (a ++ t) = length a.
Proof.
  intros Ha Ht. induction a as [|x a IH]; simpl in *.
  - destruct t as [|c t]; [reflexivity|]. simpl. rewrite Ht. reflexivity.
  - apply andb_true_iff in Ha as [-> Ha]. rewrite IH; auto.
Qed.

Lemma fence_parse_shape i ws tag h body post :
  forallb space_or_tab ws = true -> forallb lang_char tag = true ->
  (forall n, h = Some n -> nonempty n = true /\ forallb not_newline n = true) ->
  find_close (body ++ TICKS3 ++ post) = Some (length body) ->
  let i1 := i + 3 + length ws in
  let i2 := i1 + length tag in
  let i3 := i2 + length (hint_text h) in
  exists st,
    fence_parse i (fence_text ws tag h body post) = Some st /\
    pos st = i3 + 1 + length body + 3 /\
    assoc 1 (groups st) = Some (i1, i2) /\
    assoc 2 (groups st)
      = match h with Some _ => Some (i2 + 1, i3) | None => None end /\
    assoc 3 (groups st) = Some (i3 + 1, i3 + 1 + length body).
Proof.
  intros Hws Htag Hh Hbody. cbv zeta.
  unfold TICKS3 in Hbody. cbn [app] in Hbody.
  unfold fence_text, fence_parse. cbn [TICKS3 app startswith skipn].
  rewrite !N.eqb_refl. cbn [andb].
  assert (Hstop : forall t, match hint_text h ++ NL :: t with
                            | c :: _ => lang_char c = false
                            | [] => True
                            end).
  { intros t. destruct h; reflexivity. }
  assert (Hstop0 : forall t, match tag ++ hint_text h ++ NL :: t with
                             | c :: _ => space_or_tab c = false
                             | [] => True
                             end).
  { intros t. destruct tag as [|c tag]; [destruct h; reflexivity|].
    simpl in Htag. apply andb_true_iff in Htag as [Hc _].
    simpl. destruct (space_or_tab c) eqn:E; [|reflexivity].
    apply space_or_tab_plain in E as [E _]; congruence. }
  rewrite (@run_len_app_stop space_or_tab ws _ Hws (Hstop0 _)).
  rewrite skipn_app_length.
  rewrite (@run_len_app_stop lang_char tag _ Htag (Hstop _)).
  rewrite skipn_app_length.
  destruct h as [n|]; cbn [hint_text app].
  - destruct (Hh n eq_refl) as [Hne Hnn].
    destruct n as [|c2 n]; [discriminate|].
    simpl in Hnn. apply andb_true_iff in Hnn as [Hc2 Hnn].
    change (N.eqb COLON NL) with false. change (N.eqb COLON COLON) with true.
    cbn [app]. rewrite Hc2.
    rewrite (@run_len_app_stop not_newline n (NL :: _) Hnn eq_refl).
    rewrite skipn_app_length.
    unfold fence_close. rewrite Hbody.
    eexists; split; [reflexivity|]. simpl.
    repeat split; try lia; do 2 f_equal; lia.
  - change (N.eqb NL NL) with true. cbv iota.
    unfold fence_close. rewrite Hbody.
    eexists; split; [reflexivity|]. simpl.
    repeat split; try lia; do 2 f_equal; lia.
Qed.

Lemma startswith_app_nonempty (a b : str) (p : char) :
  a <> [] -> startswith (a ++ b) [p] = startswith a [p].
Proof. destruct a as [|x a]; [congruence | reflexivity]. Qed.

Lemma endswith_cons c (u : str) (p : char) :
  u <> [] -> endswith (c :: u) [p] = endswith u [p].
Proof.
  intros Hu. unfold endswith. simpl rev. apply startswith_app_nonempty.
  destruct u; [congruence|]. simpl. destruct (rev u); discriminate.
Qed.

(** In text that has no triple backtick and does not end with a backtick,
    a delimiter appended to it is the first one. *)
Lemma find_close_app_ticks u post :
  find_close u = None -> endswith u [BACKTICK] = false ->
  find_close (u ++ TICKS3 ++ post) = Some (length u).
Proof.
  induction u as [|c u IH]; intros Hu He.
  - reflexivity.
  - cbn [find_close] in Hu.
    destruct (startswith (c :: u) TICKS3) eqn:E; [discriminate|].
    destruct (find_close u) eqn:F; [discriminate|].
    assert (Hs : startswith ((c :: u) ++ TICKS3 ++ post) TICKS3 = false).
    { destruct u as [|x [|y u]].
      - unfold endswith in He. cbn [rev app startswith] in He.
        rewrite andb_true_r in He.
        unfold TICKS3. cbn [app startswith]. rewrite He. reflexivity.
      - rewrite endswith_cons in He by discriminate.
        unfold endswith in He. cbn [rev app startswith] in He.
        rewrite andb_true_r in He.
        unfold TICKS3. cbn [app startswith]. rewrite He.
        apply andb_false_r.
      - exact E. }
    change ((c :: u) ++ TICKS3 ++ post) with (c :: (u ++ TICKS3 ++ post)) in *.
    cbn [find_close]. rewrite Hs, IH; auto.
    destruct u as [|x u]; [reflexivity|].
    rewrite endswith_cons in He by discriminate. exact He.
Qed.

Lemma find_close_snoc_nl u :
  find_close u = None -> find_close (u ++ [NL]) = None.
Proof.
  induction u as [|c u IH]; intros Hu; [reflexivity|].
  cbn [find_close] in Hu.
  destruct (startswith (c :: u) TICKS3) eqn:E; [discriminate|].
  destruct (find_close u) eqn:F; [discriminate|].
  change ((c :: u) ++ [NL]) with (c :: (u ++ [NL])).
  cbn [find_close]. rewrite IH by reflexivity.
  replace (startswith (c :: u ++ [NL]) TICKS3) with false; [reflexivity|].
  symmetry. unfold TICKS3 in *.
  destruct u as [|x [|y u]]; cbn [app startswith] in *.
  - apply andb_false_r.
  - change (N.eqb NL BACKTICK) with false. rewrite !andb_false_r. reflexivity.
  - exact E.
Qed.

Lemma endswith_snoc_nl u : endswith (u ++ [NL]) [BACKTICK] = false.
Proof. unfold endswith. rewrite rev_app_distr. reflexivity. Qed.

Lemma slice_eq (text x y z : str) (a b : nat) :
  text = x ++ y ++ z -> a = length x -> b = a + length y ->
  slice text a b = y.
Proof.
  intros -> -> ->. unfold slice. rewrite skipn_app_length.
  replace (length x + length y - length x) with (length y + 0) by lia.
  rewrite firstn_app_2. simpl. apply app_nil_r.
Qed.

Lemma dropwhile_id p (s : str) :
  match s with c :: _ => p c = false | [] => True end -> dropwhile p s = s.
Proof. destruct s as [|c s]; [reflexivity|]. simpl. intros ->. reflexivity. Qed.

(** Stripping changes nothing in a string that neither starts nor ends
    with whitespace. *)
Lemma strip_id (s : str) :
  match s with c :: _ => is_space c = false | [] => True end ->
  match rev s with c :: _ => is_space c = false | [] => True end ->
  strip s = s.
Proof.
  intros H1 H2. unfold strip, lstrip_with, rstrip_with.
  rewrite (dropwhile_id is_space s H1), (dropwhile_id is_space (rev s) H2).
  apply rev_involutive.
Qed.

Lemma lang_char_not_space c : lang_char c = true -> is_space c = false.
Proof.
  unfold lang_char, is_space, in_range. intros H.
  repeat rewrite orb_true_iff in H. repeat rewrite andb_true_iff in H.
  repeat rewrite N.leb_le in H. repeat rewrite N.eqb_eq in H.
  repeat (apply orb_false_iff; split);
    try (apply andb_false_iff; rewrite !N.leb_gt; lia);
    try (apply N.eqb_neq; lia).
Qed.

Lemma strip_tag (tag : str) : forallb lang_char tag = true -> strip tag = tag.
Proof.
  intros H. rewrite forallb_forall in H. apply strip_id.
  - destruct tag as [|c tag]; [exact I|].
    apply lang_char_not_space, H. left; reflexivity.
  - destruct (rev tag) as [|c t] eqn:E; [exact I|].
    apply lang_char_not_space, H. apply in_rev. rewrite E. left; reflexivity.
Qed.

Lemma scans_total r text i : exists ms, scans r text i ms.
Proof.
  destruct (@finditer_from_total r text (length text + 2) i) as [ms H];
    try lia.
  exists ms. apply finditer_from_scans with (fuel := length text + 2). exact H.
Qed.

Lemma count_nl_firstn_app (pre t : str) :
  count_nl (firstn (length pre) (pre ++ t)) = count_nl pre.
Proof.
  rewrite firstn_app, Nat.sub_diag, firstn_all. simpl.
  rewrite app_nil_r. reflexivity.
Qed.

Lemma fence_text_length ws tag h body post :
  length (fence_text ws tag h body post)
  = 3 + length ws + length tag + length (hint_text h) + 1 + length body
    + 3 + length post.
Proof.
  unfold fence_text. repeat (rewrite length_app || simpl length). lia.
Qed.

(** The match found at a fence that is the first in its document. *)
Lemma fence_first_match pre ws tag h body post :
  has_ticks3 pre = false ->
  forallb space_or_tab ws = true -> forallb lang_char tag = true ->
  (forall n, h = Some n -> nonempty n = true /\ forallb not_newline n = true) ->
  has_ticks3 body = false -> endswith body [BACKTICK] = false ->
  let text := pre ++ fence_text ws tag h body post in
  exists m,
    match_at fence_re text (length pre) = Some m /\
    (forall q, q < length pre -> match_at fence_re text q = None) /\
    m_start m = length pre /\
    m_end m = length text - length post /\
    length pre < m_end m /\
    group m 1 = Some tag /\ group m 2 = h /\ group m 3 = Some body.
Proof.
  intros Hpre Hws Htag Hh Hbody Hend text.
  assert (Hp : find_close pre = None).
  { unfold has_ticks3 in Hpre. destruct (find_close pre); [discriminate|auto]. }
  assert (Hb : find_close body = None).
  { unfold has_ticks3 in Hbody. destruct (find_close body); [discriminate|auto]. }
  destruct (@fence_parse_shape (length pre) ws tag h body post Hws Htag Hh)
    as (st & Hst & Hpos & G1 & G2 & G3).
  { apply find_close_app_ticks; assumption. }
  exists (RMatch text (length pre) (pos st) (groups st)).
  assert (Hlen : length text = length pre + length (fence_text ws tag h body post)).
  { unfold text. apply length_app. }
  rewrite fence_text_length in Hlen.
  split; [|split; [|split; [|split; [|split; [|split; [|split]]]]]].
  - unfold match_at, text. rewrite fence_run, skipn_app_length, Hst.
    reflexivity.
  - intros q Hq. unfold text, fence_text. apply match_at_before; assumption.
  - reflexivity.
  - simpl. lia.
  - simpl. lia.
  - unfold group. cbn [m_groups m_string]. rewrite G1.
    f_equal. apply slice_eq with (x := pre ++ TICKS3 ++ ws)
      (z := hint_text h ++ NL :: body ++ TICKS3 ++ post).
    + unfold text, fence_text. repeat rewrite <- app_assoc. reflexivity.
    + repeat (rewrite length_app || simpl length). lia.
    + reflexivity.
  - unfold group. cbn [m_groups m_string]. rewrite G2.
    destruct h as [n|]; [|reflexivity].
    f_equal. apply slice_eq with (x := pre ++ TICKS3 ++ ws ++ tag ++ [COLON])
      (z := NL :: body ++ TICKS3 ++ post).
    + unfold text, fence_text. repeat rewrite <- app_assoc. reflexivity.
    + repeat (rewrite length_app || simpl length). lia.
    + simpl. lia.
  - unfold group. cbn [m_groups m_string]. rewrite G3.
    f_equal. apply slice_eq
      with (x := pre ++ TICKS3 ++ ws ++ tag ++ hint_text h ++ [NL])
           (z := TICKS3 ++ post).
    + unfold text, fence_text. repeat rewrite <- app_assoc. reflexivity.
    + repeat (rewrite length_app || simpl length). lia.
    + reflexivity.
Qed.

(** The tuple reported for such a fence, and the scan around it. *)
Lemma fence_first_block pre ws tag h body post :
  has_ticks3 pre = false ->
  forallb space_or_tab ws = true -> forallb lang_char tag = true ->
  (forall n, h = Some n -> nonempty n = true /\ forallb not_newline n = true) ->
  has_ticks3 body = false -> endswith body [BACKTICK] = false ->
  let text := pre ++ fence_text ws tag h body post in
  exists m,
    m_end m = length text - length post /\
    block_at text m
    = Block tag (match h with Some n => strip n | None => [] end) (Some body)
        (Z.of_nat (S (count_nl pre))) /\
    forall ms, scans fence_re text (m_end m) ms ->
               scans fence_re text 0 (m :: ms).
Proof.
  intros Hpre Hws Htag Hh Hbody Hend text.
  destruct (@fence_first_match pre ws tag h body post Hpre Hws Htag Hh Hbody Hend)
    as (m & Hm & Hnone & Hstart & Hmend & Hlt & G1 & G2 & G3).
  fold text in Hm, Hnone, Hmend.
  assert (Hlen : length text = length pre + length (fence_text ws tag h body post)).
  { unfold text. apply length_app. }
  exists m. split; [exact Hmend|]. split.
  - unfold block_at, group_stripped. rewrite G1, G2, G3, Hstart.
    unfold text. rewrite count_nl_firstn_app. f_equal.
    + destruct tag as [|c tag]; [reflexivity|]. apply strip_tag; exact Htag.
    + destruct h as [n|]; [|reflexivity].
      destruct n as [|c n]; [|reflexivity].
      destruct (Hh [] eq_refl) as [Hne _]. discriminate.
  - intros ms Hms.
    apply scans_skip with (n := length pre); simpl.
    + intros q Hq. apply Hnone. lia.
    + lia.
    + apply scans_hit; [lia | exact Hm |].
      unfold resume. destruct (Nat.ltb_spec (length pre) (m_end m)); [|lia].
      exact Hms.
Qed.

(** After the last delimiter nothing more is found. *)
Lemma scans_after a post i :
  has_ticks3 post = false -> length a <= i ->
  scans fence_re (a ++ post) i [].
Proof.
  intros Hpost Hi.
  assert (Hp : find_close post = None).
  { unfold has_ticks3 in Hpost. destruct (find_close post); [discriminate|auto]. }
  destruct (Nat.le_gt_cases i (length (a ++ post))) as [Hle|Hgt].
  - apply scans_skip with (n := S (length (a ++ post)) - i).
    + intros q Hq. apply match_at_after; [exact Hp | lia].
    + lia.
    + apply scans_end. lia.
  - apply scans_end. exact Hgt.
Qed.

End CodeBlocks.

(** * Tables *)

Section Tables.

Lemma skipn_nth_error {A : Type} (l : list A) (i : nat) (x : A) :
  nth_error l i = Some x -> skipn i l = x :: skipn (S i) l.
Proof.
  revert i; induction l as [|y l IH]; intros i H.
  - destruct i; discriminate.
  - destruct i as [|i]; simpl in *; [congruence|]. apply IH; exact H.
Qed.

Lemma nth_error_lt {A : Type} (l : list A) (i : nat) :
  i < length l -> exists x, nth_error l i = Some x.
Proof.
  intros H. destruct (nth_error l i) eqn:E; [eauto|].
  apply nth_error_None in E. lia.
Qed.

Lemma collect_run_spec lines : forall fuel i raw,
  length lines - i < fuel ->
  collect_run fuel lines i raw
  = Some (i + run_lines (skipn i lines),
          raw ++ map strip (firstn (run_lines (skipn i lines)) (skipn i lines))).
Proof.
  induction fuel as [|fuel IH]; intros i raw Hf; [lia|]. simpl.
  destruct (Nat.ltb_spec i (length lines)) as [Hi|Hi].
  - destruct (nth_error_lt lines Hi) as [li Hli]. rewrite Hli. simpl.
    rewrite (skipn_nth_error _ _ Hli). simpl. fold (table_line li).
    destruct (table_line li); simpl.
    + rewrite IH by lia. rewrite <- app_assoc. simpl.
      f_equal. f_equal. lia.
    + rewrite Nat.add_0_r, app_nil_r. reflexivity.
  - rewrite skipn_all2 by lia. simpl.
    rewrite Nat.add_0_r, app_nil_r. reflexivity.
Qed.

(** Reading a run to its end closes it there. *)
Lemma walk_run ls : forall i first raw,
  walk i ls (Some (first, raw))
  = close_run
      (Some (first, raw ++ map strip (firstn (run_lines ls) ls)))
      (i + run_lines ls)
    ++ walk (i + run_lines ls) (skipn (run_lines ls) ls) None.
Proof.
  induction ls as [|l ls IH]; intros i first raw.
  - simpl. rewrite !app_nil_r, Nat.add_0_r. reflexivity.
  - cbn [walk run_lines]. destruct (table_line l) eqn:T.
    + cbn [extend_run firstn skipn map]. rewrite IH.
      rewrite <- app_assoc. cbn [app].
      replace (S i + run_lines ls) with (i + S (run_lines ls)) by lia.
      reflexivity.
    + cbn [firstn skipn map walk]. rewrite T, app_nil_r, Nat.add_0_r.
      reflexivity.
Qed.

(** The outer loop appends exactly the tables of the one-pass reading. *)
Lemma scan_tables_walk lines : forall fuel i tables,
  length lines - i < fuel ->
  scan_tables fuel lines i tables
  = Some (tables ++ walk i (skipn i lines) None).
Proof.
  induction fuel as [|fuel IH]; intros i tables Hf; [lia|].
  cbn [scan_tables].
  destruct (Nat.ltb_spec i (length lines)) as [Hi|Hi].
  - destruct (nth_error_lt lines Hi) as [li Hli]. rewrite Hli. cbn [bind].
    fold (table_line li). destruct (table_line li) eqn:T.
    + rewrite collect_run_spec by lia. cbn [bind].
      rewrite (skipn_nth_error _ _ Hli).
      assert (Hskip : forall n, skipn n (skipn (S i) lines)
                                = skipn (i + S n) lines).
      { intros n. rewrite skipn_skipn. f_equal. lia. }
      remember (skipn (S i) lines) as rest eqn:Hrest.
      cbn [run_lines walk]. rewrite T.
      cbn [extend_run firstn map app]. rewrite walk_run.
      cbn [app close_run]. rewrite Hskip.
      replace (S i + run_lines rest) with (i + S (run_lines rest)) by lia.
      destruct (rows_of (strip li :: map strip (firstn (run_lines rest) rest)))
        as [|row rows] eqn:R.
      * rewrite IH by lia. reflexivity.
      * rewrite IH by lia. rewrite <- app_assoc. reflexivity.
    + rewrite IH by lia. rewrite (skipn_nth_error _ _ Hli).
      cbn [walk]. rewrite T. reflexivity.
  - rewrite skipn_all2 by lia. cbn [walk close_run]. rewrite app_nil_r.
    reflexivity.
Qed.

Lemma table_occurrences_walk text :
  table_occurrences text = Some (walk 0 (splitlines text) None).
Proof.
  unfold table_occurrences. rewrite scan_tables_walk by lia. reflexivity.
Qed.

Lemma extract_tables_walk text :
  extract_tables text
  = Some (map occ_rows (walk 0 (splitlines text) None)).
Proof.
  unfold extract_tables. rewrite table_occurrences_walk. reflexivity.
Qed.

Lemma firstn_S_nth_error {A : Type} (l : list A) (n : nat) (x : A) :
  nth_error l n = Some x -> firstn (S n) l = firstn n l ++ [x].
Proof.
  revert n; induction l as [|y l IH]; intros n H.
  - destruct n; discriminate.
  - destruct n as [|n]; simpl in *; [congruence|]. f_equal. apply IH; exact H.
Qed.

Lemma run_text_snoc lines first i l :
  first <= i -> nth_error lines i = Some l ->
  run_text lines first (S i) = run_text lines first i ++ [strip l].
Proof.
  intros Hle Hl. unfold run_text, slice.
  replace (S i - first) with (S (i - first)) by lia.
  rewrite (@firstn_S_nth_error _ _ _ l), map_app; [reflexivity|].
  rewrite nth_error_skipn. replace (first + (i - first)) with i by lia.
  exact Hl.
Qed.

Lemma run_text_one lines i l :
  nth_error lines i = Some l -> run_text lines i (S i) = [strip l].
Proof.
  intros Hl. rewrite (@run_text_snoc lines i i l) by auto.
  unfold run_text, slice. rewrite Nat.sub_diag. reflexivity.
Qed.

Lemma nth_error_mid {A : Type} (pre : list A) (l : A) (ls : list A) :
  nth_error (pre ++ l :: ls) (length pre) = Some l.
Proof. rewrite nth_error_app2, Nat.sub_diag by lia. reflexivity. Qed.

Lemma close_run_good lines i cur :
  cur_ok lines i cur -> i <= length lines -> line_is_table lines i = false ->
  Forall (good_occ lines) (close_run cur i).
Proof.
  intros Hc Hi Hn. destruct cur as [[first raw]|]; [|constructor].
  destruct Hc as (Hlt & -> & Hall & Hleft). unfold close_run.
  destruct (rows_of (run_text lines first i)) as [|row rows] eqn:R;
    constructor; [|constructor].
  unfold good_occ, maximal_run. cbn [occ_first occ_stop occ_rows].
  rewrite R. repeat split; auto. discriminate.
Qed.

(** Every table of the one-pass reading is a maximal run with its
    surviving rows. *)
Lemma walk_good lines : forall ls pre cur,
  lines = pre ++ ls -> cur_ok lines (length pre) cur ->
  Forall (good_occ lines) (walk (length pre) ls cur).
Proof.
  induction ls as [|l ls IH]; intros pre cur Hlines Hc.
  - cbn [walk]. apply close_run_good; auto.
    + subst lines. rewrite app_nil_r. lia.
    + unfold line_is_table.
      replace (nth_error lines (length pre)) with (@None str); [reflexivity|].
      symmetry. apply nth_error_None. subst lines. rewrite app_nil_r. lia.
  - assert (Hl : nth_error lines (length pre) = Some l).
    { subst lines. apply nth_error_mid. }
    assert (Hlines' : lines = (pre ++ [l]) ++ ls).
    { subst lines. rewrite <- app_assoc. reflexivity. }
    assert (Hlen : length (pre ++ [l]) = S (length pre)).
    { rewrite length_app. simpl. lia. }
    cbn [walk]. destruct (table_line l) eqn:T.
    + rewrite <- Hlen. apply IH; [exact Hlines'|]. rewrite Hlen.
      destruct cur as [[first raw]|]; cbn [extend_run cur_ok] in *.
      * destruct Hc as (Hlt & -> & Hall & Hleft).
        repeat split; auto.
        -- symmetry. apply run_text_snoc; [lia | exact Hl].
        -- intros j Hj. destruct (Nat.eq_dec j (length pre)) as [->|Hne].
           ++ unfold line_is_table. rewrite Hl. exact T.
           ++ apply Hall. lia.
      * repeat split; auto.
        -- symmetry. apply run_text_one; exact Hl.
        -- intros j Hj. replace j with (length pre) by lia.
           unfold line_is_table. rewrite Hl. exact T.
    + apply Forall_app. split.
      * apply close_run_good; auto.
        -- subst lines. rewrite length_app. lia.
        -- unfold line_is_table. rewrite Hl. exact T.
      * rewrite <- Hlen. apply IH; [exact Hlines'|]. rewrite Hlen.
        cbn [cur_ok]. right. simpl. rewrite Nat.sub_0_r.
        unfold line_is_table. rewrite Hl. exact T.
Qed.

Lemma ordered_weaken lo lo' occs :
  lo' <= lo -> ordered lo occs -> ordered lo' occs.
Proof.
  destruct occs as [|o os]; simpl; [auto|].
  intros H (H1 & H2 & H3). repeat split; auto. lia.
Qed.

Lemma walk_ordered : forall ls i cur,
  (forall first raw, cur = Some (first, raw) -> first < i) ->
  ordered (match cur with Some (first, _) => first | None => i end)
    (walk i ls cur).
Proof.
  induction ls as [|l ls IH]; intros i cur Hc.
  - cbn [walk]. destruct cur as [[first raw]|]; simpl; [|exact I].
    destruct (rows_of raw); simpl; [exact I|].
    repeat split; auto. apply (Hc first raw eq_refl).
  - cbn [walk]. destruct (table_line l).
    + destruct cur as [[first raw]|]; cbn [extend_run].
      * apply (IH (S i) (Some (first, raw ++ [strip l]))).
        intros f r H; injection H as <- <-.
        specialize (Hc first raw eq_refl). lia.
      * apply (IH (S i) (Some (i, [strip l]))).
        intros f r H; injection H as <- <-. lia.
    + specialize (IH (S i) None ltac:(discriminate)). cbn iota in IH.
      destruct cur as [[first raw]|]; simpl.
      * specialize (Hc first raw eq_refl).
        destruct (rows_of raw); simpl.
        -- apply ordered_weaken with (lo := S i); [lia | exact IH].
        -- repeat split; auto.
      * apply ordered_weaken with (lo := S i); [lia | exact IH].
Qed.

Lemma cur_ok_extend lines pre l ls cur :
  lines = pre ++ l :: ls -> table_line l = true ->
  cur_ok lines (length pre) cur ->
  cur_ok lines (S (length pre)) (extend_run cur (length pre) (strip l)).
Proof.
  intros Hlines T Hc.
  assert (Hl : nth_error lines (length pre) = Some l).
  { subst lines. apply nth_error_mid. }
  destruct cur as [[first raw]|]; cbn [extend_run cur_ok] in *.
  - destruct Hc as (Hlt & -> & Hall & Hleft).
    repeat split; auto.
    + symmetry. apply run_text_snoc; [lia | exact Hl].
    + intros j Hj. destruct (Nat.eq_dec j (length pre)) as [->|Hne].
      * unfold line_is_table. rewrite Hl. exact T.
      * apply Hall. lia.
  - repeat split; auto.
    + symmetry. apply run_text_one; exact Hl.
    + intros j Hj. replace j with (length pre) by lia.
      unfold line_is_table. rewrite Hl. exact T.
Qed.

Lemma cur_ok_gap lines pre l ls :
  lines = pre ++ l :: ls -> table_line l = false ->
  cur_ok lines (S (length pre)) None.
Proof.
  intros Hlines T. cbn [cur_ok]. right. simpl. rewrite Nat.sub_0_r.
  unfold line_is_table. subst lines. rewrite nth_error_mid. exact T.
Qed.

Lemma in_run_text lines first i j l :
  first <= j < i -> nth_error lines j = Some l ->
  In (strip l) (run_text lines first i).
Proof.
  intros Hj Hl. unfold run_text, slice. apply in_map.
  apply nth_error_In with (n := j - first).
  rewrite nth_error_firstn.
  destruct (Nat.ltb_spec (j - first) (i - first)); [|lia].
  rewrite nth_error_skipn. replace (first + (j - first)) with j by lia.
  exact Hl.
Qed.

Lemma rows_of_survivor raw r :
  In r raw -> is_some (re_match sep_re r) = false -> rows_of raw <> [].
Proof.
  intros Hin Hr. unfold rows_of.
  assert (H : In r (filter (fun r => negb (is_some (re_match sep_re r))) raw)).
  { apply filter_In. split; [exact Hin|]. rewrite Hr. reflexivity. }
  destruct (filter _ raw); [destruct H | discriminate].
Qed.

(** Every candidate line that is not a separator row is inside the run of
    some table. *)
Lemma walk_covers lines : forall ls pre cur,
  lines = pre ++ ls -> cur_ok lines (length pre) cur ->
  forall j l,
    nth_error lines j = Some l -> table_line l = true ->
    is_some (re_match sep_re (strip l)) = false ->
    (length pre <= j \/ exists first raw, cur = Some (first, raw) /\ first <= j) ->
    exists o, In o (walk (length pre) ls cur) /\
              occ_first o <= j < occ_stop o.
Proof.
  assert (Hclose : forall i first raw j l,
    cur_ok lines i (Some (first, raw)) ->
    nth_error lines j = Some l ->
    is_some (re_match sep_re (strip l)) = false ->
    first <= j < i ->
    exists o, In o (close_run (Some (first, raw)) i) /\
              occ_first o <= j < occ_stop o).
  { intros i first raw j l (Hlt & -> & _) Hl Hs Hj. unfold close_run.
    destruct (rows_of (run_text lines first i)) as [|row rows] eqn:R.
    - exfalso. eapply rows_of_survivor; [|exact Hs|exact R].
      apply in_run_text with (j := j); auto.
    - eexists. split; [left; reflexivity|]. simpl. lia. }
  induction ls as [|l0 ls IH]; intros pre cur Hlines Hc j l Hl T Hs Hj.
  - cbn [walk].
    assert (Hlt : j < length pre).
    { assert (Hn : nth_error lines j <> None) by congruence.
      apply nth_error_Some in Hn. subst lines.
      rewrite app_nil_r in Hn. exact Hn. }
    destruct Hj as [Hj | (first & raw & -> & Hj)]; [lia|].
    apply Hclose with (l := l); auto.
  - assert (Hl0 : nth_error lines (length pre) = Some l0).
    { subst lines. apply nth_error_mid. }
    assert (Hlines' : lines = (pre ++ [l0]) ++ ls).
    { subst lines. rewrite <- app_assoc. reflexivity. }
    assert (Hlen : length (pre ++ [l0]) = S (length pre)).
    { rewrite length_app. simpl. lia. }
    cbn [walk]. destruct (table_line l0) eqn:T0.
    + rewrite <- Hlen.
      apply IH with (l := l); auto.
      * rewrite Hlen. eapply cur_ok_extend; eauto.
      * rewrite Hlen.
        destruct Hj as [Hj | (first & raw & -> & Hj)].
        -- destruct (Nat.eq_dec j (length pre)) as [->|Hne]; [|left; lia].
           right. destruct cur as [[first raw]|]; cbn [extend_run].
           ++ destruct Hc as (Hlt & _). eexists _, _. split; [reflexivity|lia].
           ++ eexists _, _. split; [reflexivity|lia].
        -- right. cbn [extend_run]. eexists _, _. split; [reflexivity|lia].
    + destruct (Nat.lt_ge_cases j (length pre)) as [Hlt|Hge].
      * destruct Hj as [Hj | (first & raw & -> & Hj)]; [lia|].
        destruct (@Hclose (length pre) first raw j l) as (o & Ho & Hr); auto.
        exists o. split; [apply in_or_app; left; exact Ho | exact Hr].
      * assert (Hne : j <> length pre).
        { intros ->. rewrite Hl0 in Hl. injection Hl as ->. congruence. }
        destruct (IH (pre ++ [l0]) None Hlines') with (j := j) (l := l)
          as (o & Ho & Hr); auto.
        -- rewrite Hlen. eapply cur_ok_gap; eauto.
        -- left. rewrite Hlen. lia.
        -- exists o. split; [|exact Hr]. apply in_or_app; right.
           rewrite <- Hlen. exact Ho.
Qed.

(** Two maximal runs that share a line are the same run. *)
Lemma maximal_run_unique lines a b a' b' j :
  maximal_run lines a b -> maximal_run lines a' b' ->
  a <= j < b -> a' <= j < b' -> a = a' /\ b = b'.
Proof.
  intros (H1 & Hall & Hleft & Hright) (H1' & Hall' & Hleft' & Hright') Hj Hj'.
  split.
  - destruct (Nat.lt_trichotomy a a') as [Hlt|[Heq|Hgt]]; [|exact Heq|].
    + destruct Hleft' as [->|Hn]; [lia|].
      rewrite Hall in Hn by lia. discriminate.
    + destruct Hleft as [->|Hn]; [lia|].
      rewrite Hall' in Hn by lia. discriminate.
  - destruct (Nat.lt_trichotomy b b') as [Hlt|[Heq|Hgt]]; [|exact Heq|].
    + rewrite Hall' in Hright by lia. discriminate.
    + rewrite Hall in Hright' by lia. discriminate.
Qed.

(** The grids do not depend on where the numbering starts. *)
Lemma walk_rows_shift : forall ls i i' cur cur',
  option_map snd cur = option_map snd cur' ->
  map occ_rows (walk i ls cur) = map occ_rows (walk i' ls cur').
Proof.
  assert (Hclose : forall i i' (cur cur' : option (nat * list str)),
    option_map snd cur = option_map snd cur' ->
    map occ_rows (close_run cur i) = map occ_rows (close_run cur' i')).
  { intros i i' [[f raw]|] [[f' raw']|] H; simpl in H; try discriminate;
      [|reflexivity].
    injection H as ->. simpl. destruct (rows_of raw'); reflexivity. }
  induction ls as [|l ls IH]; intros i i' cur cur' H.
  - apply Hclose; exact H.
  - cbn [walk]. destruct (table_line l).
    + apply IH. destruct cur as [[f raw]|], cur' as [[f' raw']|];
        simpl in H; try discriminate; [|reflexivity].
      injection H as ->. reflexivity.
    + rewrite !map_app. f_equal; [apply Hclose; exact H | apply IH; reflexivity].
Qed.

(** A line that is not a candidate separates the tables before it from
    the tables after it. *)
Lemma walk_app_gap b ls2 : forall ls1 i cur,
  table_line b = false ->
  map occ_rows (walk i (ls1 ++ b :: ls2) cur)
  = map occ_rows (walk i ls1 cur) ++ map occ_rows (walk 0 ls2 None).
Proof.
  intros ls1 i cur Hb. revert i cur.
  induction ls1 as [|l ls1 IH]; intros i cur.
  - cbn [app walk]. rewrite Hb, map_app. f_equal.
    apply walk_rows_shift; reflexivity.
  - cbn [app walk]. destruct (table_line l).
    + apply IH.
    + rewrite !map_app, IH, app_assoc. reflexivity.
Qed.

Lemma table_line_blank : table_line [] = false.
Proof. reflexivity. Qed.

(** The lines of two documents joined by a blank line. *)
Lemma splitlines_from_blank B : forall A f cur,
  (f = true -> cur = []) ->
  exists k, (k = 1 \/ k = 2) /\
    splitlines_from f cur (A ++ NL :: NL :: B)
    = splitlines_from f cur A ++ repeat [] k ++ splitlines B.
Proof.
  induction A as [|c A IH]; intros f cur Hf.
  - cbn [app splitlines_from]. rewrite N.eqb_refl, andb_true_r.
    change (is_linebreak NL) with true. change (N.eqb NL CR) with false.
    destruct f.
    + rewrite (Hf eq_refl). exists 1. split; [auto|]. reflexivity.
    + cbn [andb]. destruct cur as [|x cur].
      * exists 2. split; [auto|]. reflexivity.
      * exists 1. split; [auto|]. reflexivity.
  - cbn [app splitlines_from].
    destruct (f && N.eqb c NL).
    + apply IH. discriminate.
    + destruct (is_linebreak c).
      * destruct (IH (N.eqb c CR) [] ltac:(reflexivity)) as (k & Hk & ->).
        exists k. split; [exact Hk | reflexivity].
      * apply IH. discriminate.
Qed.

Lemma splitlines_blank A B :
  exists k, (k = 1 \/ k = 2) /\
    splitlines (A ++ NL :: NL :: B)
    = splitlines A ++ repeat [] k ++ splitlines B.
Proof. apply splitlines_from_blank. discriminate. Qed.

(** Two documents joined by a blank line give the tables of the first
    followed by the tables of the second. *)
Lemma extract_tables_blank A B ta tb :
  extract_tables A = Some ta -> extract_tables B = Some tb ->
  extract_tables (A ++ NL :: NL :: B) = Some (ta ++ tb).
Proof.
  rewrite !extract_tables_walk. intros Ha Hb.
  injection Ha as <-. injection Hb as <-. f_equal.
  destruct (splitlines_blank A B) as (k & [->| ->] & ->); cbn [repeat app].
  - apply walk_app_gap. reflexivity.
  - rewrite walk_app_gap by reflexivity. f_equal.
    cbn [walk]. rewrite table_line_blank. cbn [close_run app].
    apply walk_rows_shift; reflexivity.
Qed.

End Tables.

(** * Cells *)

Section Cells.

Lemma split_nonempty sep s : split sep s <> [].
Proof.
  destruct s as [|c s]; simpl; [discriminate|].
  destruct (N.eqb c sep); [discriminate|].
  destruct (split sep s); discriminate.
Qed.

Lemma cells_of_nonempty r : cells_of r <> [].
Proof.
  unfold cells_of.
  destruct (split PIPE (strip_chars (lit "|") r)) eqn:E; [|discriminate].
  exfalso. apply (split_nonempty _ _ E).
Qed.

Lemma join_split sep s : join [sep] (split sep s) = s.
Proof.
  induction s as [|c s IH]; [reflexivity|]. simpl split.
  destruct (N.eqb_spec c sep) as [->|Hne].
  - pose proof (@split_nonempty sep s) as Hs.
    cbn [join]. destruct (split sep s) as [|cell cells]; [congruence|].
    rewrite IH. reflexivity.
  - destruct (split sep s) as [|cell cells] eqn:E.
    + exfalso. apply (split_nonempty _ _ E).
    + cbn [join] in *. destruct cells as [|cell' cells].
      * rewrite <- IH. reflexivity.
      * rewrite <- IH. reflexivity.
Qed.

Lemma squeeze_app a b : squeeze (a ++ b) = squeeze a ++ squeeze b.
Proof. apply filter_app. Qed.

Lemma squeeze_dropwhile s : squeeze (dropwhile is_space s) = squeeze s.
Proof.
  induction s as [|c s IH]; [reflexivity|]. simpl.
  destruct (is_space c) eqn:E; simpl; [exact IH | rewrite E; reflexivity].
Qed.

Lemma squeeze_strip s : squeeze (strip s) = squeeze s.
Proof.
  unfold strip, rstrip_with, lstrip_with, squeeze.
  rewrite filter_rev. fold (squeeze (dropwhile is_space (rev (dropwhile is_space s)))).
  rewrite squeeze_dropwhile. unfold squeeze.
  rewrite filter_rev, rev_involutive. apply squeeze_dropwhile.
Qed.

Lemma squeeze_join cells :
  squeeze (join (lit " | ") (map strip cells)) = squeeze (join [PIPE] cells).
Proof.
  induction cells as [|c cells IH]; [reflexivity|].
  destruct cells as [|c' cells].
  - apply squeeze_strip.
  - change (join (lit " | ") (map strip (c :: c' :: cells)))
      with (strip c ++ lit " | " ++ join (lit " | ") (map strip (c' :: cells))).
    change (join [PIPE] (c :: c' :: cells))
      with (c ++ [PIPE] ++ join [PIPE] (c' :: cells)).
    rewrite !squeeze_app, IH, squeeze_strip. reflexivity.
Qed.

(** Re-joining the cells of a line gives back, up to whitespace, the line
    between its outer pipes, inside one pipe on each side. *)
Lemma squeeze_rejoin_cells r :
  squeeze (rejoin (cells_of r))
  = PIPE :: squeeze (strip_chars (lit "|") r) ++ [PIPE].
Proof.
  unfold rejoin, cells_of.
  rewrite !squeeze_app, squeeze_join, join_split. reflexivity.
Qed.

Lemma dropwhile_repeat p c n (t : str) :
  p c = true -> dropwhile p (repeat c n ++ t) = dropwhile p t.
Proof. intros Hc. induction n; simpl; [reflexivity|]. rewrite Hc. exact IHn. Qed.

(** [strip("|")] removes every leading and every trailing pipe. *)
Lemma strip_pipes_core a b core :
  pipe_free_ends core = true ->
  strip_chars (lit "|") (repeat PIPE a ++ core ++ repeat PIPE b) = core.
Proof.
  unfold pipe_free_ends. intros H. apply andb_true_iff in H as [H1 H2].
  apply negb_true_iff in H1, H2.
  unfold strip_chars, lstrip_with, rstrip_with.
  set (p := fun c => existsb (N.eqb c) (lit "|")).
  assert (Hp : p PIPE = true) by reflexivity.
  assert (Hnp : forall c, N.eqb c PIPE = false -> p c = false).
  { intros c Hc. unfold p. change (lit "|") with [PIPE].
    cbn [existsb]. rewrite Hc. reflexivity. }
  rewrite dropwhile_repeat by exact Hp.
  destruct core as [|c core].
  - simpl app. rewrite <- (app_nil_r (repeat PIPE b)).
    rewrite dropwhile_repeat by exact Hp. reflexivity.
  - cbn [startswith] in H1. rewrite andb_true_r in H1.
    cbn [app dropwhile]. rewrite (Hnp c H1).
    change (c :: core ++ repeat PIPE b) with ((c :: core) ++ repeat PIPE b).
    rewrite rev_app_distr, rev_repeat, dropwhile_repeat by exact Hp.
    unfold endswith in H2.
    destruct (rev (c :: core)) as [|x t] eqn:E.
    + simpl in E. destruct (rev core); discriminate.
    + change (rev [PIPE]) with [PIPE] in H2.
      cbn [startswith] in H2. rewrite andb_true_r in H2.
      cbn [dropwhile]. rewrite (Hnp x H2).
      rewrite <- E. apply rev_involutive.
Qed.

(** On a line with exactly one pipe at each end, the source's cells are
    the specification's. *)
Lemma cells_of_single_pipes core :
  pipe_free_ends core = true ->
  cells_of (PIPE :: core ++ [PIPE]) = cells_spec (PIPE :: core ++ [PIPE]).
Proof.
  intros H. unfold cells_of, cells_spec.
  change (PIPE :: core ++ [PIPE])
    with (repeat PIPE 1 ++ core ++ repeat PIPE 1) at 1.
  rewrite (@strip_pipes_core 1 1 core H). do 2 f_equal.
  unfold strip_one_pipe. rewrite N.eqb_refl, rev_app_distr. simpl.
  symmetry. apply rev_involutive.
Qed.

End Cells.

(** * Further facts used by the main theorems *)

Section MoreFacts.

Lemma In_starts_from (v : Z) : forall s i,
  In v (starts_from i s) <->
  exists j, nth_error s j = Some NL /\ v = (i + Z.of_nat j + 1)%Z.
Proof.
  induction s as [|c s IH]; intros i; simpl.
  - split; [intros [] | intros (j & Hj & _); destruct j; discriminate].
  - assert (Hshift : (exists j, nth_error s j = Some NL /\
                                v = (i + 1 + Z.of_nat j + 1)%Z) <->
                     (exists j, nth_error (c :: s) (S j) = Some NL /\
                                v = (i + Z.of_nat (S j) + 1)%Z)).
    { split; intros (j & Hj & ->); exists j; split; auto; lia. }
    destruct (N.eqb_spec c NL) as [->|Hne].
    + simpl. rewrite IH, Hshift. split.
      * intros [<- | (j & Hj & ->)]; [exists 0%nat; split; [reflexivity|lia]|].
        exists (S j); auto.
      * intros ([|j] & Hj & ->); [left; lia | right; exists j; auto].
    + rewrite IH, Hshift. split.
      * intros (j & Hj & ->). exists (S j); auto.
      * intros ([|j] & Hj & ->); [simpl in Hj; congruence | exists j; auto].
Qed.

(** The precomputed list holds offset 0 and the offset right after every
    newline, and nothing else. *)
Lemma In_line_starts text (v : Z) :
  In v (build_line_starts text) <->
  v = 0%Z \/ exists j, nth_error text j = Some NL /\ v = (Z.of_nat j + 1)%Z.
Proof.
  rewrite build_line_starts_eq. simpl. rewrite In_starts_from.
  split; (intros [H|H]; [left; auto | right; exact H]).
Qed.

Lemma count_nl_app a b : count_nl (a ++ b) = count_nl a + count_nl b.
Proof. unfold count_nl. rewrite filter_app, length_app. reflexivity. Qed.

Lemma run_text_in lines a b r :
  In r (run_text lines a b) ->
  exists j l, a <= j < b /\ nth_error lines j = Some l /\ r = strip l.
Proof.
  unfold run_text, slice. intros H. apply in_map_iff in H as (l & <- & Hl).
  apply In_nth_error in Hl as [n Hn]. rewrite nth_error_firstn in Hn.
  destruct (Nat.ltb_spec n (b - a)); [|discriminate].
  rewrite nth_error_skipn in Hn. exists (a + n), l. repeat split; auto; lia.
Qed.

Lemma is_table_line_nonempty r : is_table_line r = true -> nonempty r = true.
Proof. destruct r; [discriminate | reflexivity]. Qed.

(** On the lines of a run the pattern is the character test. *)
Lemma run_filter_sep lines a b :
  (forall j, a <= j < b -> line_is_table lines j = true) ->
  filter (fun r => negb (is_some (re_match sep_re r))) (run_text lines a b)
  = filter (fun r => negb (separator_like r)) (run_text lines a b).
Proof.
  intros Hall. apply filter_ext_in. intros r Hr.
  apply run_text_in in Hr as (j & l & Hj & Hl & ->).
  specialize (Hall j Hj). unfold line_is_table in Hall. rewrite Hl in Hall.
  rewrite sep_re_spec, (is_table_line_nonempty _ Hall). reflexivity.
Qed.

Lemma rows_of_all_separators raw :
  forallb (fun r => nonempty r && separator_like r) raw = true ->
  rows_of raw = [].
Proof.
  intros H. unfold rows_of.
  replace (filter _ raw) with (@nil str); [reflexivity|].
  symmetry. induction raw as [|r raw IH]; [reflexivity|].
  simpl in *. apply andb_true_iff in H as [Hr H].
  rewrite sep_re_spec, Hr. simpl. apply IH; exact H.
Qed.

Lemma rows_of_drop_separator before r after :
  nonempty r && separator_like r = true ->
  rows_of (before ++ r :: after) = rows_of (before ++ after).
Proof.
  intros H. unfold rows_of. rewrite !filter_app. simpl.
  rewrite sep_re_spec, H. reflexivity.
Qed.

Lemma ordered_first_ge lo occs o :
  ordered lo occs -> In o occs -> lo <= occ_first o.
Proof.
  revert lo; induction occs as [|o' os IH]; intros lo H Hin; [destruct Hin|].
  destruct H as (H1 & H2 & H3). destruct Hin as [->|Hin]; [exact H1|].
  specialize (IH _ H3 Hin). lia.
Qed.

(** In an ordered list an earlier table ends before a later one starts. *)
Lemma ordered_pairwise occs : forall lo i j oi oj,
  ordered lo occs -> i < j ->
  nth_error occs i = Some oi -> nth_error occs j = Some oj ->
  occ_stop oi < occ_first oj.
Proof.
  induction occs as [|o os IH]; intros lo i j oi oj H Hij Hi Hj.
  - destruct i; discriminate.
  - destruct H as (H1 & H2 & H3). destruct j as [|j]; [lia|].
    simpl in Hj. destruct i as [|i].
    + simpl in Hi. injection Hi as <-.
      apply nth_error_In in Hj.
      pose proof (@ordered_first_ge _ _ _ H3 Hj). lia.
    + simpl in Hi. apply (IH (S (occ_stop o)) i j); auto. lia.
Qed.

Lemma tail_no_ticks c s : find_close (c :: s) = None -> find_close s = None.
Proof. intros H. apply (@find_close_skipn_none (c :: s) 1 H). Qed.

(** Without a closing delimiter after it, an opening matches nothing. *)
Lemma fence_parse_no_closer i s :
  find_close (skipn 3 s) = None -> fence_parse i s = None.
Proof.
  intros H. unfold fence_parse.
  destruct (startswith s TICKS3); [|reflexivity]. cbv zeta.
  set (s1 := skipn 3 s) in *.
  set (s2 := skipn (run_len space_or_tab s1) s1).
  assert (H2 : find_close s2 = None) by (apply find_close_skipn_none; exact H).
  assert (H3 : find_close (skipn (run_len lang_char s2) s2) = None)
    by (apply find_close_skipn_none; exact H2).
  destruct (skipn (run_len lang_char s2) s2) as [|c s4]; [reflexivity|].
  apply tail_no_ticks in H3.
  destruct (N.eqb c NL).
  - unfold fence_close. rewrite H3. reflexivity.
  - destruct (N.eqb c COLON); [|reflexivity].
    destruct s4 as [|c2 s4']; [reflexivity|].
    destruct (not_newline c2); [|reflexivity].
    apply tail_no_ticks in H3.
    assert (H5 : find_close (skipn (run_len not_newline s4') s4') = None)
      by (apply find_close_skipn_none; exact H3).
    destruct (skipn (run_len not_newline s4') s4') as [|c3 s5]; [reflexivity|].
    apply tail_no_ticks in H5.
    unfold fence_close. rewrite H5. reflexivity.
Qed.

Lemma match_at_no_closer text q :
  has_ticks3 (skipn (q + 3) text) = false -> match_at fence_re text q = None.
Proof.
  intros H. unfold match_at. rewrite fence_run, fence_parse_no_closer.
  - reflexivity.
  - rewrite skipn_skipn, Nat.add_comm. unfold has_ticks3 in H.
    destruct (find_close (skipn (q + 3) text)); [discriminate | reflexivity].
Qed.

End MoreFacts.

(** * The claims of the specification *)

Lemma lit_ticks3 : lit "```" = TICKS3.
Proof. reflexivity. Qed.

Lemma has_ticks3_false s : has_ticks3 s = false -> find_close s = None.
Proof. unfold has_ticks3. destruct (find_close s); [discriminate | auto]. Qed.

Lemma has_ticks3_snoc_nl body :
  has_ticks3 body = false -> has_ticks3 (body ++ [NL]) = false.
Proof.
  intros H. apply has_ticks3_false in H. unfold has_ticks3.
  rewrite find_close_snoc_nl; auto.
Qed.

Lemma fence_text_split pre ws tag h body post :
  pre ++ fence_text ws tag h body post
  = (pre ++ fence_text ws tag h body []) ++ post.
Proof.
  unfold fence_text. rewrite app_nil_r.
  repeat (rewrite <- app_assoc || rewrite <- app_comm_cons). reflexivity.
Qed.

(** C1.  A document with exactly one well-formed fence
    [```tag:name NEWLINE body NEWLINE ```] (no other triple backtick before,
    inside or after it; [tag] in the tag character set; [name] non-empty,
    on one line, without surrounding whitespace) yields exactly one block:
    language [tag], filename hint [name], code [body] with its final
    newline, and the line number of the opening delimiter, which is one
    more than the number of newlines before it. *)
Theorem C1_single_fence (pre tag name body post : str) :
  has_ticks3 pre = false -> has_ticks3 body = false ->
  has_ticks3 post = false ->
  forallb lang_char tag = true ->
  nonempty name = true -> forallb not_newline name = true ->
  strip name = name ->
  extract_code_blocks
    (pre ++ lit "```" ++ tag ++ lit ":" ++ name ++ [NL]
     ++ body ++ [NL] ++ lit "```" ++ post)
  = Some [Block tag name (Some (body ++ [NL])) (Z.of_nat (S (count_nl pre)))].
Proof.
  intros Hpre Hbody Hpost Htag Hne Hnn Hstrip.
  set (text := pre ++ _).
  assert (Htext : text = pre ++ fence_text [] tag (Some name) (body ++ [NL]) post).
  { unfold text, fence_text. rewrite lit_ticks3. cbn [hint_text].
    change (lit ":") with [COLON]. cbn [app].
    repeat rewrite <- app_assoc. reflexivity. }
  destruct (@fence_first_block pre [] tag (Some name) (body ++ [NL]) post)
    as (m & Hend & Hblock & Hscan); auto.
  { intros n Hn; injection Hn as <-. auto. }
  { apply has_ticks3_snoc_nl; exact Hbody. }
  { apply endswith_snoc_nl. }
  rewrite <- Htext in Hend, Hblock, Hscan.
  apply extract_code_blocks_scans. exists [m]. split.
  - apply Hscan. rewrite Hend, Htext, fence_text_split.
    apply scans_after; [exact Hpost|]. rewrite !length_app. lia.
  - simpl. rewrite Hblock, Hstrip. reflexivity.
Qed.

(** C1 on a fence opening on the second line of a document. *)
Lemma C1_single_fence_witness :
  extract_code_blocks
    (c1_pre ++ lit "```" ++ lit "py" ++ lit ":" ++ lit "x.py" ++ [NL]
     ++ lit "print(1)" ++ [NL] ++ lit "```" ++ c1_post)
  = Some [Block (lit "py") (lit "x.py") (Some (lit "print(1)" ++ [NL])) 2%Z].
Proof.
  apply (@C1_single_fence c1_pre (lit "py") (lit "x.py") (lit "print(1)")
           c1_post); reflexivity.
Defined.

(** C2.  The list of line starts holds offset 0 and the offset right after
    every newline, in increasing order.  For an offset inside the text the
    binary search returns the 1-based index of the greatest line start that
    is at most the offset, which is one more than the number of newlines
    before the offset; so an offset on the first line gives 1 and an offset
    on the last line gives the number of lines. *)
Theorem C2_offset_to_line (text : str) (offset : Z) :
  (0 <= offset <= Z.of_nat (length text))%Z ->
  let line_starts := build_line_starts text in
  (forall v, In v line_starts <->
             v = 0%Z \/
             exists j, nth_error text j = Some NL /\ v = (Z.of_nat j + 1)%Z) /\
  StronglySorted Z.lt line_starts /\
  exists n,
    offset_to_line line_starts offset = Some n /\
    (1 <= n <= Z.of_nat (length line_starts))%Z /\
    (exists v, index line_starts (n - 1) = Some v /\ (v <= offset)%Z) /\
    (forall j v, (n <= j)%Z -> index line_starts j = Some v -> (offset < v)%Z) /\
    n = Z.of_nat (S (count_nl (firstn (Z.to_nat offset) text))) /\
    (count_nl (firstn (Z.to_nat offset) text) = 0 -> n = 1%Z) /\
    (count_nl (skipn (Z.to_nat offset) text) = 0 ->
     n = Z.of_nat (length line_starts)).
Proof.
  intros Hoff line_starts. split; [apply In_line_starts|].
  split; [apply line_starts_sorted|].
  destruct (@offset_to_line_spec text offset) as (n & Hn & Hg); [lia|].
  fold line_starts in Hn, Hg.
  assert (Hcount : n = Z.of_nat (S (count_nl (firstn (Z.to_nat offset) text)))).
  { pose proof (offset_to_line_count text (Z.to_nat offset)) as Hc.
    rewrite Z2Nat.id in Hc by lia. fold line_starts in Hc. congruence. }
  exists n. destruct Hg as (H1 & H2 & H3).
  repeat split; auto; try lia.
  intros H0. rewrite Hcount. unfold line_starts.
  rewrite line_starts_length.
  assert (Hsum : count_nl text
                 = count_nl (firstn (Z.to_nat offset) text)
                   + count_nl (skipn (Z.to_nat offset) text)).
  { rewrite <- count_nl_app, firstn_skipn. reflexivity. }
  rewrite Hsum, H0, Nat.add_0_r. reflexivity.
Qed.

(** C2 at offset 5 of a three-line text: the second line. *)
Lemma C2_offset_to_line_witness :
  exists n,
    offset_to_line (build_line_starts c2_text) 5 = Some n /\ n = 2%Z.
Proof.
  destruct (@C2_offset_to_line c2_text 5%Z) as (_ & _ & n & Hn & _ & _ & _ & Hc & _).
  - vm_compute. split; discriminate.
  - exists n. split; [exact Hn | exact Hc].
Defined.

(** C3, as stated, fails: the block of [mid_line_fence] opens at offset 2,
    after the two characters ["a "] of line 1. *)
Lemma C3_counterexample :
  extract_code_blocks mid_line_fence
  = Some [Block [] [] (Some (lit "b" ++ [NL])) 1%Z] /\
  exists m,
    finditer fence_re mid_line_fence = Some [m] /\
    m_start m = 2 /\
    at_line_start mid_line_fence (m_start m) = false.
Proof.
  split; [vm_compute; reflexivity|].
  eexists. split; [vm_compute; reflexivity|].
  split; reflexivity.
Qed.

(** C3, amended.  Every reported block comes from a match that starts on a
    triple backtick, and its line number is that of this offset; the
    pattern does not ask for the beginning of a line. *)
Theorem C3_opening_is_delimiter (text : str) :
  exists ms,
    finditer fence_re text = Some ms /\
    extract_code_blocks text = Some (map (block_at text) ms) /\
    Forall (fun m =>
              startswith (skipn (m_start m) text) (lit "```") = true /\
              m_start m + 3 <= length text /\
              line_no (block_at text m)
              = Z.of_nat (S (count_nl (firstn (m_start m) text))))
           ms.
Proof.
  destruct (finditer_total fence_re text) as [ms Hms].
  exists ms. split; [exact Hms|]. split.
  - apply extract_code_blocks_scans. exists ms. split; [|reflexivity].
    apply finditer_scans; exact Hms.
  - apply finditer_scans in Hms. apply scans_matches in Hms.
    eapply Forall_impl; [|exact Hms]. cbv beta.
    intros m (q & Hq & Hm).
    apply match_at_fence_ticks in Hm as (Ht & Hs & _).
    rewrite lit_ticks3, Hs. split; [exact Ht|].
    split; [|unfold block_at; cbn [line_no]; rewrite Hs; reflexivity].
    assert (Hlen : 3 <= length (skipn q text)).
    { unfold TICKS3 in Ht.
      destruct (skipn q text) as [|x1 [|x2 [|x3 t]]];
        cbn [startswith] in Ht; rewrite ?andb_false_r in Ht;
        try discriminate.
      simpl. lia. }
    rewrite length_skipn in Hlen. lia.
Qed.

(** C8.  A fence with a tag and no hint reports an empty hint; a fence
    with neither reports both empty; an opening with no closing delimiter
    after it reports nothing, and a document whose only delimiter is such an
    opening reports no block at all. *)
Theorem C8_fence_edge_cases :
  (forall pre ws tag body post,
     has_ticks3 pre = false ->
     forallb space_or_tab ws = true -> forallb lang_char tag = true ->
     has_ticks3 body = false -> endswith body (lit "`") = false ->
     exists rest,
       extract_code_blocks
         (pre ++ lit "```" ++ ws ++ tag ++ [NL] ++ body ++ lit "```" ++ post)
       = Some (Block tag [] (Some body) (Z.of_nat (S (count_nl pre))) :: rest)) /\
  (forall pre body post,
     has_ticks3 pre = false ->
     has_ticks3 body = false -> endswith body (lit "`") = false ->
     exists rest,
       extract_code_blocks
         (pre ++ lit "```" ++ [NL] ++ body ++ lit "```" ++ post)
       = Some (Block [] [] (Some body) (Z.of_nat (S (count_nl pre))) :: rest)) /\
  (forall text p ms,
     has_ticks3 (skipn (p + 3) text) = false ->
     finditer fence_re text = Some ms ->
     Forall (fun m => m_start m <> p) ms) /\
  (forall pre rest,
     has_ticks3 pre = false -> has_ticks3 rest = false ->
     extract_code_blocks (pre ++ lit "```" ++ rest) = Some []).
Proof.
  assert (Hfirst : forall pre ws tag body post,
     has_ticks3 pre = false ->
     forallb space_or_tab ws = true -> forallb lang_char tag = true ->
     has_ticks3 body = false -> endswith body (lit "`") = false ->
     exists rest,
       extract_code_blocks
         (pre ++ lit "```" ++ ws ++ tag ++ [NL] ++ body ++ lit "```" ++ post)
       = Some (Block tag [] (Some body) (Z.of_nat (S (count_nl pre))) :: rest)).
  { intros pre ws tag body post Hpre Hws Htag Hbody Hend.
    destruct (@fence_first_block pre ws tag None body post)
      as (m & _ & Hblock & Hscan); auto.
    { discriminate. }
    destruct (scans_total fence_re
                (pre ++ fence_text ws tag None body post) (m_end m))
      as [ms Hms].
    exists (map (block_at (pre ++ fence_text ws tag None body post)) ms).
    change (pre ++ lit "```" ++ ws ++ tag ++ [NL] ++ body ++ lit "```" ++ post)
      with (pre ++ fence_text ws tag None body post).
    apply extract_code_blocks_scans. exists (m :: ms).
    split; [apply Hscan; exact Hms|]. cbn [map].
    f_equal. symmetry. exact Hblock. }
  split; [exact Hfirst|]. split; [|split].
  - intros pre body post Hpre Hbody Hend.
    apply (Hfirst pre [] [] body post); auto.
  - intros text p ms Hno Hms.
    apply finditer_scans in Hms. apply scans_matches in Hms.
    eapply Forall_impl; [|exact Hms]. cbv beta.
    intros m (q & Hq & Hm) Hp.
    pose proof (match_at_fence_ticks _ _ Hm) as (_ & Hs & _).
    rewrite Hs in Hp. subst q.
    rewrite match_at_no_closer in Hm by exact Hno. discriminate.
  - intros pre rest Hpre Hrest.
    apply extract_code_blocks_scans. exists []. split; [|reflexivity].
    rewrite lit_ticks3.
    destruct (Nat.le_gt_cases (length pre) (length (pre ++ TICKS3 ++ rest)))
      as [Hle|Hgt]; [|rewrite length_app in Hgt; lia].
    apply scans_skip with (n := S (length (pre ++ TICKS3 ++ rest))).
    + intros q Hq. destruct (Nat.lt_ge_cases q (length pre)) as [Hlt|Hge].
      * apply match_at_before; [apply has_ticks3_false; exact Hpre | exact Hlt].
      * apply match_at_no_closer. unfold has_ticks3.
        replace (q + 3) with ((q - length pre) + (length pre + 3)) by lia.
        rewrite <- skipn_skipn.
        replace (skipn (length pre + 3) (pre ++ TICKS3 ++ rest)) with rest.
        -- rewrite find_close_skipn_none;
             [reflexivity | apply has_ticks3_false; exact Hrest].
        -- rewrite Nat.add_comm, <- skipn_skipn, skipn_app_length.
           reflexivity.
    + simpl. lia.
    + apply scans_end. simpl. lia.
Qed.

(** C8 on a fence with a tag only, and on an opening without closer. *)
Lemma C8_fence_edge_cases_witness :
  (exists rest,
     extract_code_blocks c8_text
     = Some (Block (lit "python") [] (Some (lit "x = 1" ++ [NL])) 1%Z :: rest)) /\
  extract_code_blocks (lit "see ```python") = Some [].
Proof.
  destruct C8_fence_edge_cases as (Htag & _ & _ & Hopen).
  split.
  - apply (Htag [] [] (lit "python") (lit "x = 1" ++ [NL]) []); reflexivity.
  - apply (Hopen (lit "see ") (lit "python")); reflexivity.
Defined.

(** C9.  Both scanners return a list for every text: no index is out of
    range and no loop runs out of steps. *)
Theorem C9_scanners_total (text : str) :
  (exists blocks, extract_code_blocks text = Some blocks) /\
  (exists tables, extract_tables text = Some tables).
Proof.
  split.
  - apply extract_code_blocks_total.
  - eexists. apply extract_tables_walk.
Qed.

(** The tables of a document, with everything the loop guarantees. *)
Lemma occurrences_spec (text : str) :
  let lines := splitlines text in
  exists occs,
    table_occurrences text = Some occs /\
    extract_tables text = Some (map occ_rows occs) /\
    Forall (good_occ lines) occs /\
    ordered 0 occs /\
    (forall j l,
       nth_error lines j = Some l -> table_line l = true ->
       is_some (re_match sep_re (strip l)) = false ->
       exists o, In o occs /\ occ_first o <= j < occ_stop o).
Proof.
  intros lines. exists (walk 0 lines None).
  split; [apply table_occurrences_walk|].
  split; [apply extract_tables_walk|].
  split; [|split].
  - apply (@walk_good lines lines [] None); [reflexivity | left; reflexivity].
  - apply (@walk_ordered lines 0 None). discriminate.
  - intros j l Hl Ht Hs.
    apply (@walk_covers lines lines [] None) with (l := l); auto.
    + left; reflexivity.
    + left. simpl. lia.
Qed.

Lemma good_occ_rows lines o :
  good_occ lines o ->
  occ_rows o
  = map cells_of
      (filter (fun r => negb (separator_like r))
         (run_text lines (occ_first o) (occ_stop o))).
Proof.
  intros ((_ & Hall & _) & Hrows & _). rewrite Hrows. unfold rows_of.
  rewrite run_filter_sep by exact Hall. reflexivity.
Qed.

(** C4.  In every table the rows are the cells of the run's lines that are
    not separator-like, in order: a separator-like line is dropped wherever
    it stands in the run; and a maximal run made only of separator-like
    lines gives no table. *)
Theorem C4_separator_rows (text : str) :
  let lines := splitlines text in
  exists occs,
    table_occurrences text = Some occs /\
    extract_tables text = Some (map occ_rows occs) /\
    (forall o, In o occs ->
       maximal_run lines (occ_first o) (occ_stop o) /\
       occ_rows o
       = map cells_of
           (filter (fun r => negb (separator_like r))
              (run_text lines (occ_first o) (occ_stop o)))) /\
    (forall before r after,
       nonempty r = true -> separator_like r = true ->
       rows_of (before ++ r :: after) = rows_of (before ++ after)) /\
    (forall a b,
       maximal_run lines a b ->
       forallb separator_like (run_text lines a b) = true ->
       forall o j, In o occs -> a <= j < b ->
                   ~ (occ_first o <= j < occ_stop o)).
Proof.
  intros lines.
  destruct (occurrences_spec text) as (occs & Hocc & Hext & Hgood & _ & _).
  fold lines in Hgood. rewrite Forall_forall in Hgood.
  exists occs. split; [exact Hocc|]. split; [exact Hext|].
  split; [|split].
  - intros o Ho. split; [apply (Hgood o Ho) | apply good_occ_rows, Hgood, Ho].
  - intros before r after Hne Hsep. apply rows_of_drop_separator.
    rewrite Hne, Hsep. reflexivity.
  - intros a b Hrun Hsep o j Ho Hj Hoj.
    destruct (Hgood o Ho) as (Hmax & Hrows & Hnonempty).
    destruct (maximal_run_unique Hrun Hmax Hj Hoj) as [Ha Hb].
    rewrite <- Ha, <- Hb in Hrows.
    apply Hnonempty. rewrite Hrows. unfold rows_of.
    destruct Hrun as (_ & Hall & _).
    rewrite run_filter_sep by exact Hall.
    replace (filter _ (run_text lines a b)) with (@nil str); [reflexivity|].
    symmetry. clear - Hsep. induction (run_text lines a b) as [|r raw IH];
      [reflexivity|].
    simpl in *. apply andb_true_iff in Hsep as [-> Hsep]. simpl.
    apply IH; exact Hsep.
Qed.

(** C4 on a table followed by a run that is one separator row. *)
Lemma C4_separator_rows_witness :
  exists occs,
    extract_tables c4_text = Some (map occ_rows occs) /\
    (forall o j, In o occs -> 4 <= j < 5 ->
                 ~ (occ_first o <= j < occ_stop o)) /\
    rows_of [lit "|a|"; lit "|-|"; lit "|b|"]
    = rows_of [lit "|a|"; lit "|b|"].
Proof.
  destruct (C4_separator_rows c4_text)
    as (occs & _ & Hext & _ & Hdrop & Hnone).
  exists occs. split; [exact Hext|]. split.
  - apply (Hnone 4 5); [|reflexivity].
    repeat split.
    + lia.
    + vm_compute. lia.
    + intros j Hj. replace j with 4 by lia. reflexivity.
    + right. reflexivity.
  - apply (Hdrop [lit "|a|"] (lit "|-|") [lit "|b|"]); reflexivity.
Defined.

(** C5, as stated, fails: on [||a||] the source removes both pipes on each
    side and reports the single cell [a], where stripping exactly one pipe
    per side would leave two empty cells around it. *)
Lemma C5_counterexample :
  extract_tables doubled_pipes = Some [[[lit "a"]]] /\
  cells_spec doubled_pipes = [[]; lit "a"; []] /\
  extract_tables doubled_pipes <> Some [[cells_spec doubled_pipes]].
Proof.
  split; [vm_compute; reflexivity|].
  split; [vm_compute; reflexivity|].
  vm_compute. discriminate.
Qed.

(** C5, amended.  The cells of a line are obtained by removing every
    leading and every trailing pipe of the trimmed line, splitting what
    remains on pipes and trimming each cell; on a line with exactly one
    pipe at each end this is the specification's rule. *)
Theorem C5_cells (text : str) :
  let lines := splitlines text in
  exists occs,
    table_occurrences text = Some occs /\
    extract_tables text = Some (map occ_rows occs) /\
    (forall o, In o occs ->
       occ_rows o
       = map cells_of
           (filter (fun r => negb (separator_like r))
              (run_text lines (occ_first o) (occ_stop o)))) /\
    (forall a b core,
       pipe_free_ends core = true ->
       cells_of (repeat PIPE a ++ core ++ repeat PIPE b)
       = map strip (split PIPE core)) /\
    (forall core,
       pipe_free_ends core = true ->
       cells_of (lit "|" ++ core ++ lit "|")
       = cells_spec (lit "|" ++ core ++ lit "|")).
Proof.
  intros lines.
  destruct (occurrences_spec text) as (occs & Hocc & Hext & Hgood & _ & _).
  fold lines in Hgood. rewrite Forall_forall in Hgood.
  exists occs. split; [exact Hocc|]. split; [exact Hext|].
  split; [|split].
  - intros o Ho. apply good_occ_rows, Hgood, Ho.
  - intros a b core Hcore. unfold cells_of.
    rewrite strip_pipes_core by exact Hcore. reflexivity.
  - intros core Hcore. apply cells_of_single_pipes; exact Hcore.
Qed.

(** C5 on a line with doubled pipes and on a line with single pipes. *)
Lemma C5_cells_witness :
  cells_of (repeat PIPE 2 ++ lit "a" ++ repeat PIPE 2)
  = map strip (split PIPE (lit "a")) /\
  cells_of (lit "|" ++ lit " x | y " ++ lit "|")
  = cells_spec (lit "|" ++ lit " x | y " ++ lit "|").
Proof.
  destruct (C5_cells doubled_pipes) as (occs & _ & _ & _ & Hall & Hone).
  split.
  - apply (Hall 2 2 (lit "a")). reflexivity.
  - apply (Hone (lit " x | y ")). reflexivity.
Defined.

(** C6, as stated, fails: the row [a] of [||a||] re-joins to [|a|], which is
    not the line of its run up to whitespace. *)
Lemma C6_counterexample :
  extract_tables doubled_pipes = Some [[[lit "a"]]] /\
  run_text (splitlines doubled_pipes) 0 1 = [doubled_pipes] /\
  squeeze (rejoin [lit "a"]) <> squeeze doubled_pipes.
Proof.
  split; [vm_compute; reflexivity|].
  split; [vm_compute; reflexivity|].
  vm_compute. discriminate.
Qed.

(** C6, amended.  Every row of a table is the cell list of a line of its
    run that is not separator-like, rows in the order of those lines;
    re-joined, it equals up to whitespace that line with all its leading
    and trailing pipes replaced by one pipe on each side, hence the line
    itself when the line has exactly one pipe at each end. *)
Theorem C6_round_trip (text : str) :
  let lines := splitlines text in
  exists occs,
    table_occurrences text = Some occs /\
    extract_tables text = Some (map occ_rows occs) /\
    forall o, In o occs ->
      occ_rows o
      = map cells_of
          (filter (fun r => negb (separator_like r))
             (run_text lines (occ_first o) (occ_stop o))) /\
      forall row, In row (occ_rows o) ->
        exists r,
          In r (run_text lines (occ_first o) (occ_stop o)) /\
          row = cells_of r /\
          squeeze (rejoin row)
          = squeeze (lit "|" ++ strip_chars (lit "|") r ++ lit "|") /\
          (forall core,
             r = lit "|" ++ core ++ lit "|" -> pipe_free_ends core = true ->
             squeeze (rejoin row) = squeeze r).
Proof.
  intros lines.
  destruct (occurrences_spec text) as (occs & Hocc & Hext & Hgood & _ & _).
  fold lines in Hgood. rewrite Forall_forall in Hgood.
  exists occs. split; [exact Hocc|]. split; [exact Hext|].
  intros o Ho. pose proof (good_occ_rows (Hgood o Ho)) as Hrows.
  split; [exact Hrows|].
  intros row Hrow. rewrite Hrows in Hrow.
  apply in_map_iff in Hrow as (r & <- & Hr).
  apply filter_In in Hr as [Hr _].
  exists r. split; [exact Hr|]. split; [reflexivity|].
  assert (Hsq : squeeze (rejoin (cells_of r))
                = squeeze (lit "|" ++ strip_chars (lit "|") r ++ lit "|")).
  { rewrite squeeze_rejoin_cells, !squeeze_app. reflexivity. }
  split; [exact Hsq|].
  intros core -> Hcore. rewrite Hsq.
  change (lit "|" ++ core ++ lit "|")
    with (repeat PIPE 1 ++ core ++ repeat PIPE 1) at 1.
  rewrite strip_pipes_core by exact Hcore. reflexivity.
Qed.

(** C6 on a one-row table. *)
Lemma C6_round_trip_witness :
  exists row,
    extract_tables c6_text = Some [[row]] /\
    squeeze (rejoin row) = squeeze (lit "| x | y |").
Proof.
  destruct (C6_round_trip c6_text) as (occs & Hocc & Hext & Hrows).
  assert (Eo : occs = [TableOcc 0 1 [[lit "x"; lit "y"]]]).
  { vm_compute in Hocc. injection Hocc as <-. reflexivity. }
  subst occs.
  destruct (Hrows _ (or_introl eq_refl)) as (_ & Hrow).
  destruct (Hrow [lit "x"; lit "y"] (or_introl eq_refl))
    as (r & Hr & Hcells & _ & Hsingle).
  assert (Er : r = lit "| x | y |").
  { vm_compute in Hr. destruct Hr as [<- | []]. reflexivity. }
  subst r.
  exists [lit "x"; lit "y"]. split; [exact Hext|].
  apply (Hsingle (lit " x | y ")); reflexivity.
Defined.

(** C7.  Every table is read from a maximal run of candidate lines (all its
    lines are candidates; the line before it and the line after it, when
    they exist, are not); every maximal run with a surviving row gives a
    table; an earlier table's run ends before a later table's run starts,
    with at least the terminating line between them; and two documents
    joined by a blank line give the tables of the first followed by the
    tables of the second. *)
Theorem C7_runs :
  (forall text,
     let lines := splitlines text in
     exists occs,
       table_occurrences text = Some occs /\
       extract_tables text = Some (map occ_rows occs) /\
       (forall o, In o occs ->
          maximal_run lines (occ_first o) (occ_stop o) /\
          occ_rows o = rows_of (run_text lines (occ_first o) (occ_stop o))) /\
       (forall a b,
          maximal_run lines a b -> rows_of (run_text lines a b) <> [] ->
          exists o, In o occs /\ occ_first o = a /\ occ_stop o = b) /\
       (forall i j oi oj,
          i < j -> nth_error occs i = Some oi -> nth_error occs j = Some oj ->
          occ_stop oi < occ_first oj)) /\
  (forall A B ta tb,
     extract_tables A = Some ta -> extract_tables B = Some tb ->
     extract_tables (A ++ [NL] ++ [NL] ++ B) = Some (ta ++ tb)).
Proof.
  split.
  - intros text lines.
    destruct (occurrences_spec text)
      as (occs & Hocc & Hext & Hgood & Hord & Hcover).
    fold lines in Hgood, Hcover. rewrite Forall_forall in Hgood.
    exists occs. split; [exact Hocc|]. split; [exact Hext|].
    split; [|split].
    + intros o Ho. destruct (Hgood o Ho) as (Hmax & Hrows & _). auto.
    + intros a b Hrun Hrows.
      assert (Hsurv : exists r, In r (run_text lines a b) /\
                                is_some (re_match sep_re r) = false).
      { unfold rows_of in Hrows.
        destruct (filter _ (run_text lines a b)) as [|r rs] eqn:E;
          [exfalso; apply Hrows; reflexivity|].
        assert (Hin : In r (r :: rs)) by (left; reflexivity).
        rewrite <- E in Hin. apply filter_In in Hin as [Hin Hr].
        exists r. split; [exact Hin|].
        apply negb_true_iff in Hr. exact Hr. }
      destruct Hsurv as (r & Hr & Hs).
      apply run_text_in in Hr as (j & l & Hj & Hl & ->).
      destruct (Hcover j l Hl) as (o & Ho & Hoj); auto.
      { destruct Hrun as (_ & Hall & _). specialize (Hall j Hj).
        unfold line_is_table in Hall. rewrite Hl in Hall. exact Hall. }
      exists o. split; [exact Ho|].
      destruct (Hgood o Ho) as (Hmax & _).
      destruct (maximal_run_unique Hrun Hmax Hj Hoj) as [Ha Hb]. auto.
    + intros i j oi oj. apply ordered_pairwise with (lo := 0). exact Hord.
  - intros A B ta tb Ha Hb. apply extract_tables_blank; assumption.
Qed.

(** C7 on two runs separated by a blank line. *)
Lemma C7_runs_witness :
  (exists occs o,
     table_occurrences (c7_first ++ [NL] ++ [NL] ++ c7_second) = Some occs /\
     In o occs /\ occ_first o = 0 /\ occ_stop o = 2) /\
  extract_tables (c7_first ++ [NL] ++ [NL] ++ c7_second)
  = Some ([[[lit "a"]; [lit "b"]]] ++ [[[lit "c"]]]).
Proof.
  destruct C7_runs as (Hruns & Hblank). split.
  - destruct (Hruns (c7_first ++ [NL] ++ [NL] ++ c7_second))
      as (occs & Hocc & _ & _ & Hcomplete & _).
    destruct (Hcomplete 0 2) as (o & Ho & Ha & Hb).
    + repeat split.
      * lia.
      * vm_compute. lia.
      * intros j Hj. destruct j as [|[|j]]; [reflexivity | reflexivity | lia].
      * left. reflexivity.
    + vm_compute. discriminate.
    + exists occs, o. auto.
  - apply (Hblank c7_first c7_second); reflexivity.
Defined.

(** C10.  Every returned grid has at least one row and every row has at
    least one cell. *)
Theorem C10_no_empty_grid_or_row (text : str) :
  exists tables,
    extract_tables text = Some tables /\
    Forall (fun grid => grid <> [] /\ Forall (fun row => row <> []) grid)
           tables.
Proof.
  destruct (occurrences_spec text) as (occs & _ & Hext & Hgood & _ & _).
  exists (map occ_rows occs). split; [exact Hext|].
  apply Forall_map. eapply Forall_impl; [|exact Hgood]. cbv beta.
  intros o (_ & Hrows & Hne). split; [exact Hne|].
  rewrite Hrows. unfold rows_of. apply Forall_map.
  apply Forall_forall. intros r _. apply cells_of_nonempty.
Qed.


(** * More about fenced code blocks *)

Section FenceInversion.

Lemma find_close_some s : forall j,
  find_close s = Some j ->
  s = firstn j s ++ TICKS3 ++ skipn (3 + j) s /\
  length (firstn j s) = j /\
  find_close (firstn j s) = None.
Proof.
  induction s as [|c s IH]; intros j H.
  - discriminate.
  - cbn [find_close] in H.
    destruct (startswith (c :: s) TICKS3) eqn:E.
    + injection H as <-. apply startswith_spec in E as (t & ->).
      repeat split.
    + destruct (find_close s) as [j'|] eqn:F; [|discriminate].
      injection H as <-.
      destruct (IH j' eq_refl) as (Hs & Hl & Hn).
      split; [|split].
      * cbn [firstn app]. f_equal. exact Hs.
      * cbn [firstn length]. f_equal. exact Hl.
      * cbn [firstn find_close]. rewrite Hn. cbn [option_map].
        destruct (startswith (c :: firstn j' s) TICKS3) eqn:E'; [|reflexivity].
        apply startswith_spec in E' as (t & Ht).
        assert (Hs' : startswith (c :: s) TICKS3 = true).
        { apply startswith_spec. exists (t ++ skipn j' s).
          rewrite <- (firstn_skipn j' s) at 1.
          rewrite app_comm_cons, Ht, <- app_assoc. reflexivity. }
        congruence.
Qed.

(** A successful attempt at [s] reads a whole fence: [s] is a delimiter,
    blanks, a tag, an optional hint on the same line, a newline, a body
    free of triple backticks, and the closing delimiter. *)
Lemma fence_parse_inv i s st :
  fence_parse i s = Some st ->
  exists ws tag h body post,
    s = fence_text ws tag h body post /\
    forallb space_or_tab ws = true /\ forallb lang_char tag = true /\
    (forall n, h = Some n ->
               nonempty n = true /\ forallb not_newline n = true) /\
    find_close body = None /\
    find_close (body ++ TICKS3 ++ post) = Some (length body).
Proof.
  unfold fence_parse.
  destruct (startswith s TICKS3) eqn:E; [|discriminate].
  apply startswith_spec in E as (s1 & ->).
  change (skipn 3 (TICKS3 ++ s1)) with s1. cbv zeta.
  set (a := run_len space_or_tab s1).
  set (s2 := skipn a s1).
  set (b := run_len lang_char s2).
  assert (Hs1 : s1 = firstn a s1 ++ firstn b s2 ++ skipn b s2).
  { rewrite (firstn_skipn b s2). unfold s2. symmetry. apply firstn_skipn. }
  assert (Hws : forallb space_or_tab (firstn a s1) = true)
    by apply run_len_prefix.
  assert (Htag : forallb lang_char (firstn b s2) = true)
    by apply run_len_prefix.
  assert (Hclose : forall g k s' st',
    fence_close g k s' = Some st' ->
    exists body post, s' = body ++ TICKS3 ++ post /\
                      find_close body = None /\
                      find_close (body ++ TICKS3 ++ post) = Some (length body)).
  { intros g k s' st'. unfold fence_close.
    destruct (find_close s') as [j|] eqn:F; [|discriminate]. intros _.
    destruct (find_close_some _ F) as (Hs' & Hl & Hn).
    exists (firstn j s'), (skipn (3 + j) s').
    split; [exact Hs'|]. split; [exact Hn|].
    rewrite <- Hs', Hl. exact F. }
  destruct (skipn b s2) as [|c s4] eqn:E3; [discriminate|].
  destruct (N.eqb_spec c NL) as [->|Hnl].
  - intros H. apply Hclose in H as (body & post & -> & Hn & Hf).
    exists (firstn a s1), (firstn b s2), None, body, post.
    unfold fence_text. cbn [hint_text app]. rewrite Hs1 at 1.
    repeat split; auto; discriminate.
  - destruct (N.eqb_spec c COLON) as [->|Hc]; [|discriminate].
    destruct s4 as [|c2 s4']; [discriminate|].
    destruct (not_newline c2) eqn:E2; [|discriminate].
    set (h := run_len not_newline s4').
    destruct (skipn h s4') as [|c3 s5] eqn:E5; [discriminate|].
    assert (Hc3 : c3 = NL).
    { apply run_len_stop in E5. unfold not_newline in E5.
      apply negb_false_iff, N.eqb_eq in E5. exact E5. }
    subst c3.
    intros H. apply Hclose in H as (body & post & -> & Hn & Hf).
    exists (firstn a s1), (firstn b s2), (Some (c2 :: firstn h s4')), body, post.
    unfold fence_text. cbn [hint_text app]. rewrite Hs1 at 1.
    rewrite <- (firstn_skipn h s4') at 1. rewrite E5.
    repeat (rewrite <- app_assoc || rewrite <- app_comm_cons).
    split; [reflexivity|]. split; [exact Hws|]. split; [exact Htag|].
    split; [|split; assumption].
    intros n Hn'. injection Hn' as <-. split; [reflexivity|].
    cbn [forallb]. rewrite E2. apply run_len_prefix.
Qed.

(** Every match of the fence pattern in [text] covers a fence, and its
    groups are the fence's tag, hint and body. *)
Lemma match_at_inv text i m :
  match_at fence_re text i = Some m ->
  exists pre ws tag h body post,
    text = pre ++ fence_text ws tag h body post /\
    length pre = i /\
    forallb space_or_tab ws = true /\ forallb lang_char tag = true /\
    (forall n, h = Some n ->
               nonempty n = true /\ forallb not_newline n = true) /\
    has_ticks3 body = false /\
    m_start m = i /\ m_end m = length text - length post /\
    group m 1 = Some tag /\ group m 2 = h /\ group m 3 = Some body.
Proof.
  intros Hm. pose proof Hm as Hm0.
  unfold match_at in Hm. rewrite fence_run in Hm.
  destruct (fence_parse i (skipn i text)) as [st|] eqn:E; [|discriminate].
  injection Hm as <-.
  destruct (fence_parse_inv _ _ E) as
    (ws & tag & h & body & post & Hs & Hws & Htag & Hh & Hn & Hf).
  assert (Hi : i <= length text).
  { destruct (Nat.le_gt_cases i (length text)) as [H|H]; [exact H|].
    rewrite skipn_all2 in Hs by lia. unfold fence_text in Hs. discriminate. }
  set (pre := firstn i text).
  assert (Hpre : length pre = i) by (unfold pre; rewrite length_firstn; lia).
  assert (Htext : text = pre ++ fence_text ws tag h body post).
  { rewrite <- Hs. unfold pre. symmetry. apply firstn_skipn. }
  destruct (@fence_parse_shape i ws tag h body post Hws Htag Hh Hf)
    as (st' & Hst' & Hpos & G1 & G2 & G3).
  rewrite <- Hs, E in Hst'. injection Hst' as <-.
  assert (Hlen : length text
                 = i + length (fence_text ws tag h body post)).
  { rewrite Htext at 1. rewrite length_app, Hpre. reflexivity. }
  rewrite fence_text_length in Hlen.
  exists pre, ws, tag, h, body, post.
  split; [exact Htext|]. split; [exact Hpre|].
  split; [exact Hws|]. split; [exact Htag|]. split; [exact Hh|].
  split; [unfold has_ticks3; rewrite Hn; reflexivity|].
  split; [reflexivity|]. split; [cbn [m_end]; lia|].
  unfold group. cbn [m_groups m_string]. rewrite G1, G2, G3.
  split; [|split].
  - f_equal. apply slice_eq with (x := pre ++ TICKS3 ++ ws)
      (z := hint_text h ++ NL :: body ++ TICKS3 ++ post).
    + rewrite Htext at 1. unfold fence_text.
      repeat rewrite <- app_assoc. reflexivity.
    + repeat (rewrite length_app || simpl length). lia.
    + reflexivity.
  - destruct h as [n|]; [|reflexivity].
    f_equal. apply slice_eq with (x := pre ++ TICKS3 ++ ws ++ tag ++ [COLON])
      (z := NL :: body ++ TICKS3 ++ post).
    + rewrite Htext at 1. unfold fence_text.
      repeat rewrite <- app_assoc. reflexivity.
    + repeat (rewrite length_app || simpl length). lia.
    + simpl. lia.
  - f_equal. apply slice_eq
      with (x := pre ++ TICKS3 ++ ws ++ tag ++ hint_text h ++ [NL])
           (z := TICKS3 ++ post).
    + rewrite Htext at 1. unfold fence_text.
      repeat rewrite <- app_assoc. reflexivity.
    + repeat (rewrite length_app || simpl length). lia.
    + reflexivity.
Qed.

End FenceInversion.

Section BlockFacts.

Lemma dropwhile_split p (s : str) :
  exists l1, s = l1 ++ dropwhile p s /\ forallb p l1 = true.
Proof.
  induction s as [|c s (l1 & Hs & Hl)]; [exists []; auto|].
  simpl. destruct (p c) eqn:E.
  - exists (c :: l1). simpl. rewrite E, Hl. split; [f_equal; exact Hs | auto].
  - exists []. auto.
Qed.

Lemma dropwhile_head p (s : str) :
  match dropwhile p s with c :: _ => p c = false | [] => True end.
Proof.
  induction s as [|c s IH]; [exact I|]. simpl.
  destruct (p c) eqn:E; [exact IH | exact E].
Qed.

(** [strip] removes a run of whitespace at each end and nothing else. *)
Lemma strip_split (s : str) :
  exists l1 l2, s = l1 ++ strip s ++ l2 /\
                forallb is_space l1 = true /\ forallb is_space l2 = true.
Proof.
  unfold strip, lstrip_with, rstrip_with.
  destruct (dropwhile_split is_space s) as (l1 & Hs & Hl1).
  destruct (dropwhile_split is_space (rev (dropwhile is_space s)))
    as (l2 & Ht & Hl2).
  exists l1, (rev l2). split; [|split; [exact Hl1|]].
  - rewrite <- rev_app_distr, <- Ht, rev_involutive. exact Hs.
  - rewrite forallb_forall in *. intros x Hx. apply Hl2, in_rev. exact Hx.
Qed.

Lemma strip_forallb p (s : str) :
  forallb p s = true -> forallb p (strip s) = true.
Proof.
  destruct (strip_split s) as (l1 & l2 & Hs & _). intros H.
  rewrite Hs, !forallb_app in H.
  apply andb_true_iff in H as [_ H]. apply andb_true_iff in H as [H _].
  exact H.
Qed.

Lemma strip_idempotent (s : str) : strip (strip s) = strip s.
Proof.
  apply strip_id.
  - unfold strip, lstrip_with, rstrip_with.
    pose proof (dropwhile_head is_space s) as Hh.
    destruct (dropwhile_split is_space (rev (dropwhile is_space s)))
      as (l2 & Ht & _).
    set (t := dropwhile is_space s) in *.
    set (w := dropwhile is_space (rev t)) in *.
    assert (Hpre : t = rev w ++ rev l2).
    { rewrite <- rev_app_distr, <- Ht, rev_involutive. reflexivity. }
    destruct (rev w) as [|c u]; [exact I|].
    rewrite Hpre in Hh. exact Hh.
  - unfold strip, lstrip_with, rstrip_with. rewrite rev_involutive.
    apply dropwhile_head.
Qed.

Lemma match_at_start r text i m : match_at r text i = Some m -> m_start m = i.
Proof.
  unfold match_at. destruct (run r Some _); [|discriminate].
  intros H; injection H as <-. reflexivity.
Qed.

Lemma count_nl_firstn_le text a b :
  a <= b -> count_nl (firstn a text) <= count_nl (firstn b text).
Proof.
  intros H. rewrite <- (firstn_skipn a (firstn b text)), count_nl_app.
  rewrite firstn_firstn. replace (Nat.min a b) with a by lia. lia.
Qed.

Lemma count_nl_firstn_total text a : count_nl (firstn a text) <= count_nl text.
Proof.
  rewrite <- (firstn_skipn a text) at 2. rewrite count_nl_app. lia.
Qed.

(** A fence spans at least one newline: the one that ends its opening
    line. *)
Lemma fence_match_newline text i m :
  match_at fence_re text i = Some m ->
  count_nl (firstn (m_start m) text) < count_nl (firstn (m_end m) text).
Proof.
  intros Hm. destruct (match_at_inv _ _ Hm) as
    (pre & ws & tag & h & body & post & Htext & Hpre & _ & _ & _ & _
     & Hs & He & _).
  rewrite Hs, He, <- Hpre.
  rewrite Htext at 1. rewrite count_nl_firstn_app.
  rewrite Htext at 1 2. rewrite fence_text_split.
  rewrite length_app, Nat.add_sub, count_nl_firstn_app.
  unfold fence_text.
  repeat (rewrite count_nl_app || rewrite app_comm_cons).
  change (NL :: body) with ([NL] ++ body). rewrite count_nl_app.
  change (count_nl [NL]) with 1. lia.
Qed.

(** Successive matches start on strictly later lines. *)
Lemma scans_lines text i ms :
  scans fence_re text i ms ->
  Forall (fun m => count_nl (firstn i text)
                   <= count_nl (firstn (m_start m) text)) ms /\
  Forall (fun m => i <= m_start m) ms /\
  StronglySorted (fun m1 m2 => m_end m1 <= m_start m2) ms /\
  StronglySorted
    (fun m1 m2 => count_nl (firstn (m_start m1) text)
                  < count_nl (firstn (m_start m2) text)) ms.
Proof.
  induction 1 as [i Hi | i m ms Hi Hm Hs IH | i ms Hi Hm Hs IH].
  - repeat split; constructor.
  - destruct IH as (IH1 & IH2 & IH3 & IH4).
    pose proof (match_at_start _ _ _ Hm) as Hstart.
    pose proof (fence_match_newline _ _ Hm) as Hnl.
    pose proof (fence_match_nonempty _ _ Hm) as Hne.
    rewrite Hstart in Hnl, Hne.
    assert (Hres : resume i m = m_end m).
    { unfold resume. destruct (Nat.ltb_spec i (m_end m)); [reflexivity|lia]. }
    rewrite Hres in IH1, IH2.
    split; [|split; [|split]].
    + constructor; [rewrite Hstart; lia|].
      eapply Forall_impl; [|exact IH1]. cbv beta. intros m' H'. lia.
    + constructor; [lia|].
      eapply Forall_impl; [|exact IH2]. cbv beta. intros m' H'. lia.
    + constructor; [exact IH3|]. exact IH2.
    + constructor; [exact IH4|].
      eapply Forall_impl; [|exact IH1]. cbv beta. intros m' H'.
      rewrite Hstart. lia.
  - destruct IH as (IH1 & IH2 & IH3 & IH4).
    split; [|split; [|split]]; auto.
    + eapply Forall_impl; [|exact IH1]. cbv beta. intros m' H'.
      pose proof (@count_nl_firstn_le text i (S i)). lia.
    + eapply Forall_impl; [|exact IH2]. cbv beta. intros m' H'. lia.
Qed.

Lemma StronglySorted_map {A B : Type} (f : A -> B)
    (R : A -> A -> Prop) (R' : B -> B -> Prop) (l : list A) :
  (forall a b, R a b -> R' (f a) (f b)) ->
  StronglySorted R l -> StronglySorted R' (map f l).
Proof.
  intros HR. induction 1 as [|a l Hs IH Hall]; simpl; constructor; auto.
  apply Forall_map. eapply Forall_impl; [|exact Hall]. auto.
Qed.

End BlockFacts.

(** * Further properties of [extract_code_blocks] *)

(** X1.  A text without a triple backtick has no code block. *)
Theorem X1_no_ticks_no_blocks (text : str) :
  has_ticks3 text = false -> extract_code_blocks text = Some [].
Proof.
  intros H. apply extract_code_blocks_scans. exists []. split; [|reflexivity].
  apply (@scans_after [] text 0 H). simpl. lia.
Qed.

(** X1 on a text with single and double backticks only. *)
Lemma X1_no_ticks_no_blocks_witness :
  extract_code_blocks (lit "use `x` and ``y`` here") = Some [].
Proof. apply X1_no_ticks_no_blocks. reflexivity. Defined.

(** X2.  Blocks are reported in document order: each match ends before the
    next one starts, line numbers are strictly increasing along the result,
    and every line number lies between 1 and the number of lines. *)
Theorem X2_blocks_in_order (text : str) :
  exists ms,
    finditer fence_re text = Some ms /\
    extract_code_blocks text = Some (map (block_at text) ms) /\
    StronglySorted (fun m1 m2 => m_end m1 <= m_start m2) ms /\
    StronglySorted Z.lt (map line_no (map (block_at text) ms)) /\
    Forall (fun b => (1 <= line_no b <= Z.of_nat (S (count_nl text)))%Z)
           (map (block_at text) ms).
Proof.
  destruct (finditer_total fence_re text) as [ms Hms].
  exists ms. split; [exact Hms|].
  apply finditer_scans in Hms.
  split; [apply extract_code_blocks_scans; exists ms; auto|].
  destruct (scans_lines Hms) as (_ & _ & Hdisj & Hlines).
  split; [exact Hdisj|]. split.
  - rewrite map_map.
    apply StronglySorted_map with (2 := Hlines).
    intros a b Hab. unfold block_at. cbn [line_no]. lia.
  - apply Forall_map, Forall_forall. intros m _.
    unfold block_at. cbn [line_no].
    pose proof (count_nl_firstn_total text (m_start m)). lia.
Qed.

(** X3.  Nothing is invented: every reported block stands in the text as
    a delimiter, blanks, its language tag, an optional colon and raw hint
    on the same line, a newline, its code, and a closing delimiter; the
    reported hint is the raw hint trimmed, and the empty string when there
    is none. *)
Theorem X3_blocks_are_fences (text : str) :
  exists ms,
    finditer fence_re text = Some ms /\
    extract_code_blocks text = Some (map (block_at text) ms) /\
    Forall (fun m =>
              exists pre ws raw_hint body post,
                text = pre ++ lit "```" ++ ws ++ lang (block_at text m)
                       ++ hint_text raw_hint ++ [NL] ++ body
                       ++ lit "```" ++ post /\
                length pre = m_start m /\
                forallb space_or_tab ws = true /\
                code (block_at text m) = Some body /\
                hint (block_at text m)
                = match raw_hint with Some n => strip n | None => [] end)
           ms.
Proof.
  destruct (finditer_total fence_re text) as [ms Hms].
  exists ms. split; [exact Hms|].
  apply finditer_scans in Hms.
  split; [apply extract_code_blocks_scans; exists ms; auto|].
  apply scans_matches in Hms.
  eapply Forall_impl; [|exact Hms]. cbv beta.
  intros m (q & _ & Hm).
  destruct (match_at_inv _ _ Hm) as
    (pre & ws & tag & h & body & post & Htext & Hpre & Hws & Htag & Hh & _
     & Hs & _ & G1 & G2 & G3).
  exists pre, ws, h, body, post.
  assert (Hlang : lang (block_at text m) = tag).
  { unfold block_at, group_stripped. cbn [lang]. rewrite G1.
    destruct tag as [|c tag]; [reflexivity|]. apply strip_tag; exact Htag. }
  rewrite Hlang. split; [exact Htext|]. split; [congruence|].
  split; [exact Hws|]. split; [exact G3|].
  unfold block_at, group_stripped. cbn [hint]. rewrite G2.
  destruct h as [[|c n]|]; reflexivity.
Qed.

(** X4.  The fields of every reported block: the language is made of the
    tag characters only, the hint is trimmed and on one line, the code is
    present and contains no triple backtick. *)
Theorem X4_block_fields (text : str) :
  exists blocks,
    extract_code_blocks text = Some blocks /\
    Forall (fun b =>
              forallb lang_char (lang b) = true /\
              strip (hint b) = hint b /\
              forallb not_newline (hint b) = true /\
              exists body, code b = Some body /\ has_ticks3 body = false)
           blocks.
Proof.
  destruct (finditer_total fence_re text) as [ms Hms].
  exists (map (block_at text) ms).
  apply finditer_scans in Hms.
  split; [apply extract_code_blocks_scans; exists ms; auto|].
  apply scans_matches in Hms. apply Forall_map.
  eapply Forall_impl; [|exact Hms]. cbv beta.
  intros m (q & _ & Hm).
  destruct (match_at_inv _ _ Hm) as
    (pre & ws & tag & h & body & post & _ & _ & _ & Htag & Hh & Hbody
     & _ & _ & G1 & G2 & G3).
  unfold block_at, group_stripped. cbn [lang hint code]. rewrite G1, G2, G3.
  split; [|split; [|split]].
  - destruct tag as [|c tag]; [reflexivity|].
    rewrite strip_tag by exact Htag. exact Htag.
  - destruct h as [[|c n]|]; try reflexivity. apply strip_idempotent.
  - destruct h as [[|c n]|]; try reflexivity.
    apply strip_forallb. apply (Hh (c :: n) eq_refl).
  - exists body. auto.
Qed.

Lemma offset_to_line_loop_below (ls : list Z) (offset : Z) :
  Forall (fun v => (offset < v)%Z) ls ->
  forall fuel hi,
    (0 <= hi < Z.of_nat (length ls))%Z -> (hi < Z.of_nat fuel)%Z ->
    offset_to_line_loop fuel ls offset 0 hi = Some 1%Z.
Proof.
  intros Hall. induction fuel as [|fuel IH]; intros hi Hhi Hf; [lia|].
  cbn [offset_to_line_loop].
  destruct (Z.ltb_spec 0 hi) as [Hlt|Hge]; [|reflexivity].
  set (mid := ((0 + hi + 1) / 2)%Z).
  assert (Hmid : (0 < mid <= hi)%Z).
  { unfold mid.
    pose proof (Z.div_mod (0 + hi + 1) 2 ltac:(lia)).
    pose proof (Z.mod_pos_bound (0 + hi + 1) 2 ltac:(lia)). lia. }
  destruct (@index_in_range _ ls mid) as (v & Hv & Hnth); [lia|].
  rewrite Hv. cbn [bind].
  rewrite Forall_forall in Hall.
  assert (Hlt' : (offset < v)%Z) by (apply Hall; eapply nth_error_In; eauto).
  destruct (Z.leb_spec v offset); [lia|].
  apply IH; lia.
Qed.

(** X5.  The line search answers for every integer offset, also outside
    the text: a negative offset gives line 1, an offset at or past the end
    gives the last line, the answer always lies between 1 and the number of
    lines, and it never decreases when the offset grows. *)
Theorem X5_offset_to_line_any_offset (text : str) :
  let line_starts := build_line_starts text in
  (forall offset, exists n,
     offset_to_line line_starts offset = Some n /\
     (1 <= n <= Z.of_nat (length line_starts))%Z) /\
  (forall offset, (offset < 0)%Z ->
     offset_to_line line_starts offset = Some 1%Z) /\
  (forall offset, (Z.of_nat (length text) <= offset)%Z ->
     offset_to_line line_starts offset
     = Some (Z.of_nat (length line_starts))) /\
  (forall o1 o2 n1 n2, (o1 <= o2)%Z ->
     offset_to_line line_starts o1 = Some n1 ->
     offset_to_line line_starts o2 = Some n2 -> (n1 <= n2)%Z).
Proof.
  intros line_starts.
  assert (Hlen : length line_starts = S (count_nl text))
    by apply line_starts_length.
  assert (Hneg : forall offset, (offset < 0)%Z ->
            offset_to_line line_starts offset = Some 1%Z).
  { intros offset Ho. unfold offset_to_line.
    apply offset_to_line_loop_below; try lia.
    unfold line_starts. rewrite build_line_starts_eq.
    constructor; [lia|].
    eapply Forall_impl; [|apply (starts_from_gt 0 text)].
    cbv beta. intros; lia. }
  assert (Hpos : forall offset, (0 <= offset)%Z ->
            offset_to_line line_starts offset
            = Some (Z.of_nat (S (count_nl (firstn (Z.to_nat offset) text))))).
  { intros offset Ho.
    pose proof (offset_to_line_count text (Z.to_nat offset)) as Hc.
    rewrite Z2Nat.id in Hc by lia. exact Hc. }
  split; [|split; [exact Hneg|split]].
  - intros offset. destruct (Z.lt_ge_cases offset 0) as [Ho|Ho].
    + exists 1%Z. split; [apply Hneg; exact Ho | lia].
    + eexists. split; [apply Hpos; exact Ho|].
      pose proof (count_nl_firstn_total text (Z.to_nat offset)). lia.
  - intros offset Ho. rewrite Hpos by lia.
    rewrite firstn_all2 by lia. rewrite Hlen. reflexivity.
  - intros o1 o2 n1 n2 Hle H1 H2.
    destruct (Z.lt_ge_cases o1 0) as [Ho1|Ho1].
    + rewrite Hneg in H1 by exact Ho1. injection H1 as <-.
      destruct (Z.lt_ge_cases o2 0) as [Ho2|Ho2].
      * rewrite Hneg in H2 by exact Ho2. injection H2 as <-. lia.
      * rewrite Hpos in H2 by exact Ho2. injection H2 as <-. lia.
    + rewrite Hpos in H1 by exact Ho1. rewrite Hpos in H2 by lia.
      injection H1 as <-. injection H2 as <-.
      pose proof (@count_nl_firstn_le text (Z.to_nat o1) (Z.to_nat o2)). lia.
Qed.

(** X5 on a three-line text, below and past its ends. *)
Lemma X5_offset_to_line_any_offset_witness :
  offset_to_line (build_line_starts c2_text) (-3) = Some 1%Z /\
  offset_to_line (build_line_starts c2_text) 100 = Some 3%Z.
Proof.
  destruct (X5_offset_to_line_any_offset c2_text) as (_ & Hneg & Hpast & _).
  split.
  - apply Hneg. reflexivity.
  - apply (Hpast 100%Z). vm_compute. discriminate.
Defined.

(** X6.  An opening line the pattern does not accept opens nothing: a
    character after the tag that is neither a newline nor a colon (a
    trailing blank after the language, for instance), or a colon with no
    hint after it. *)
Theorem X6_rejected_openings :
  (forall text i ms ws tag c rest,
     finditer fence_re text = Some ms ->
     skipn i text = lit "```" ++ ws ++ tag ++ c :: rest ->
     forallb space_or_tab ws = true -> forallb lang_char tag = true ->
     lang_char c = false -> N.eqb c NL = false -> N.eqb c COLON = false ->
     (tag = [] -> space_or_tab c = false) ->
     Forall (fun m => m_start m <> i) ms) /\
  (forall text i ms ws tag rest,
     finditer fence_re text = Some ms ->
     skipn i text = lit "```" ++ ws ++ tag ++ lit ":" ++ rest ->
     forallb space_or_tab ws = true -> forallb lang_char tag = true ->
     startswith rest [NL] = true \/ rest = [] ->
     Forall (fun m => m_start m <> i) ms).
Proof.
  assert (Hfail : forall text i ms,
            finditer fence_re text = Some ms ->
            fence_parse i (skipn i text) = None ->
            Forall (fun m => m_start m <> i) ms).
  { intros text i ms Hms Hnone.
    apply finditer_scans in Hms. apply scans_matches in Hms.
    eapply Forall_impl; [|exact Hms]. cbv beta.
    intros m (q & _ & Hm) Hi.
    rewrite (match_at_start _ _ _ Hm) in Hi. subst q.
    unfold match_at in Hm. rewrite fence_run, Hnone in Hm. discriminate. }
  assert (Hblank : forall tag c rest,
            forallb lang_char tag = true ->
            (tag = [] -> space_or_tab c = false) ->
            match tag ++ c :: rest with
            | x :: _ => space_or_tab x = false
            | [] => True
            end).
  { intros tag c rest Htag Hc. destruct tag as [|x tag]; [apply Hc; reflexivity|].
    simpl in Htag. apply andb_true_iff in Htag as [Hx _]. simpl.
    destruct (space_or_tab x) eqn:E; [|reflexivity].
    apply space_or_tab_plain in E as [E _]. congruence. }
  split.
  - intros text i ms ws tag c rest Hms Hs Hws Htag Hc Hnl Hcol Hb.
    apply (Hfail text i ms Hms). rewrite Hs, lit_ticks3.
    unfold fence_parse. cbn [TICKS3 app startswith skipn].
    rewrite !N.eqb_refl. cbn [andb].
    rewrite (@run_len_app_stop space_or_tab ws _ Hws (Hblank tag c rest Htag Hb)).
    rewrite skipn_app_length.
    rewrite (@run_len_app_stop lang_char tag (c :: rest) Htag Hc).
    rewrite skipn_app_length, Hnl, Hcol. reflexivity.
  - intros text i ms ws tag rest Hms Hs Hws Htag Hrest.
    apply (Hfail text i ms Hms). rewrite Hs, lit_ticks3.
    change (lit ":" ++ rest) with (COLON :: rest).
    unfold fence_parse. cbn [TICKS3 app startswith skipn].
    rewrite !N.eqb_refl. cbn [andb].
    rewrite (@run_len_app_stop space_or_tab ws _ Hws
               (Hblank tag COLON rest Htag ltac:(reflexivity))).
    rewrite skipn_app_length.
    rewrite (@run_len_app_stop lang_char tag (COLON :: rest) Htag eq_refl).
    rewrite skipn_app_length.
    change (N.eqb COLON NL) with false. change (N.eqb COLON COLON) with true.
    cbv iota.
    destruct Hrest as [Hr | ->]; [|reflexivity].
    destruct rest as [|x rest]; [discriminate|].
    cbn [startswith] in Hr. rewrite andb_true_r in Hr.
    apply N.eqb_eq in Hr. subst x. reflexivity.
Qed.

(** X6 on an opening with a blank after the tag and on one with an empty
    hint. *)
Lemma X6_rejected_openings_witness :
  (exists ms, finditer fence_re x6_trailing_blank = Some ms /\
              Forall (fun m => m_start m <> 0) ms) /\
  (exists ms, finditer fence_re x6_empty_hint = Some ms /\
              Forall (fun m => m_start m <> 0) ms).
Proof.
  destruct X6_rejected_openings as (Hjunk & Hcolon). split.
  - destruct (finditer_total fence_re x6_trailing_blank) as [ms Hms].
    exists ms. split; [exact Hms|].
    apply (Hjunk x6_trailing_blank 0 ms [] (lit "python") SPACE
             ([NL] ++ lit "x = 1" ++ [NL] ++ lit "```") Hms);
      try reflexivity.
    discriminate.
  - destruct (finditer_total fence_re x6_empty_hint) as [ms Hms].
    exists ms. split; [exact Hms|].
    apply (Hcolon x6_empty_hint 0 ms [] (lit "py")
             ([NL] ++ lit "x = 1" ++ [NL] ++ lit "```") Hms);
      try reflexivity.
    left. reflexivity.
Defined.

(** * Further properties of [extract_tables] *)

Section TableFacts.

Lemma In_dropwhile p (s : str) c : In c (dropwhile p s) -> In c s.
Proof.
  destruct (dropwhile_split p s) as (l1 & Hs & _). intros H.
  rewrite Hs. apply in_or_app. right. exact H.
Qed.

Lemma In_strip_with p (s : str) c :
  In c (rstrip_with p (lstrip_with p s)) -> In c s.
Proof.
  unfold rstrip_with, lstrip_with. intros H.
  apply in_rev, In_dropwhile, in_rev, In_dropwhile in H. exact H.
Qed.

Lemma In_strip (s : str) c : In c (strip s) -> In c s.
Proof. apply In_strip_with. Qed.

Lemma In_strip_chars chars (s : str) c : In c (strip_chars chars s) -> In c s.
Proof. apply In_strip_with. Qed.

(** The parts of a split hold no separator and only characters of the
    string. *)
Lemma split_parts sep s x :
  In x (split sep s) -> ~ In sep x /\ (forall c, In c x -> In c s).
Proof.
  revert x; induction s as [|c s IH]; intros x; simpl.
  - intros [<-|[]]. split; [intros [] | intros c []].
  - destruct (N.eqb_spec c sep) as [->|Hne].
    + intros [<-|Hx]; [split; [intros [] | intros c []]|].
      destruct (IH x Hx) as [H1 H2]. split; [exact H1|].
      intros c Hc. right. apply H2; exact Hc.
    + destruct (split sep s) as [|cell cells] eqn:E.
      * intros [<-|[]]. split.
        -- intros [H|[]]. congruence.
        -- intros c' [<-|[]]. left; reflexivity.
      * intros [<-|Hx].
        -- destruct (IH cell (or_introl eq_refl)) as [H1 H2]. split.
           ++ intros [H|H]; [congruence | exact (H1 H)].
           ++ intros c' [<-|Hc]; [left; reflexivity | right; apply H2; exact Hc].
        -- destruct (IH x (or_intror Hx)) as [H1 H2]. split; [exact H1|].
           intros c' Hc. right. apply H2; exact Hc.
Qed.

(** The lines of [splitlines] hold no line boundary and only characters of
    the text. *)
Lemma splitlines_from_chars : forall s f cur l c,
  (forall x, In x cur -> is_linebreak x = false) ->
  In l (splitlines_from f cur s) -> In c l ->
  is_linebreak c = false /\ (In c cur \/ In c s).
Proof.
  induction s as [|x s IH]; intros f cur l c Hcur Hl Hc.
  - cbn [splitlines_from] in Hl. destruct cur as [|y cur]; [destruct Hl|].
    destruct Hl as [<-|[]]. apply in_rev in Hc.
    split; [apply Hcur; exact Hc | left; exact Hc].
  - cbn [splitlines_from] in Hl.
    destruct (f && N.eqb x NL).
    + destruct (IH false [] l c ltac:(intros ? []) Hl Hc) as [H1 [[]|H2]].
      split; [exact H1 | right; right; exact H2].
    + destruct (is_linebreak x) eqn:E.
      * destruct Hl as [<-|Hl].
        -- apply in_rev in Hc. split; [apply Hcur; exact Hc | left; exact Hc].
        -- destruct (IH (N.eqb x CR) [] l c ltac:(intros ? []) Hl Hc)
             as [H1 [[]|H2]].
           split; [exact H1 | right; right; exact H2].
      * assert (Hcur' : forall y, In y (x :: cur) -> is_linebreak y = false).
        { intros y [<-|Hy]; [exact E | apply Hcur; exact Hy]. }
        destruct (IH false (x :: cur) l c Hcur' Hl Hc) as [H1 [[<-|H2]|H2]].
        -- split; [exact H1 | right; left; reflexivity].
        -- split; [exact H1 | left; exact H2].
        -- split; [exact H1 | right; right; exact H2].
Qed.

Lemma splitlines_chars text l c :
  In l (splitlines text) -> In c l ->
  is_linebreak c = false /\ In c text.
Proof.
  intros Hl Hc.
  destruct (@splitlines_from_chars text false [] l c ltac:(intros ? []) Hl Hc)
    as [H1 [[]|H2]]. auto.
Qed.

Lemma table_line_has_pipe l : table_line l = true -> In PIPE l.
Proof.
  unfold table_line, is_table_line. intros H.
  apply andb_true_iff in H as [H _]. change (lit "|") with [PIPE] in H.
  apply startswith_spec in H as (t & Ht).
  apply In_strip. rewrite Ht. left; reflexivity.
Qed.

Lemma walk_no_tables : forall ls i,
  Forall (fun l => table_line l = false) ls -> walk i ls None = [].
Proof.
  induction ls as [|l ls IH]; intros i H; [reflexivity|].
  inversion H as [|? ? Hl Hls]; subst.
  cbn [walk]. rewrite Hl. cbn [close_run app]. apply IH; exact Hls.
Qed.

Lemma rows_of_app a b : rows_of (a ++ b) = rows_of a ++ rows_of b.
Proof. unfold rows_of. rewrite filter_app, map_app. reflexivity. Qed.

(** All the rows of all the tables, in order, are the rows of all the
    candidate lines. *)
Lemma walk_concat : forall ls i cur,
  concat (map occ_rows (walk i ls cur))
  = rows_of (match cur with Some (_, raw) => raw | None => [] end
             ++ filter is_table_line (map strip ls)).
Proof.
  assert (Hclose : forall i cur,
    concat (map occ_rows (close_run cur i))
    = rows_of (match cur with Some (_, raw) => raw | None => [] end)).
  { intros i [[first raw]|]; [|reflexivity]. unfold close_run.
    destruct (rows_of raw) as [|row rows]; [reflexivity|].
    cbn [map occ_rows concat]. apply app_nil_r. }
  induction ls as [|l ls IH]; intros i cur.
  - cbn [walk map filter]. rewrite app_nil_r. apply Hclose.
  - cbn [walk map filter]. fold (table_line l).
    destruct (table_line l).
    + rewrite IH. destruct cur as [[first raw]|]; cbn [extend_run].
      * rewrite <- app_assoc. reflexivity.
      * reflexivity.
    + rewrite map_app, concat_app, Hclose, IH, <- rows_of_app. reflexivity.
Qed.

Lemma splitlines_from_snoc_nl : forall s f cur,
  (f = true -> cur = []) ->
  splitlines_from f cur (s ++ [NL]) = splitlines_from f cur s \/
  splitlines_from f cur (s ++ [NL]) = splitlines_from f cur s ++ [[]].
Proof.
  induction s as [|c s IH]; intros f cur Hf.
  - cbn [app splitlines_from]. rewrite N.eqb_refl, andb_true_r.
    change (is_linebreak NL) with true.
    destruct f.
    + rewrite (Hf eq_refl). left. reflexivity.
    + destruct cur as [|x cur]; [right | left]; reflexivity.
  - cbn [app splitlines_from].
    destruct (f && N.eqb c NL); [apply IH; discriminate|].
    destruct (is_linebreak c); [|apply IH; discriminate].
    destruct (IH (N.eqb c CR) [] ltac:(reflexivity)) as [-> | ->];
      [left | right]; reflexivity.
Qed.

End TableFacts.

(** X7.  A text without a pipe character has no table. *)
Theorem X7_no_pipe_no_tables (text : str) :
  ~ In PIPE text -> extract_tables text = Some [].
Proof.
  intros Hno. rewrite extract_tables_walk, walk_no_tables; [reflexivity|].
  apply Forall_forall. intros l Hl.
  destruct (table_line l) eqn:E; [|reflexivity].
  exfalso. apply Hno. apply table_line_has_pipe in E.
  apply (splitlines_chars text l PIPE Hl E).
Qed.

(** X7 on two lines of prose. *)
Lemma X7_no_pipe_no_tables_witness :
  extract_tables (lit "plain text" ++ [NL] ++ lit "- item") = Some [].
Proof.
  apply X7_no_pipe_no_tables. vm_compute.
  intros H; repeat (destruct H as [H|H]; [discriminate|]); exact H.
Defined.

(** X8.  Every cell of every table is trimmed, holds no pipe and no line
    boundary character. *)
Theorem X8_cells_are_clean (text : str) :
  exists tables,
    extract_tables text = Some tables /\
    forall grid row cell,
      In grid tables -> In row grid -> In cell row ->
      strip cell = cell /\ ~ In PIPE cell /\
      forallb (fun c => negb (is_linebreak c)) cell = true.
Proof.
  destruct (occurrences_spec text) as (occs & _ & Hext & Hgood & _ & _).
  exists (map occ_rows occs). split; [exact Hext|].
  intros grid row cell Hgrid Hrow Hcell.
  apply in_map_iff in Hgrid as (o & <- & Ho).
  rewrite Forall_forall in Hgood. destruct (Hgood o Ho) as (_ & Hrows & _).
  rewrite Hrows in Hrow. unfold rows_of in Hrow.
  apply in_map_iff in Hrow as (r & <- & Hr).
  apply filter_In in Hr as [Hr _].
  apply run_text_in in Hr as (j & l & _ & Hl & ->).
  unfold cells_of in Hcell. apply in_map_iff in Hcell as (x & <- & Hx).
  apply split_parts in Hx as [Hnosep Hsub].
  split; [apply strip_idempotent|]. split.
  - intros H. apply Hnosep. apply In_strip. exact H.
  - apply forallb_forall. intros c Hc.
    apply In_strip, Hsub, In_strip_chars, In_strip in Hc.
    apply nth_error_In in Hl.
    destruct (splitlines_chars text l c Hl Hc) as [-> _]. reflexivity.
Qed.

(** X9.  Read one after the other, the rows of all the tables are the cell
    lists of all the candidate lines that are not separator-like, in the
    order of the document: no such line is lost, repeated or moved. *)
Theorem X9_rows_are_the_data_lines (text : str) :
  exists tables,
    extract_tables text = Some tables /\
    concat tables
    = map cells_of
        (filter (fun r => is_table_line r && negb (separator_like r))
           (map strip (splitlines text))).
Proof.
  eexists. split; [apply extract_tables_walk|].
  rewrite walk_concat. cbn [app]. unfold rows_of. f_equal.
  induction (map strip (splitlines text)) as [|r rs IH]; [reflexivity|].
  cbn [filter]. destruct (is_table_line r) eqn:E; cbn [andb filter].
  - rewrite sep_re_spec, (is_table_line_nonempty _ E). cbn [andb].
    destruct (separator_like r); cbn [negb]; [exact IH | f_equal; exact IH].
  - exact IH.
Qed.

(** X10.  A newline added at the end of the text changes no table. *)
Theorem X10_final_newline (text : str) :
  extract_tables (text ++ [NL]) = extract_tables text.
Proof.
  rewrite !extract_tables_walk. f_equal. unfold splitlines.
  destruct (@splitlines_from_snoc_nl text false [] ltac:(discriminate))
    as [-> | ->]; [reflexivity|].
  rewrite walk_app_gap by reflexivity.
  cbn [walk close_run map]. apply app_nil_r.
Qed.


(** * The file writer *)

Section PyFacts.

Lemma str_eqb_eq (a b : str) : str_eqb a b = true <-> a = b.
Proof.
  revert b; induction a as [|x a IH]; intros [|y b]; simpl;
    try (split; [discriminate | discriminate]); [split; reflexivity|].
  rewrite andb_true_iff, N.eqb_eq, IH. split.
  - intros [-> ->]; reflexivity.
  - intros H; injection H as -> ->; auto.
Qed.

Lemma str_eqb_refl (a : str) : str_eqb a a = true.
Proof. apply str_eqb_eq. reflexivity. Qed.

Lemma str_eqb_neq (a b : str) : a <> b -> str_eqb a b = false.
Proof.
  intros H. destruct (str_eqb a b) eqn:E; [|reflexivity].
  apply str_eqb_eq in E. contradiction.
Qed.

Lemma N_of_ascii_inj (a b : ascii) : N_of_ascii a = N_of_ascii b -> a = b.
Proof.
  intros H. rewrite <- (ascii_N_embedding a), <- (ascii_N_embedding b), H.
  reflexivity.
Qed.

Lemma lit_inj (a b : string) : lit a = lit b -> a = b.
Proof.
  unfold lit. intros H.
  rewrite <- (string_of_list_ascii_of_string a),
          <- (string_of_list_ascii_of_string b).
  f_equal. revert H.
  generalize (list_ascii_of_string a) (list_ascii_of_string b).
  induction l as [|x l IH]; intros [|y l']; simpl; try discriminate; auto.
  intros H. injection H as Hx Hl. f_equal; [apply N_of_ascii_inj; exact Hx|].
  apply IH; exact Hl.
Qed.

(** Different integers print differently. *)
Lemma str_of_int_inj (a b : Z) : str_of_int a = str_of_int b -> a = b.
Proof.
  unfold str_of_int. intros H. apply lit_inj in H.
  apply DecimalZ.to_int_inj.
  assert (Hnil : forall z, Z.to_int z <> Decimal.Pos Decimal.Nil /\
                           Z.to_int z <> Decimal.Neg Decimal.Nil).
  { intros [|p|p]; simpl; split; try discriminate;
      intros E; injection E as E;
      apply (DecimalPos.Unsigned.to_uint_nonnil p E). }
  pose proof (DecimalString.NilZero.isi (Z.to_int a)
                (proj1 (Hnil a)) (proj2 (Hnil a))) as Ha.
  pose proof (DecimalString.NilZero.isi (Z.to_int b)
                (proj1 (Hnil b)) (proj2 (Hnil b))) as Hb.
  rewrite H in Ha. congruence.
Qed.

Lemma string_of_uint_digits (d : Decimal.uint) :
  forallb digit_or_minus (lit (DecimalString.NilEmpty.string_of_uint d)) = true.
Proof. induction d; simpl; auto. Qed.

Lemma str_of_int_digits (n : Z) : forallb digit_or_minus (str_of_int n) = true.
Proof.
  unfold str_of_int.
  assert (Hu : forall d,
    forallb digit_or_minus (lit (DecimalString.NilZero.string_of_uint d)) = true).
  { intros d. destruct d; try apply string_of_uint_digits. reflexivity. }
  destruct (Z.to_int n) as [d|d]; simpl.
  - apply Hu.
  - change (lit (String "-" (DecimalString.NilZero.string_of_uint d)))
      with (DASH :: lit (DecimalString.NilZero.string_of_uint d)).
    simpl. apply Hu.
Qed.

Lemma str_of_int_not_in (n : Z) (c : char) :
  digit_or_minus c = false -> ~ In c (str_of_int n).
Proof.
  intros Hc Hin. pose proof (str_of_int_digits n) as H.
  rewrite forallb_forall in H. rewrite (H c Hin) in Hc. discriminate.
Qed.

End PyFacts.

Section PathFacts.

Lemma app_split_at (c : char) (a b x y : str) :
  ~ In c a -> ~ In c b -> a ++ c :: x = b ++ c :: y -> a = b /\ x = y.
Proof.
  revert b. induction a as [|p a IH]; intros [|q b] Ha Hb H; simpl in *.
  - injection H as ->. auto.
  - injection H as H1 H2. exfalso. apply Hb. left. symmetry. exact H1.
  - injection H as H1 H2. exfalso. apply Ha. left. exact H1.
  - injection H as H1 H2. subst q.
    destruct (IH b) as [-> ->]; auto.
Qed.

Lemma rfind_none (c : char) (s : str) : rfind c s = None <-> ~ In c s.
Proof.
  induction s as [|x s IH]; simpl.
  - split; auto.
  - destruct (rfind c s) as [i|].
    + split; [discriminate|]. intros H. exfalso.
      assert (Hs : ~ In c s) by (intros Hin; apply H; right; exact Hin).
      apply IH in Hs. discriminate.
    + destruct (N.eqb_spec x c) as [->|Hne].
      * split; [discriminate|]. intros H. exfalso. apply H. left; reflexivity.
      * split; [|reflexivity]. intros _ [H|H]; [contradiction|].
        apply (proj1 IH eq_refl H).
Qed.

Lemma rfind_app (c : char) (a b : str) :
  ~ In c b -> rfind c (a ++ c :: b) = Some (length a).
Proof.
  intros Hb. induction a as [|x a IH]; simpl.
  - rewrite (proj2 (rfind_none c b) Hb), N.eqb_refl. reflexivity.
  - rewrite IH. reflexivity.
Qed.

Lemma rfind_some (c : char) (s : str) (i : nat) :
  rfind c s = Some i ->
  exists a b, s = a ++ c :: b /\ length a = i /\ ~ In c b.
Proof.
  revert i. induction s as [|x s IH]; simpl; intros i H; [discriminate|].
  destruct (rfind c s) as [j|] eqn:E.
  - injection H as <-. destruct (IH j eq_refl) as (a & b & -> & Hl & Hb).
    exists (x :: a), b. simpl. auto.
  - destruct (N.eqb_spec x c) as [->|Hne]; [|discriminate].
    injection H as <-. exists [], s. simpl.
    split; [reflexivity|]. split; [reflexivity|]. apply rfind_none. exact E.
Qed.

(** A name made of a non-empty stem, a dot and a non-empty dot-free rest
    splits there. *)
Lemma path_split (a rest : str) :
  a <> [] -> rest <> [] -> ~ In DOT rest ->
  path_suffix (a ++ DOT :: rest) = DOT :: rest /\
  path_stem (a ++ DOT :: rest) = a.
Proof.
  intros Ha Hr Hd. unfold path_suffix, path_stem.
  rewrite (@rfind_app DOT a rest Hd).
  assert (H : Nat.ltb 0 (length a)
              && Nat.ltb (length a) (length (a ++ DOT :: rest) - 1) = true).
  { rewrite length_app. simpl length.
    destruct a; [contradiction|]. destruct rest; [contradiction|].
    simpl length. apply andb_true_iff. split; apply Nat.ltb_lt; lia. }
  rewrite H. split.
  - rewrite skipn_app, skipn_all, Nat.sub_diag. reflexivity.
  - rewrite firstn_app, firstn_all, Nat.sub_diag. simpl. apply app_nil_r.
Qed.

Lemma path_suffix_inv (n : str) :
  path_suffix n <> [] ->
  exists rest,
    path_suffix n = DOT :: rest /\ rest <> [] /\ ~ In DOT rest /\
    path_stem n <> [] /\ n = path_stem n ++ DOT :: rest.
Proof.
  unfold path_suffix, path_stem.
  destruct (rfind DOT n) as [i|] eqn:E; [|intros H; contradiction].
  destruct (@rfind_some DOT n i E) as (a & b & Hn & Hl & Hb).
  destruct (Nat.ltb 0 i && Nat.ltb i (length n - 1)) eqn:C;
    [|intros H; contradiction].
  intros _. apply andb_true_iff in C as [C1 C2].
  apply Nat.ltb_lt in C1, C2.
  assert (Hs : skipn i n = DOT :: b).
  { rewrite Hn, <- Hl, skipn_app, skipn_all, Nat.sub_diag. reflexivity. }
  assert (Hf : firstn i n = a).
  { rewrite Hn, <- Hl, firstn_app, firstn_all, Nat.sub_diag. simpl.
    apply app_nil_r. }
  exists b. rewrite Hs, Hf. split; [reflexivity|].
  split.
  - intros ->. rewrite Hn, length_app in C2. simpl in C2. lia.
  - split; [exact Hb|]. split; [|exact Hn].
    intros ->. simpl in Hl. lia.
Qed.

Lemma path_stem_suffix (n : str) : path_stem n ++ path_suffix n = n.
Proof.
  unfold path_stem, path_suffix.
  destruct (rfind DOT n) as [i|]; [|apply app_nil_r].
  destruct (Nat.ltb 0 i && Nat.ltb i (length n - 1));
    [apply firstn_skipn | apply app_nil_r].
Qed.

Lemma candidate_underscore (stem sfx : str) (k : Z) :
  In UNDERSCORE (candidate stem sfx k).
Proof.
  unfold candidate. apply in_or_app. right.
  change (lit "_") with [UNDERSCORE]. left. reflexivity.
Qed.

Lemma candidate_inj (stem sfx : str) (a b : Z) :
  candidate stem sfx a = candidate stem sfx b -> a = b.
Proof.
  unfold candidate. intros H.
  apply app_inv_head in H. apply app_inv_head in H.
  apply app_inv_tail in H. apply str_of_int_inj. exact H.
Qed.

Lemma underscore_name (n : str) :
  In UNDERSCORE n ->
  str_eqb n [] = false /\ str_eqb n (lit ".") = false /\
  str_eqb n (lit "..") = false.
Proof.
  intros H.
  split; [|split]; apply str_eqb_neq; intros ->; simpl in H;
    repeat (destruct H as [H|H]; [discriminate H|]); exact H.
Qed.

Lemma joinpath_candidate (stem sfx : str) (k : Z) :
  joinpath (candidate stem sfx k) = Child (candidate stem sfx k).
Proof.
  unfold joinpath.
  destruct (@underscore_name _ (candidate_underscore stem sfx k))
    as (H1 & H2 & _).
  rewrite H1, H2. reflexivity.
Qed.

End PathFacts.

Section Dedup.

Variable accepts : str -> bool.
Variable entries : directory.
Variables stem sfx : str.

Lemma listed_In (es : directory) (n : str) :
  listed es n = true <-> In n (map fst es).
Proof.
  unfold listed. rewrite existsb_exists, in_map_iff. split.
  - intros (e & He & Hn). apply str_eqb_eq in Hn. exists e. auto.
  - intros (e & Hn & He). exists e. split; [exact He|].
    apply str_eqb_eq. auto.
Qed.

Lemma listed_app (a b : directory) (n : str) :
  listed (a ++ b) n = listed a n || listed b n.
Proof. unfold listed. apply existsb_app. Qed.

Lemma dest_exists_candidate (k : Z) :
  dest_exists accepts entries (joinpath (candidate stem sfx k))
  = if accepts (candidate stem sfx k)
    then Some (listed entries (candidate stem sfx k)) else None.
Proof.
  rewrite joinpath_candidate. unfold dest_exists.
  destruct (@underscore_name _ (candidate_underscore stem sfx k))
    as (_ & _ & H).
  rewrite H. reflexivity.
Qed.

(** Among [length entries + 1] successive candidates one is not in the
    listing. *)
Lemma free_candidate (dup : Z) :
  exists m, m <= length entries /\
            listed entries (candidate stem sfx (dup + Z.of_nat m)) = false.
Proof.
  assert (Hsearch : forall n,
    (exists m, m < n /\
               listed entries (candidate stem sfx (dup + Z.of_nat m)) = false)
    \/ (forall m, m < n ->
               listed entries (candidate stem sfx (dup + Z.of_nat m)) = true)).
  { induction n as [|n [IH|IH]].
    - right. intros m Hm. lia.
    - left. destruct IH as (m & Hm & H). exists m. split; [lia|exact H].
    - destruct (listed entries (candidate stem sfx (dup + Z.of_nat n))) eqn:E.
      + right. intros m Hm.
        destruct (Nat.eq_dec m n) as [->|Hne]; [exact E|]. apply IH. lia.
      + left. exists n. split; [lia|exact E]. }
  destruct (Hsearch (S (length entries))) as [(m & Hm & H)|Hall].
  - exists m. split; [lia|exact H].
  - exfalso.
    set (f := fun m : nat => candidate stem sfx (dup + Z.of_nat m)).
    assert (Hnd : NoDup (map f (seq 0 (S (length entries))))).
    { apply Finite.Injective_map_NoDup; [|apply seq_NoDup].
      intros a b Hab. unfold f in Hab. apply candidate_inj in Hab. lia. }
    assert (Hincl : incl (map f (seq 0 (S (length entries))))
                         (map fst entries)).
    { intros n Hn. apply in_map_iff in Hn as (m & <- & Hm).
      apply in_seq in Hm. apply listed_In. apply Hall. lia. }
    pose proof (NoDup_incl_length Hnd Hincl) as Hlen.
    rewrite !length_map, length_seq in Hlen. lia.
Qed.

Lemma dest_at_next (dest : dest_path) (dup : Z) (m : nat) :
  dest_at stem sfx (joinpath (candidate stem sfx dup)) (dup + 1) m
  = dest_at stem sfx dest dup (S m).
Proof.
  destruct m as [|m]; simpl.
  - rewrite Z.add_0_r. reflexivity.
  - do 2 f_equal. lia.
Qed.

(** Once the loop meets a path that does not exist, or one that is
    refused, more fuel changes nothing. *)
Lemma dedup_at (m : nat) :
  forall dest dup f1 f2,
    m < f1 -> m < f2 ->
    dest_exists accepts entries (dest_at stem sfx dest dup m) <> Some true ->
    dedup accepts f1 entries stem sfx dest dup
    = dedup accepts f2 entries stem sfx dest dup.
Proof.
  induction m as [|m IH]; intros dest dup f1 f2 H1 H2 Hstop;
    (destruct f1 as [|f1]; [lia|]); (destruct f2 as [|f2]; [lia|]);
    cbn [dedup].
  - cbn [dest_at] in Hstop.
    destruct (dest_exists accepts entries dest) as [[|]|];
      [contradiction | reflexivity | reflexivity].
  - destruct (dest_exists accepts entries dest) as [[|]|];
      [|reflexivity|reflexivity].
    cbn [bind]. apply IH; [lia|lia|].
    rewrite (dest_at_next dest). exact Hstop.
Qed.

(** The [while] loop ends within [length entries + 2] tests. *)
Lemma dedup_fuel (dest : dest_path) (dup : Z) (fuel : nat) :
  S (S (length entries)) <= fuel ->
  dedup accepts fuel entries stem sfx dest dup
  = dedup accepts (S (S (length entries))) entries stem sfx dest dup.
Proof.
  intros Hf. destruct (free_candidate dup) as (m & Hm & Hfree).
  apply (@dedup_at (S m)); [lia|lia|].
  cbn [dest_at]. rewrite dest_exists_candidate, Hfree.
  destruct (accepts _); discriminate.
Qed.

Lemma dedup_some (m : nat) :
  (forall n, accepts n = true) ->
  forall dest dup f,
    m < f ->
    dest_exists accepts entries (dest_at stem sfx dest dup m) = Some false ->
    exists d, dedup accepts f entries stem sfx dest dup = Some d.
Proof.
  intros Hacc.
  assert (Hex : forall d, dest_exists accepts entries d <> None).
  { intros [|n]; simpl; [discriminate|].
    destruct (str_eqb n (lit "..")); [discriminate|].
    rewrite Hacc. discriminate. }
  induction m as [|m IH]; intros dest dup f Hf Hfree;
    (destruct f as [|f]; [lia|]); cbn [dedup].
  - cbn [dest_at] in Hfree. rewrite Hfree. cbn [bind]. eauto.
  - destruct (dest_exists accepts entries dest) as [[|]|] eqn:E.
    + cbn [bind]. apply IH; [lia|].
      rewrite (dest_at_next dest). exact Hfree.
    + cbn [bind]. eauto.
    + exfalso. apply (Hex dest E).
Qed.

Lemma dedup_total (dest : dest_path) (dup : Z) :
  (forall n, accepts n = true) ->
  exists d,
    dedup accepts (S (S (length entries))) entries stem sfx dest dup = Some d.
Proof.
  intros Hacc. destruct (free_candidate dup) as (m & Hm & Hfree).
  apply (@dedup_some (S m) Hacc); [lia|].
  cbn [dest_at]. rewrite dest_exists_candidate, Hfree, Hacc. reflexivity.
Qed.

(** What the loop returns does not exist; it is the first path, or the
    first candidate that is not in the listing. *)
Lemma dedup_spec (fuel : nat) :
  forall dest dup d,
    dedup accepts fuel entries stem sfx dest dup = Some d ->
    dest_exists accepts entries d = Some false /\
    (d = dest \/
     dest_exists accepts entries dest = Some true /\
     exists k, (dup <= k)%Z /\ d = Child (candidate stem sfx k) /\
               forall j, (dup <= j < k)%Z ->
                         listed entries (candidate stem sfx j) = true).
Proof.
  induction fuel as [|fuel IH]; intros dest dup d H; [discriminate|].
  cbn [dedup] in H.
  destruct (dest_exists accepts entries dest) as [[|]|] eqn:E;
    cbn [bind] in H; [| |discriminate].
  - destruct (IH _ _ _ H) as (Hd & Hcase). split; [exact Hd|]. right.
    split; [reflexivity|].
    destruct Hcase as [->|(Hex & k & Hk & -> & Hall)].
    + exists dup. split; [lia|]. split; [apply joinpath_candidate|].
      intros j Hj. lia.
    + exists k. split; [lia|]. split; [reflexivity|].
      intros j Hj. destruct (Z.eq_dec j dup) as [->|Hne].
      * rewrite dest_exists_candidate in Hex.
        destruct (accepts (candidate stem sfx dup)); [|discriminate].
        injection Hex as Hex. exact Hex.
      * apply Hall. lia.
  - injection H as <-. split; [exact E|]. left. reflexivity.
Qed.

End Dedup.

Section Save.

Variable accepts : str -> bool.
Variable out_name : str.

Lemma put_fresh (entries : directory) (n text : str) :
  listed entries n = false -> put entries n text = entries ++ [(n, text)].
Proof.
  induction entries as [|[k v] es IH]; simpl; intros H; [reflexivity|].
  apply orb_false_iff in H as [H1 H2]. rewrite H1, IH by exact H2.
  reflexivity.
Qed.

Lemma utf8_encodable_sub (a b : str) :
  (forall c, In c a -> In c b) ->
  utf8_encodable b = true -> utf8_encodable a = true.
Proof.
  unfold utf8_encodable. rewrite !forallb_forall. auto.
Qed.

(** A path that does not exist is a name under [out_dir] that is taken by
    the file system and is not in the listing. *)
Lemma not_exists_inv (entries : directory) (d : dest_path) :
  dest_exists accepts entries d = Some false ->
  exists n, d = Child n /\ str_eqb n (lit "..") = false /\
            accepts n = true /\ listed entries n = false.
Proof.
  destruct d as [|n]; simpl; [discriminate|].
  destruct (str_eqb n (lit "..")) eqn:E1; [discriminate|].
  destruct (accepts n) eqn:E2; [|discriminate].
  intros H; injection H as H. exists n. auto.
Qed.

(** One block: the file written is new, and nothing else changes. *)
Lemma save_block_inv (b : block) (entries entries' : directory)
    (row : saved_row) :
  save_block accepts out_name b entries = Some (entries', row) ->
  exists text,
    code b = Some text /\ utf8_encodable text = true /\
    accepts (s_name row) = true /\
    listed entries (s_name row) = false /\
    entries' = entries ++ [(s_name row, text)] /\
    s_line row = line_no b /\
    (dest_exists accepts entries (joinpath (fname_of b)) = Some false ->
     s_name row = fname_of b).
Proof.
  unfold save_block.
  destruct (dedup _ _ _ _ _ _ _) as [d|] eqn:D; cbn [bind]; [|discriminate].
  destruct (dedup_spec _ _ _ _ _ _ _ D) as (Hd & Hcase).
  destruct (not_exists_inv _ _ Hd) as (n & -> & Hdd & Hacc & Hfree).
  destruct (code b) as [text|] eqn:C; cbn [write_text bind];
    [|discriminate].
  rewrite Hdd, Hacc. cbn [andb].
  destruct (utf8_encodable text) eqn:U; cbn [bind]; [|discriminate].
  intros H; injection H as <- <-. cbn [s_name s_line dest_name].
  exists text. rewrite (@put_fresh entries n text Hfree).
  repeat (split; [auto; fail|]).
  intros Hfirst.
  destruct Hcase as [Hsame|(Hex & _)]; [|congruence].
  unfold joinpath in Hsame.
  destruct (str_eqb (fname_of b) [] || str_eqb (fname_of b) (lit "."));
    [discriminate|].
  injection Hsame as ->. reflexivity.
Qed.

Lemma save_block_first (b : block) (entries : directory) (text : str) :
  dest_exists accepts entries (joinpath (fname_of b)) = Some false ->
  code b = Some text -> utf8_encodable text = true ->
  exists row,
    save_block accepts out_name b entries
    = Some (entries ++ [(fname_of b, text)], row) /\
    s_name row = fname_of b.
Proof.
  intros Hfree C U. unfold save_block. cbn [dedup].
  rewrite Hfree. cbn [bind].
  destruct (not_exists_inv _ _ Hfree) as (n & Hj & Hdd & Hacc & Hl).
  assert (Hn : n = fname_of b).
  { unfold joinpath in Hj.
    destruct (str_eqb (fname_of b) [] || str_eqb (fname_of b) (lit "."));
      [discriminate|].
    injection Hj as <-. reflexivity. }
  rewrite Hj, C. cbn [write_text]. rewrite Hdd, Hacc, U. cbn [andb bind].
  rewrite (@put_fresh entries n text Hl). subst n.
  eexists. split; reflexivity.
Qed.

Lemma save_block_total (b : block) (entries : directory) (text : str) :
  (forall n, accepts n = true) ->
  code b = Some text -> utf8_encodable text = true ->
  exists r, save_block accepts out_name b entries = Some r.
Proof.
  intros Hall C U. unfold save_block.
  destruct (dedup_total accepts entries
              (path_stem (dest_name out_name (joinpath (fname_of b))))
              (path_suffix (dest_name out_name (joinpath (fname_of b))))
              (joinpath (fname_of b)) 1 Hall) as (d & D).
  rewrite D. cbn [bind].
  destruct (dedup_spec _ _ _ _ _ _ _ D) as (Hd & _).
  destruct (not_exists_inv _ _ Hd) as (n & -> & Hdd & Hacc & Hl).
  rewrite C. cbn [write_text]. rewrite Hdd, Hacc, U. cbn [andb bind].
  eauto.
Qed.

(** The loop over the blocks: every block adds one entry under a name
    that was not there, and nothing else changes. *)
Lemma save_blocks_inv (blocks : list block) :
  forall entries saved entries' saved',
    save_blocks accepts out_name blocks entries saved
    = Some (entries', saved') ->
    exists rows added,
      saved' = saved ++ rows /\ entries' = entries ++ added /\
      map fst added = map s_name rows /\
      map (fun e => Some (snd e)) added = map code blocks /\
      NoDup (map fst added) /\
      Forall (fun e => listed entries (fst e) = false /\
                       accepts (fst e) = true) added /\
      map s_line rows = map line_no blocks.
Proof.
  induction blocks as [|b rest IH]; intros entries saved entries' saved' H;
    cbn [save_blocks] in H.
  - injection H as <- <-. exists [], []. rewrite !app_nil_r.
    repeat (split; [reflexivity|]). split; [constructor|].
    split; [constructor|reflexivity].
  - destruct (save_block accepts out_name b entries) as [[e1 row]|] eqn:B;
      cbn [bind] in H; [|discriminate].
    destruct (save_block_inv _ _ B)
      as (text & C & _ & Hacc & Hfree & -> & Hline & _).
    destruct (IH _ _ _ _ H)
      as (rows & added & -> & -> & Hn & Hc & Hnd & Hall & Hl).
    exists (row :: rows), ((s_name row, text) :: added).
    rewrite <- !app_assoc. cbn [app map fst snd].
    split; [reflexivity|]. split; [reflexivity|].
    split; [f_equal; exact Hn|].
    split; [f_equal; [symmetry; exact C | exact Hc]|].
    rewrite Forall_forall in Hall.
    split; [|split].
    + constructor; [|exact Hnd].
      intros Hin. apply in_map_iff in Hin as (e & He & Hin).
      destruct (Hall e Hin) as (Hle & _).
      rewrite listed_app, He in Hle. apply orb_false_iff in Hle as (_ & Hle).
      cbn in Hle. rewrite str_eqb_refl in Hle. discriminate.
    + constructor; [cbn [fst]; auto|].
      apply Forall_forall. intros e Hin.
      destruct (Hall e Hin) as (Hle & Ha).
      rewrite listed_app in Hle. apply orb_false_iff in Hle as (Hle & _).
      auto.
    + f_equal; [exact Hline | exact Hl].
Qed.

Lemma save_blocks_total (blocks : list block) :
  (forall n, accepts n = true) ->
  Forall (fun b => exists text,
                     code b = Some text /\ utf8_encodable text = true)
         blocks ->
  forall entries saved,
    exists r, save_blocks accepts out_name blocks entries saved = Some r.
Proof.
  intros Hacc. induction 1 as [|b rest (text & C & U) _ IH];
    intros entries saved; cbn [save_blocks]; [eauto|].
  destruct (@save_block_total b entries text Hacc C U) as ([e1 row] & ->).
  cbn [bind]. apply IH.
Qed.

(** When the first names of the blocks differ from one another and none
    exists, every block is saved under its first name. *)
Lemma save_blocks_first (blocks : list block) :
  NoDup (map fname_of blocks) ->
  forall entries saved,
    Forall (fun b =>
              dest_exists accepts entries (joinpath (fname_of b))
              = Some false /\
              exists text, code b = Some text /\ utf8_encodable text = true)
           blocks ->
    exists rows added,
      save_blocks accepts out_name blocks entries saved
      = Some (entries ++ added, saved ++ rows) /\
      map s_name rows = map fname_of blocks /\
      map fst added = map fname_of blocks /\
      map (fun e => Some (snd e)) added = map code blocks.
Proof.
  induction blocks as [|b rest IH]; intros Hnd entries saved Hall;
    cbn [save_blocks].
  - exists [], []. rewrite !app_nil_r. auto.
  - inversion Hnd as [|? ? Hnotin Hnd']; subst.
    inversion Hall as [|? ? (Hfree & text & C & U) Hall']; subst.
    destruct (@save_block_first b entries text Hfree C U)
      as (row & -> & Hname).
    cbn [bind].
    destruct (IH Hnd' (entries ++ [(fname_of b, text)]) (saved ++ [row]))
      as (rows & added & -> & Hn & Ha & Hc).
    { apply Forall_forall. intros b' Hin.
      rewrite Forall_forall in Hall'. destruct (Hall' b' Hin) as (Hf' & Ht').
      split; [|exact Ht'].
      destruct (not_exists_inv _ _ Hf') as (n & Hj & Hdd & Hacc & Hl).
      assert (Hn : n = fname_of b').
      { unfold joinpath in Hj.
        destruct (str_eqb (fname_of b') []
                  || str_eqb (fname_of b') (lit ".")); [discriminate|].
        injection Hj as <-. reflexivity. }
      rewrite Hj. cbn [dest_exists]. rewrite Hdd, Hacc, listed_app, Hl.
      cbn. rewrite str_eqb_neq; [reflexivity|].
      intros E. apply Hnotin. rewrite <- E, Hn.
      apply in_map. exact Hin. }
    exists (row :: rows), ((fname_of b, text) :: added).
    rewrite <- !app_assoc. cbn [app map fst snd].
    split; [reflexivity|]. split; [f_equal; auto|].
    split; [f_equal; auto|]. f_equal; [symmetry; exact C | exact Hc].
Qed.

End Save.

Section WriterFacts.

Lemma dict_get_in (d : list (str * str)) (key default : str) :
  dict_get d key default = default \/
  In (dict_get d key default) (map snd d).
Proof.
  induction d as [|[k v] d IH]; simpl; [left; reflexivity|].
  destruct (str_eqb key k); [right; left; reflexivity|].
  destruct IH as [IH|IH]; [left; exact IH | right; right; exact IH].
Qed.

(** Every extension is a non-empty word of lower-case letters. *)
Lemma ext_of_letters (l : str) :
  forallb (in_range 97 122) (ext_of l) = true /\ ext_of l <> [].
Proof.
  assert (Hall : forallb (fun e => forallb (in_range 97 122) e && nonempty e)
                   (lit "txt" :: map snd EXT_MAP) = true) by reflexivity.
  rewrite forallb_forall in Hall.
  assert (Hin : In (ext_of l) (lit "txt" :: map snd EXT_MAP)).
  { unfold ext_of. destruct (nonempty l); [|left; reflexivity].
    destruct (dict_get_in EXT_MAP (lower l) (lit "txt")) as [->|H];
      [left; reflexivity | right; exact H]. }
  apply Hall in Hin. apply andb_true_iff in Hin as [H1 H2].
  split; [exact H1|]. intros E. rewrite E in H2. discriminate.
Qed.

Lemma ext_of_not_in (l : str) (c : char) :
  in_range 97 122 c = false -> ~ In c (ext_of l).
Proof.
  intros Hc Hin. destruct (ext_of_letters l) as [H _].
  rewrite forallb_forall in H. rewrite (H c Hin) in Hc. discriminate.
Qed.

Lemma replace_not_in (old new : char) (s : str) :
  old <> new -> ~ In old (replace old new s).
Proof.
  intros Hne Hin. unfold replace in Hin.
  apply in_map_iff in Hin as (c & Hc & _).
  destruct (N.eqb_spec c old); congruence.
Qed.

(** The name without hint, in its parts. *)
Lemma fallback_parts (b : block) :
  hintless b = true ->
  fname_of b = lit "code_line" ++ str_of_int (line_no b) ++ lit "."
               ++ ext_of (lang b) /\
  path_stem (fname_of b) = lit "code_line" ++ str_of_int (line_no b) /\
  path_suffix (fname_of b) = lit "." ++ ext_of (lang b).
Proof.
  unfold hintless, fname_of. intros H. apply negb_true_iff in H. rewrite H.
  split; [reflexivity|].
  change (lit ".") with [DOT]. cbn [app]. rewrite app_assoc.
  destruct (ext_of_letters (lang b)) as [_ Hne].
  destruct (@path_split (lit "code_line" ++ str_of_int (line_no b))
              (ext_of (lang b))) as [H1 H2]; auto.
  - discriminate.
  - apply ext_of_not_in. reflexivity.
Qed.

Lemma fallback_inj (b1 b2 : block) :
  hintless b1 = true -> hintless b2 = true ->
  fname_of b1 = fname_of b2 -> line_no b1 = line_no b2.
Proof.
  intros H1 H2 E.
  destruct (fallback_parts b1 H1) as (_ & S1 & _).
  destruct (fallback_parts b2 H2) as (_ & S2 & _).
  rewrite E, S2 in S1. apply app_inv_head in S1.
  apply str_of_int_inj. symmetry. exact S1.
Qed.

(** The first name of a block is one path component. *)
Lemma fname_of_flat (b : block) :
  fname_of b <> [] /\ ~ In SLASH (fname_of b).
Proof.
  unfold fname_of. destruct (hint b) as [|c h]; cbn [nonempty].
  - split; [discriminate|]. intros Hin.
    apply in_app_or in Hin as [Hin|Hin].
    { simpl in Hin. repeat (destruct Hin as [Hin|Hin]; [discriminate Hin|]).
      exact Hin. }
    apply in_app_or in Hin as [Hin|Hin].
    { revert Hin. apply str_of_int_not_in. reflexivity. }
    apply in_app_or in Hin as [Hin|Hin].
    { simpl in Hin. destruct Hin as [Hin|Hin]; [discriminate Hin|exact Hin]. }
    revert Hin. apply ext_of_not_in. reflexivity.
  - split; [discriminate|]. apply replace_not_in. discriminate.
Qed.

Lemma path_stem_sub (n : str) (c : char) : In c (path_stem n) -> In c n.
Proof.
  intros H. rewrite <- (path_stem_suffix n). apply in_or_app. left. exact H.
Qed.

Lemma path_suffix_sub (n : str) (c : char) : In c (path_suffix n) -> In c n.
Proof.
  intros H. rewrite <- (path_stem_suffix n). apply in_or_app. right. exact H.
Qed.

(** The blocks of a text: they are found, their line numbers grow, their
    tags are made of tag characters and their code is part of the text. *)
Lemma blocks_of_text (text : str) :
  exists blocks,
    extract_code_blocks text = Some blocks /\
    StronglySorted Z.lt (map line_no blocks) /\
    Forall (fun b => exists body,
                       code b = Some body /\
                       forall c, In c body -> In c text) blocks.
Proof.
  destruct (finditer_total fence_re text) as [ms Hms].
  exists (map (block_at text) ms).
  apply finditer_scans in Hms.
  split; [apply extract_code_blocks_scans; exists ms; auto|].
  split.
  - destruct (scans_lines Hms) as (_ & _ & _ & Hlines).
    rewrite map_map. apply StronglySorted_map with (2 := Hlines).
    intros a b Hab. unfold block_at. cbn [line_no]. lia.
  - apply scans_matches in Hms. apply Forall_map.
    eapply Forall_impl; [|exact Hms]. cbv beta.
    intros m (q & _ & Hm).
    destruct (match_at_inv _ _ Hm) as
      (pre & ws & tag & h & body & post & Htext & _ & _ & _ & _ & _
       & _ & _ & _ & _ & G3).
    exists body. split; [unfold block_at; cbn [code]; exact G3|].
    intros c Hc. rewrite Htext. unfold fence_text.
    apply in_or_app; right. apply in_or_app; right.
    apply in_or_app; right. apply in_or_app; right.
    apply in_or_app; right. right. apply in_or_app; left. exact Hc.
Qed.

(** In one document the names of the blocks without hint differ. *)
Lemma fallback_names_differ (blocks : list block) :
  StronglySorted Z.lt (map line_no blocks) ->
  NoDup (map fname_of (filter hintless blocks)).
Proof.
  induction blocks as [|b rest IH]; cbn [map filter]; intros Hs;
    [constructor|].
  inversion Hs as [|? ? Hs' Hall]; subst.
  destruct (hintless b) eqn:Hb; [|apply IH; exact Hs'].
  cbn [map]. constructor; [|apply IH; exact Hs'].
  intros Hin. apply in_map_iff in Hin as (b' & E & Hin').
  apply filter_In in Hin' as [Hin' Hb'].
  apply (@fallback_inj b' b Hb' Hb) in E.
  rewrite Forall_forall in Hall.
  assert (H : (line_no b < line_no b')%Z)
    by (apply Hall; apply in_map; exact Hin').
  lia.
Qed.

End WriterFacts.

Section WriterNames.

Variable accepts : str -> bool.
Variable out_name : str.

(** Whatever one iteration writes, it writes under a plain name. *)
Lemma save_block_flat (b : block) (entries entries' : directory)
    (row : saved_row) :
  ~ In SLASH out_name ->
  save_block accepts out_name b entries = Some (entries', row) ->
  s_name row <> [] /\ s_name row <> lit "." /\ s_name row <> lit ".." /\
  ~ In SLASH (s_name row).
Proof.
  intros Hout. unfold save_block.
  set (n0 := dest_name out_name (joinpath (fname_of b))).
  assert (Hn0 : ~ In SLASH n0).
  { unfold n0, joinpath.
    destruct (str_eqb (fname_of b) [] || str_eqb (fname_of b) (lit "."));
      cbn [dest_name]; [exact Hout | apply fname_of_flat]. }
  destruct (dedup _ _ _ _ _ _ _) as [d|] eqn:D; cbn [bind]; [|discriminate].
  destruct (@dedup_spec accepts entries (path_stem n0) (path_suffix n0)
              _ _ _ _ D) as (Hd & Hcase).
  destruct (@not_exists_inv accepts entries d Hd)
    as (n & -> & Hdd & Hacc & Hfree).
  destruct (write_text accepts entries (Child n) (code b));
    cbn [bind]; [|discriminate].
  destruct (code b) as [text|]; cbn [bind]; [|discriminate].
  intros H; injection H as _ <-. cbn [s_name dest_name].
  destruct Hcase as [Hsame|(_ & k & _ & Hk & _)].
  - unfold joinpath in Hsame.
    destruct (str_eqb (fname_of b) [] || str_eqb (fname_of b) (lit "."))
      eqn:C; [discriminate|].
    injection Hsame as ->. apply orb_false_iff in C as [C1 C2].
    split; [apply fname_of_flat|].
    split; [intros E; rewrite E in C2; discriminate|].
    split; [intros E; rewrite E in Hdd; discriminate|].
    apply fname_of_flat.
  - injection Hk as ->.
    destruct (@underscore_name _
                (candidate_underscore (path_stem n0) (path_suffix n0) k))
      as (U1 & U2 & U3).
    split; [intros E; rewrite E in U1; discriminate|].
    split; [intros E; rewrite E in U2; discriminate|].
    split; [intros E; rewrite E in U3; discriminate|].
    unfold candidate. intros Hin.
    apply in_app_or in Hin as [Hin|Hin];
      [apply Hn0, path_stem_sub; exact Hin|].
    apply in_app_or in Hin as [Hin|Hin].
    { simpl in Hin. destruct Hin as [Hin|Hin]; [discriminate Hin|exact Hin]. }
    apply in_app_or in Hin as [Hin|Hin];
      [|apply Hn0, path_suffix_sub; exact Hin].
    revert Hin. apply str_of_int_not_in. reflexivity.
Qed.

End WriterNames.

(** * Properties of [save_code_files] *)

(** X11.  The file name first tried for a block is one path component: it
    is not empty and holds no slash, whatever the hint; and the path built
    from it is the output directory itself exactly when the hint is a
    single dot. *)
Theorem X11_first_name_is_one_component (text : str) :
  exists blocks,
    extract_code_blocks text = Some blocks /\
    Forall (fun b =>
              fname_of b <> [] /\ ~ In SLASH (fname_of b) /\
              (joinpath (fname_of b) = OutDir <-> hint b = lit ".") /\
              (hint b <> lit "." ->
               joinpath (fname_of b) = Child (fname_of b)))
           blocks.
Proof.
  destruct (blocks_of_text text) as (blocks & Hext & _ & _).
  exists blocks. split; [exact Hext|].
  apply Forall_forall. intros b _.
  destruct (fname_of_flat b) as [Hne Hslash].
  assert (Hdot : fname_of b = lit "." <-> hint b = lit ".").
  { unfold fname_of. destruct (hint b) as [|c h] eqn:Hh; cbn [nonempty].
    - split; discriminate.
    - unfold replace. cbn [map]. split.
      + destruct h; [|discriminate]. cbn [map].
        destruct (N.eqb_spec c SLASH); [discriminate|].
        intros E; injection E as ->. reflexivity.
      + intros E; injection E as -> ->. reflexivity. }
  assert (Hjoin : joinpath (fname_of b) = OutDir <-> fname_of b = lit ".").
  { unfold joinpath. rewrite (str_eqb_neq Hne). cbn [orb].
    destruct (str_eqb (fname_of b) (lit ".")) eqn:E.
    - apply str_eqb_eq in E. split; auto.
    - split; [discriminate|]. intros E'. rewrite E', str_eqb_refl in E.
      discriminate. }
  split; [exact Hne|]. split; [exact Hslash|].
  split; [rewrite Hjoin; exact Hdot|].
  intros Hh. unfold joinpath. rewrite (str_eqb_neq Hne). cbn [orb].
  rewrite str_eqb_neq; [reflexivity|].
  intros E. apply Hh, Hdot, E.
Qed.

(** X12.  Blocks without a hint get the name [code_line<N>.<ext>], with
    [N] the line of the opening delimiter; its stem is [code_line<N>] and
    its suffix the dot and the extension; and within one document these
    names all differ. *)
Theorem X12_fallback_names_differ (text : str) :
  exists blocks,
    extract_code_blocks text = Some blocks /\
    NoDup (map fname_of (filter hintless blocks)) /\
    Forall (fun b =>
              fname_of b = lit "code_line" ++ str_of_int (line_no b)
                           ++ lit "." ++ ext_of (lang b) /\
              path_stem (fname_of b)
              = lit "code_line" ++ str_of_int (line_no b) /\
              path_suffix (fname_of b) = lit "." ++ ext_of (lang b))
           (filter hintless blocks).
Proof.
  destruct (blocks_of_text text) as (blocks & Hext & Hsorted & _).
  exists blocks. split; [exact Hext|].
  split; [apply fallback_names_differ; exact Hsorted|].
  apply Forall_forall. intros b Hb. apply filter_In in Hb as [_ Hb].
  apply fallback_parts. exact Hb.
Qed.

(** X13.  Renaming keeps the extension: when the first name has a suffix,
    every numbered name built from its stem and suffix has the same
    suffix, and the stem followed by an underscore and the number as its
    stem.  Numbered names with different numbers differ. *)
Theorem X13_renaming_keeps_suffix (name : str) :
  path_suffix name <> [] ->
  forall dup,
    path_suffix (candidate (path_stem name) (path_suffix name) dup)
    = path_suffix name /\
    path_stem (candidate (path_stem name) (path_suffix name) dup)
    = path_stem name ++ lit "_" ++ str_of_int dup /\
    forall dup',
      candidate (path_stem name) (path_suffix name) dup
      = candidate (path_stem name) (path_suffix name) dup' -> dup = dup'.
Proof.
  intros Hs dup.
  destruct (@path_suffix_inv name Hs) as (rest & E & Hr & Hd & Hstem & _).
  rewrite E. unfold candidate.
  destruct (@path_split (path_stem name ++ lit "_" ++ str_of_int dup) rest)
    as [H1 H2]; auto.
  { destruct (path_stem name); [contradiction|discriminate]. }
  rewrite <- !app_assoc in H1, H2.
  split; [exact H1|]. split; [exact H2|].
  intros dup' H. apply (@candidate_inj (path_stem name) (DOT :: rest)).
  exact H.
Qed.

(** X13 on the name [app_main.js]. *)
Lemma X13_renaming_keeps_suffix_witness :
  path_suffix (candidate (path_stem (lit "app_main.js"))
                 (path_suffix (lit "app_main.js")) 2)
  = path_suffix (lit "app_main.js").
Proof.
  assert (H : path_suffix (lit "app_main.js") <> [])
    by (vm_compute; discriminate).
  destruct (@X13_renaming_keeps_suffix (lit "app_main.js") H 2) as [H1 _].
  exact H1.
Defined.

(** X14.  The renaming loop.  It ends within as many tests as the listing
    has entries, plus two: more fuel changes nothing.  The path it returns
    does not exist; it is the first path when that one does not exist, and
    otherwise the numbered name with the least number, from the starting
    number on, that is not in the listing.  When no name is refused it
    does return a path. *)
Theorem X14_rename_loop (accepts : str -> bool) (entries : directory)
    (stem sfx : str) (dest : dest_path) (dup : Z) :
  (forall fuel,
     S (S (length entries)) <= fuel ->
     dedup accepts fuel entries stem sfx dest dup
     = dedup accepts (S (S (length entries))) entries stem sfx dest dup) /\
  (forall d,
     dedup accepts (S (S (length entries))) entries stem sfx dest dup
     = Some d ->
     dest_exists accepts entries d = Some false /\
     (d = dest \/
      dest_exists accepts entries dest = Some true /\
      exists k, (dup <= k)%Z /\ d = Child (candidate stem sfx k) /\
                forall j, (dup <= j < k)%Z ->
                          listed entries (candidate stem sfx j) = true)) /\
  ((forall n, accepts n = true) ->
   exists d,
     dedup accepts (S (S (length entries))) entries stem sfx dest dup
     = Some d).
Proof.
  split; [|split].
  - intros fuel Hf. apply dedup_fuel. exact Hf.
  - intros d Hd. apply (@dedup_spec accepts entries stem sfx _ _ _ _ Hd).
  - intros Hacc. apply dedup_total. exact Hacc.
Qed.

(** X14 on a listing that holds [a.py] and [a_1.py]: the loop ends on a
    path that does not exist. *)
Lemma X14_rename_loop_witness :
  exists d,
    dedup any_name 4 x_taken (lit "a") (lit ".py") (Child (lit "a.py")) 1
    = Some d /\
    dest_exists any_name x_taken d = Some false.
Proof.
  destruct (X14_rename_loop any_name x_taken (lit "a") (lit ".py")
              (Child (lit "a.py")) 1) as (_ & Hspec & Htotal).
  destruct (Htotal (fun n => eq_refl)) as (d & Hd).
  exists d. split; [exact Hd|]. apply (Hspec d Hd).
Defined.

(** X16.  On a text that can be encoded, and when no file name is
    refused, the loop of [save_code_files] runs to its end and writes one
    file per block: the renaming loop ends each time, and a hint that
    names the directory itself or its parent is renamed like a name that
    is taken. *)
Theorem X16_save_succeeds (accepts : str -> bool) (out_name text : str)
    (fs : option directory) :
  utf8_encodable text = true ->
  (forall n, accepts n = true) ->
  exists blocks fs' saved,
    extract_code_blocks text = Some blocks /\
    save_code_files accepts out_name text fs = Some (fs', saved) /\
    length saved = length blocks.
Proof.
  intros U Hacc.
  destruct (blocks_of_text text) as (blocks & Hext & _ & Hcode).
  exists blocks. unfold save_code_files. rewrite Hext. cbn [bind].
  destruct blocks as [|b rest]; [exists fs, []; auto|].
  assert (Hall : Forall (fun b => exists t, code b = Some t /\
                                            utf8_encodable t = true)
                        (b :: rest)).
  { eapply Forall_impl; [|exact Hcode]. cbv beta.
    intros b' (body & C & Hsub). exists body. split; [exact C|].
    apply (@utf8_encodable_sub body text Hsub U). }
  destruct (@save_blocks_total accepts out_name (b :: rest) Hacc Hall
              (match fs with Some e => e | None => [] end) [])
    as ([e' sv] & S).
  rewrite S. cbn [bind]. exists (Some e'), sv.
  split; [reflexivity|]. split; [reflexivity|].
  destruct (@save_blocks_inv accepts out_name _ _ _ _ _ S)
    as (rows & added & Hs & _ & _ & _ & _ & _ & Hl).
  cbn [app] in Hs. subst sv.
  rewrite <- (length_map s_line), Hl, length_map. reflexivity.
Qed.

(** X16 on two fences whose hints are [.] and [..]. *)
Lemma X16_save_succeeds_witness :
  exists blocks fs' saved,
    extract_code_blocks x_dot_hints = Some blocks /\
    save_code_files any_name (lit "code") x_dot_hints None
    = Some (fs', saved) /\
    length saved = length blocks.
Proof.
  apply (X16_save_succeeds any_name (lit "code") x_dot_hints None).
  - reflexivity.
  - intros n. reflexivity.
Defined.

Section FirstNames.

Lemma fallback_dest (accepts : str -> bool) (b : block) :
  hintless b = true -> accepts (fname_of b) = true ->
  dest_exists accepts [] (joinpath (fname_of b)) = Some false.
Proof.
  intros Hb Hacc.
  destruct (fallback_parts b Hb) as (E & _ & _).
  assert (Hj : joinpath (fname_of b) = Child (fname_of b)).
  { rewrite E. reflexivity. }
  rewrite Hj. cbn [dest_exists]. rewrite Hacc.
  assert (Hd : str_eqb (fname_of b) (lit "..") = false).
  { rewrite E. reflexivity. }
  rewrite Hd. reflexivity.
Qed.

Lemma filter_all {A : Type} (f : A -> bool) (l : list A) :
  forallb f l = true -> filter f l = l.
Proof.
  induction l as [|a l IH]; simpl; [reflexivity|].
  intros H. apply andb_true_iff in H as [Ha Hl].
  rewrite Ha, IH by exact Hl. reflexivity.
Qed.

Lemma blocks_encodable (text : str) (blocks : list block) :
  extract_code_blocks text = Some blocks ->
  utf8_encodable text = true ->
  Forall (fun b => exists t, code b = Some t /\ utf8_encodable t = true)
         blocks /\
  StronglySorted Z.lt (map line_no blocks).
Proof.
  intros Hext U.
  destruct (blocks_of_text text) as (blocks' & Hext' & Hsorted & Hcode).
  rewrite Hext in Hext'. injection Hext' as <-.
  split; [|exact Hsorted].
  eapply Forall_impl; [|exact Hcode]. cbv beta.
  intros b (body & C & Hsub). exists body. split; [exact C|].
  apply (@utf8_encodable_sub body text Hsub U).
Qed.

End FirstNames.



(** X18.  The naming rule without hints.  In an output directory that is
    missing or empty, a text whose blocks have no hint is saved as the
    files [code_line<N>.<ext>], one per block and in their order, with [N]
    the line of the opening delimiter, provided the file system takes
    these names. *)
Theorem X18_fallback_names_in_empty_directory (accepts : str -> bool)
    (out_name text : str) (fs : option directory) (blocks : list block) :
  extract_code_blocks text = Some blocks ->
  blocks <> [] ->
  forallb hintless blocks = true ->
  utf8_encodable text = true ->
  fs = None \/ fs = Some [] ->
  Forall (fun b => accepts (fname_of b) = true) blocks ->
  exists added saved,
    save_code_files accepts out_name text fs = Some (Some added, saved) /\
    map s_name saved
    = map (fun b => lit "code_line" ++ str_of_int (line_no b) ++ lit "."
                    ++ ext_of (lang b)) blocks /\
    map fst added = map s_name saved /\
    map (fun e => Some (snd e)) added = map code blocks.
Proof.
  intros Hext Hne Hh U Hfs Hacc.
  destruct (blocks_encodable _ Hext U) as (Hcode & Hsorted).
  assert (Hnd : NoDup (map fname_of blocks)).
  { rewrite <- (filter_all _ _ Hh). apply fallback_names_differ.
    exact Hsorted. }
  assert (Hold : match fs with Some e => e | None => [] end = [])
    by (destruct Hfs as [-> | ->]; reflexivity).
  unfold save_code_files. rewrite Hext. cbn [bind].
  destruct blocks as [|b rest]; [contradiction|].
  rewrite Hold.
  destruct (@save_blocks_first accepts out_name (b :: rest) Hnd [] [])
    as (rows & added & S & Hn & Ha & Hc).
  { rewrite forallb_forall in Hh.
    rewrite Forall_forall in Hacc, Hcode |- *. intros b' Hin.
    split; [|apply Hcode; exact Hin].
    apply fallback_dest; [apply Hh | apply Hacc]; exact Hin. }
  rewrite S. cbn [bind app]. exists added, rows.
  split; [reflexivity|]. split; [|split; [congruence | exact Hc]].
  rewrite Hn. apply map_ext_in. intros b' Hin.
  rewrite forallb_forall in Hh.
  apply (fallback_parts b' (Hh b' Hin)).
Qed.

(** X18 on two fences without hint and a missing directory. *)
Lemma X18_fallback_names_in_empty_directory_witness :
  exists added saved,
    save_code_files short_names (lit "code") x_two_plain None
    = Some (Some added, saved) /\
    map s_name saved = [lit "code_line1.py"; lit "code_line5.txt"] /\
    map fst added = map s_name saved.
Proof.
  destruct (extract_code_blocks x_two_plain) as [blocks|] eqn:E;
    [|vm_compute in E; discriminate E].
  assert (Hb : blocks <> [])
    by (intros ->; vm_compute in E; discriminate E).
  assert (Hh : forallb hintless blocks = true)
    by (vm_compute in E; injection E as <-; reflexivity).
  assert (Hacc : Forall (fun b => short_names (fname_of b) = true) blocks).
  { vm_compute in E. injection E as <-.
    repeat (constructor; [vm_compute; reflexivity|]). constructor. }
  destruct (@X18_fallback_names_in_empty_directory short_names (lit "code")
              x_two_plain None blocks E Hb Hh eq_refl (or_introl eq_refl)
              Hacc)
    as (added & saved & Hs & Hn & Ha & Hc).
  exists added, saved.
  assert (Hblocks : map (fun b => lit "code_line" ++ str_of_int (line_no b)
                                  ++ lit "." ++ ext_of (lang b)) blocks
                    = [lit "code_line1.py"; lit "code_line5.txt"])
    by (vm_compute in E; injection E as <-; vm_compute; reflexivity).
  rewrite Hblocks in Hn.
  split; [exact Hs|]. split; [exact Hn | exact Ha].
Defined.

(** * The writer in a directory with dangling links *)

Section Links.

Variable accepts : str -> bool.
Variable out_name : str.

Lemma place_eqb_eq (a b : place) : place_eqb a b = true <-> a = b.
Proof.
  destruct a as [x|x], b as [y|y]; simpl;
    try (split; discriminate); rewrite str_eqb_eq;
    (split; [intros ->; reflexivity | intros H; injection H; auto]).
Qed.

Lemma place_eqb_refl (a : place) : place_eqb a a = true.
Proof. apply place_eqb_eq. reflexivity. Qed.

Lemma link_target_In (links : list (str * option place)) (n : str)
    (t : option place) :
  link_target links n = Some t -> In (n, t) links.
Proof.
  induction links as [|[k t'] rest IH]; simpl; [discriminate|].
  destruct (str_eqb n k) eqn:E.
  - apply str_eqb_eq in E. subst k. intros H; injection H as ->.
    left; reflexivity.
  - intros H. right. apply IH. exact H.
Qed.

Lemma link_target_None (links : list (str * option place)) (n : str) :
  link_target links n = None -> forall t, ~ In (n, t) links.
Proof using.
  induction links as [|[k t'] rest IH]; simpl; intros H t; [intros []|].
  destruct (str_eqb n k) eqn:E; [discriminate|].
  intros [Hin|Hin].
  - injection Hin as -> _. rewrite str_eqb_refl in E. discriminate.
  - apply (IH H t Hin).
Qed.

Lemma place_of_cases (links : list (str * option place)) (n : str)
    (t : place) :
  place_of links n = Some t -> t = Inside n \/ In (n, Some t) links.
Proof.
  unfold place_of. destruct (link_target links n) as [o|] eqn:E.
  - intros ->. right. apply link_target_In. exact E.
  - intros H; injection H as <-. left; reflexivity.
Qed.

(** The file made under a name is found under that name. *)
Lemma place_of_names (links : list (str * option place)) (n : str)
    (t : place) :
  place_of links n = Some t -> In n (names_of links t).
Proof.
  intros H. unfold names_of. apply in_or_app.
  destruct (place_of_cases _ _ H) as [->|Hin].
  - left. left. reflexivity.
  - right. apply in_map_iff. exists (n, Some t). split; [reflexivity|].
    apply filter_In. split; [exact Hin|].
    unfold leads_to. cbn [snd]. apply place_eqb_refl.
Qed.

Lemma listed_names (names : list str) (text n : str) :
  listed (map (fun a => (a, text)) names) n = true <-> In n names.
Proof using.
  rewrite listed_In, map_map. cbn [fst]. rewrite map_id. split; auto.
Qed.

(** One pass of the loop. *)
Lemma save_block_w_inv (b : block) (w w1 : world) (row : saved_row)
    (x : place * str) :
  save_block_w accepts out_name b w = Some (w1, row, x) ->
  code b = Some (snd x) /\ utf8_encodable (snd x) = true /\
  accepts (s_name row) = true /\
  listed (w_files w) (s_name row) = false /\
  place_of (w_links w) (s_name row) = Some (fst x) /\
  w1 = write_at w (fst x) (snd x) /\
  s_line row = line_no b /\
  exists e', save_block accepts out_name b (w_files w) = Some (e', row).
Proof.
  unfold save_block_w, save_block.
  destruct (dedup _ _ _ _ _ _ _) as [d|] eqn:D; cbn [bind]; [|discriminate].
  destruct (@dedup_spec accepts (w_files w) _ _ _ _ _ _ D) as (Hd & _).
  destruct (@not_exists_inv accepts (w_files w) d Hd)
    as (n & -> & Hdd & Hacc & Hfree).
  destruct (code b) as [text|] eqn:C; cbn [write_text_w write_text bind];
    [|discriminate].
  rewrite Hdd, Hacc. cbn [andb].
  destruct (utf8_encodable text) eqn:U; cbn [bind]; [|discriminate].
  destruct (place_of (w_links w) n) as [t|] eqn:P; cbn [bind];
    [|discriminate].
  intros H; injection H as <- <- <-. cbn [fst snd s_name s_line dest_name].
  repeat (split; [auto; fail|]).
  eexists. reflexivity.
Qed.

Lemma save_block_w_listed (b : block) (w w1 : world) (row : saved_row)
    (x : place * str) :
  save_block_w accepts out_name b w = Some (w1, row, x) ->
  (forall n, listed (w_files w) n = true -> listed (w_files w1) n = true) /\
  listed (w_files w1) (s_name row) = true /\
  (forall l, In l (w_links w1) -> In l (w_links w) /\ leads_to (fst x) l = false) /\
  (forall n, In n (names_of (w_links w) (fst x)) ->
             listed (w_files w1) n = true).
Proof.
  intros H.
  destruct (save_block_w_inv _ _ H) as (_ & _ & _ & _ & P & -> & _).
  unfold write_at. cbn [w_files w_links].
  assert (Hnames : forall n, In n (names_of (w_links w) (fst x)) ->
            listed (w_files w ++ map (fun a => (a, snd x))
                                   (names_of (w_links w) (fst x))) n = true).
  { intros n Hn. rewrite listed_app.
    rewrite (proj2 (listed_names _ (snd x) n) Hn). apply orb_true_r. }
  split; [|split; [|split]].
  - intros n Hn. rewrite listed_app, Hn. reflexivity.
  - apply Hnames. apply place_of_names. exact P.
  - intros l Hl. apply filter_In in Hl as [Hl Hf].
    split; [exact Hl|]. apply negb_true_iff. exact Hf.
  - exact Hnames.
Qed.

Lemma save_blocks_w_saves (blocks : list block) :
  forall w saved made w' saved' made',
    save_blocks_w accepts out_name blocks w saved made
    = Some (w', saved', made') ->
    exists rows ws,
      saved' = saved ++ rows /\ made' = made ++ ws /\
      saves accepts out_name w blocks w' rows ws.
Proof.
  induction blocks as [|b rest IH]; intros w saved made w' saved' made' H;
    cbn [save_blocks_w] in H.
  - injection H as <- <- <-. exists [], []. rewrite !app_nil_r.
    split; [reflexivity|]. split; [reflexivity|]. constructor.
  - destruct (save_block_w accepts out_name b w) as [[[w1 row] x]|] eqn:B;
      cbn [bind fst snd] in H; [|discriminate].
    destruct (IH _ _ _ _ _ _ H) as (rows & ws & -> & -> & Hrun).
    exists (row :: rows), (x :: ws). rewrite <- !app_assoc.
    split; [reflexivity|]. split; [reflexivity|].
    econstructor; eauto.
Qed.

(** What the rows and the files made hold. *)
Lemma saves_fields w blocks w' rows ws :
  saves accepts out_name w blocks w' rows ws ->
  map s_line rows = map line_no blocks /\
  map (fun x => Some (snd x)) ws = map code blocks.
Proof.
  induction 1 as [w|w b rest w1 row x w' rows ws B _ [IH1 IH2]];
    [split; reflexivity|].
  destruct (save_block_w_inv _ _ B) as (C & _ & _ & _ & _ & _ & Hl & _).
  cbn [map]. split; f_equal; auto.
Qed.

(** Nothing that exists stops existing, and no link comes back. *)
Lemma saves_grow w blocks w' rows ws :
  saves accepts out_name w blocks w' rows ws ->
  (exists added, w_files w' = w_files w ++ added) /\
  (forall n, listed (w_files w) n = true -> listed (w_files w') n = true) /\
  (forall l, In l (w_links w') -> In l (w_links w)).
Proof.
  induction 1 as [w|w b rest w1 row x w' rows ws B _ (IH1 & IH2 & IH3)].
  - split; [exists []; rewrite app_nil_r; reflexivity|]. auto.
  - destruct (save_block_w_listed _ _ B) as (H1 & _ & H3 & _).
    destruct (save_block_w_inv _ _ B) as (_ & _ & _ & _ & _ & Hw & _).
    split; [|split].
    + destruct IH1 as (added & ->). rewrite Hw. cbn [write_at w_files].
      rewrite <- app_assoc. eexists. reflexivity.
    + intros n Hn. apply IH2, H1, Hn.
    + intros l Hl. apply H3, IH3, Hl.
Qed.

(** The reported names are new and differ from one another. *)
Lemma saves_names w blocks w' rows ws :
  saves accepts out_name w blocks w' rows ws ->
  Forall (fun r => listed (w_files w) (s_name r) = false /\
                   accepts (s_name r) = true) rows /\
  NoDup (map s_name rows).
Proof.
  induction 1 as [w|w b rest w1 row x w' rows ws B _ (IH1 & IH2)];
    [split; constructor|].
  destruct (save_block_w_inv _ _ B) as (_ & _ & Hacc & Hfree & _).
  destruct (save_block_w_listed _ _ B) as (H1 & H2 & _).
  rewrite Forall_forall in IH1.
  split.
  - constructor; [auto|]. apply Forall_forall. intros r Hr.
    destruct (IH1 r Hr) as (Hl & Ha). split; [|exact Ha].
    destruct (listed (w_files w) (s_name r)) eqn:E; [|reflexivity].
    rewrite (H1 _ E) in Hl. discriminate.
  - cbn [map]. constructor; [|exact IH2].
    intros Hin. apply in_map_iff in Hin as (r & Hr & Hin).
    destruct (IH1 r Hin) as (Hl & _). rewrite Hr, H2 in Hl. discriminate.
Qed.

(** Where each file is made: under the reported name in the directory,
    or where a dangling link of that name leads. *)
Lemma saves_places w blocks w' rows ws :
  saves accepts out_name w blocks w' rows ws ->
  Forall2 (fun r x => fst x = Inside (s_name r) \/
                      In (s_name r, Some (fst x)) (w_links w)) rows ws.
Proof.
  induction 1 as [w|w b rest w1 row x w' rows ws B _ IH]; [constructor|].
  destruct (save_block_w_inv _ _ B) as (_ & _ & _ & _ & P & _).
  destruct (save_block_w_listed _ _ B) as (_ & _ & H3 & _).
  constructor; [apply place_of_cases; exact P|].
  eapply Forall2_impl; [|exact IH]. cbv beta.
  intros r y [Hy|Hy]; [left; exact Hy|right; apply H3; exact Hy].
Qed.

Lemma Forall2_In_r {A B : Type} (R : A -> B -> Prop) (l : list A)
    (l' : list B) (y : B) :
  Forall2 R l l' -> In y l' -> exists a, In a l /\ R a y.
Proof.
  induction 1 as [|a b l l' Hab _ IH]; intros Hin; [destruct Hin|].
  destruct Hin as [<-|Hin].
  - exists a. split; [left; reflexivity|exact Hab].
  - destruct (IH Hin) as (a' & Ha' & HR). exists a'.
    split; [right; exact Ha'|exact HR].
Qed.

(** No place is written twice. *)
Lemma saves_places_differ w blocks w' rows ws :
  saves accepts out_name w blocks w' rows ws ->
  NoDup (map fst ws).
Proof.
  induction 1 as [w|w b rest w1 row x w' rows ws B Hrun IH]; [constructor|].
  cbn [map]. constructor; [|exact IH].
  intros Hin. apply in_map_iff in Hin as (y & Hy & Hin).
  destruct (@Forall2_In_r _ _ _ _ _ y (saves_places Hrun) Hin)
    as (r & Hr & Hcase).
  destruct (saves_names Hrun) as (Hnames & _).
  rewrite Forall_forall in Hnames. destruct (Hnames r Hr) as (Hfree & _).
  destruct (save_block_w_listed _ _ B) as (_ & _ & H3 & H4).
  destruct Hcase as [Hc|Hc].
  - assert (Hn : In (s_name r) (names_of (w_links w) (fst x))).
    { unfold names_of. rewrite <- Hy, Hc. left. reflexivity. }
    rewrite (H4 _ Hn) in Hfree. discriminate.
  - destruct (H3 _ Hc) as (_ & Hl). unfold leads_to in Hl. cbn [snd] in Hl.
    rewrite Hy, place_eqb_refl in Hl. discriminate.
Qed.

(** Without dangling links the directory gains one entry per block. *)
Lemma saves_no_links w blocks w' rows ws :
  saves accepts out_name w blocks w' rows ws ->
  w_links w = [] ->
  w_links w' = [] /\
  w_files w' = w_files w ++ combine (map s_name rows) (map snd ws) /\
  map fst ws = map Inside (map s_name rows).
Proof.
  induction 1 as [w|w b rest w1 row x w' rows ws B _ IH]; intros HL.
  - split; [exact HL|]. split; [|reflexivity].
    cbn. rewrite app_nil_r. reflexivity.
  - destruct (save_block_w_inv _ _ B) as (_ & _ & _ & _ & P & Hw & _).
    rewrite HL in P. cbn in P. injection P as P.
    assert (H1 : w1 = World (w_files w ++ [(s_name row, snd x)]) []).
    { rewrite Hw, <- P. unfold write_at, names_of. rewrite HL.
      cbn. reflexivity. }
    destruct IH as (I1 & I2 & I3); [rewrite H1; reflexivity|].
    split; [exact I1|]. rewrite I2, H1. cbn [w_files map combine].
    rewrite <- app_assoc. split; [reflexivity|].
    f_equal; [symmetry; exact P | exact I3].
Qed.

End Links.

Section DanglingLinks.

Variable accepts : str -> bool.
Variable out_name : str.

Lemma distinct_NoDup (l : list str) : distinct l = true <-> NoDup l.
Proof.
  induction l as [|x l IH]; simpl.
  - split; [constructor|reflexivity].
  - rewrite andb_true_iff, negb_true_iff, IH. split.
    + intros [Hx Hl]. constructor; [|exact Hl].
      intros Hin.
      assert (H : existsb (str_eqb x) l = true).
      { apply existsb_exists. exists x. split; [exact Hin|].
        apply str_eqb_refl. }
      rewrite H in Hx. discriminate.
    + intros H. inversion H as [|? ? Hx Hl]; subst. split; [|exact Hl].
      destruct (existsb (str_eqb x) l) eqn:E; [|reflexivity].
      apply existsb_exists in E as (y & Hy & Hxy).
      apply str_eqb_eq in Hxy. subst y. contradiction.
Qed.

Lemma dangling_spec (w : world) :
  dangling w = true <->
  NoDup (map fst (w_links w)) /\
  forall n t,
    In (n, t) (w_links w) ->
    listed (w_files w) n = false /\
    forall m, t = Some (Inside m) ->
              listed (w_files w) m = false /\
              link_target (w_links w) m = None.
Proof.
  unfold dangling. rewrite andb_true_iff, distinct_NoDup, forallb_forall.
  split; intros [Hd Hall]; (split; [exact Hd|]).
  - intros n t Hin. specialize (Hall _ Hin). cbn [fst snd] in Hall.
    apply andb_true_iff in Hall as [H1 H2]. apply negb_true_iff in H1.
    split; [exact H1|]. intros m ->.
    apply andb_true_iff in H2 as [H2 H3]. apply negb_true_iff in H2.
    split; [exact H2|].
    destruct (link_target (w_links w) m); [discriminate|reflexivity].
  - intros [n t] Hin. destruct (Hall _ _ Hin) as [H1 H2]. cbn [fst snd].
    rewrite H1. cbn [negb andb].
    destruct t as [[m|p]|]; try reflexivity.
    destruct (H2 m eq_refl) as [H3 H4]. rewrite H3, H4. reflexivity.
Qed.

Lemma NoDup_fst_unique {A B : Type} (l : list (A * B)) (a : A) (b b' : B) :
  NoDup (map fst l) -> In (a, b) l -> In (a, b') l -> b = b'.
Proof.
  induction l as [|[k v] l IH]; simpl; intros Hnd H1 H2; [destruct H1|].
  inversion Hnd as [|? ? Hk Hl]; subst.
  destruct H1 as [H1|H1], H2 as [H2|H2].
  - congruence.
  - injection H1 as -> ->. exfalso. apply Hk.
    apply (in_map fst) in H2. exact H2.
  - injection H2 as -> ->. exfalso. apply Hk.
    apply (in_map fst) in H1. exact H1.
  - apply IH; assumption.
Qed.

Lemma NoDup_fst_filter {A B : Type} (f : A * B -> bool) (l : list (A * B)) :
  NoDup (map fst l) -> NoDup (map fst (filter f l)).
Proof.
  induction l as [|x l IH]; simpl; intros H; [constructor|].
  inversion H as [|? ? Hx Hl]; subst.
  destruct (f x); [|apply IH; exact Hl].
  cbn [map]. constructor; [|apply IH; exact Hl].
  intros Hin. apply Hx. apply in_map_iff in Hin as (y & Hy & Hin).
  apply filter_In in Hin as [Hin _]. rewrite <- Hy. apply in_map. exact Hin.
Qed.

Lemma link_target_filter_None (f : str * option place -> bool)
    (links : list (str * option place)) (m : str) :
  link_target links m = None -> link_target (filter f links) m = None.
Proof.
  intros H. destruct (link_target (filter f links) m) as [t|] eqn:E;
    [|reflexivity].
  apply link_target_In in E. apply filter_In in E as [E _].
  exfalso. apply (@link_target_None _ _ H t E).
Qed.

(** A file made under a name that does not exist is made where nothing
    was, and leaves the other links dangling. *)
Lemma write_at_dangling (w : world) (n0 : str) (t : place) (text : str) :
  dangling w = true ->
  listed (w_files w) n0 = false ->
  place_of (w_links w) n0 = Some t ->
  (forall a, In a (names_of (w_links w) t) ->
             listed (w_files w) a = false) /\
  dangling (write_at w t text) = true.
Proof.
  intros Hw Hn0 P. apply dangling_spec in Hw as [Hnd Hall].
  assert (Hm : forall m, t = Inside m ->
                 listed (w_files w) m = false /\
                 link_target (w_links w) m = None).
  { intros m ->. unfold place_of in P.
    destruct (link_target (w_links w) n0) as [o|] eqn:E.
    - subst o. apply link_target_In in E.
      destruct (Hall _ _ E) as [_ H]. apply (H m eq_refl).
    - injection P as ->. auto. }
  assert (Hfresh : forall a, In a (names_of (w_links w) t) ->
                     listed (w_files w) a = false).
  { intros a Ha. unfold names_of in Ha. apply in_app_or in Ha as [Ha|Ha].
    - destruct t as [m|p]; [|destruct Ha].
      destruct Ha as [<-|[]]. exact (proj1 (Hm m eq_refl)).
    - apply in_map_iff in Ha as ([k o] & <- & Hk).
      apply filter_In in Hk as [Hk _]. exact (proj1 (Hall _ _ Hk)). }
  split; [exact Hfresh|].
  apply dangling_spec. unfold write_at. cbn [w_files w_links].
  split; [apply NoDup_fst_filter; exact Hnd|].
  intros n o Hin. apply filter_In in Hin as [Hin Hlead].
  apply negb_true_iff in Hlead.
  destruct (Hall _ _ Hin) as [Hfree Htarget].
  assert (Hnot : forall a, In a (names_of (w_links w) t) ->
                   (forall o', In (a, o') (w_links w) ->
                               leads_to t (a, o') = false) ->
                   link_target (w_links w) a <> None -> False).
  { intros a Ha Hlinks Hlt. unfold names_of in Ha.
    apply in_app_or in Ha as [Ha|Ha].
    - destruct t as [m|p]; [|destruct Ha]. destruct Ha as [<-|[]].
      apply Hlt. exact (proj2 (Hm m eq_refl)).
    - apply in_map_iff in Ha as ([k o'] & Hk & Hin').
      cbn [fst] in Hk. subst k.
      apply filter_In in Hin' as [Hin' Hl'].
      rewrite (Hlinks _ Hin') in Hl'. discriminate. }
  split.
  - rewrite listed_app, Hfree. cbn [orb].
    destruct (listed (map (fun a => (a, text)) (names_of (w_links w) t)) n)
      eqn:E; [|reflexivity].
    exfalso. apply listed_names in E. apply (Hnot n E).
    + intros o' Hin'.
      rewrite (@NoDup_fst_unique _ _ _ n o' o Hnd Hin' Hin). exact Hlead.
    + intros Hlt. apply (@link_target_None _ _ Hlt o Hin).
  - intros m ->. destruct (Htarget m eq_refl) as [Hfm Hlm].
    split; [|apply link_target_filter_None; exact Hlm].
    rewrite listed_app, Hfm. cbn [orb].
    destruct (listed (map (fun a => (a, text)) (names_of (w_links w) t)) m)
      eqn:E; [|reflexivity].
    exfalso. apply listed_names in E. unfold names_of in E.
    apply in_app_or in E as [E|E].
    + destruct t as [m'|p]; [|destruct E]. destruct E as [->|[]].
      unfold leads_to in Hlead. cbn [snd] in Hlead.
      rewrite place_eqb_refl in Hlead. discriminate.
    + apply in_map_iff in E as ([k o'] & Hk & Hin').
      cbn [fst] in Hk. subst k. apply filter_In in Hin' as [Hin' _].
      apply (@link_target_None _ _ Hlm o' Hin').
Qed.

(** When the links are dangling, every name that comes to exist is
    new. *)
Lemma saves_fresh w blocks w' rows ws :
  saves accepts out_name w blocks w' rows ws ->
  dangling w = true ->
  dangling w' = true /\
  exists added,
    w_files w' = w_files w ++ added /\
    Forall (fun e => listed (w_files w) (fst e) = false) added.
Proof.
  induction 1 as [w|w b rest w1 row x w' rows ws B _ IH]; intros Hw.
  - split; [exact Hw|]. exists []. rewrite app_nil_r.
    split; [reflexivity|constructor].
  - destruct (@save_block_w_inv accepts out_name _ _ _ _ _ B) as (_ & _ & _ & Hfree & P & Hw1 & _).
    destruct (@write_at_dangling w (s_name row) (fst x) (snd x) Hw Hfree P)
      as (Hnew & Hd1).
    rewrite <- Hw1 in Hd1.
    destruct (IH Hd1) as (Hd' & added & Hf & Hall).
    split; [exact Hd'|].
    exists (map (fun a => (a, snd x)) (names_of (w_links w) (fst x))
            ++ added).
    split.
    + rewrite Hf, Hw1. cbn [write_at w_files]. rewrite <- app_assoc.
      reflexivity.
    + apply Forall_app. split.
      * apply Forall_forall. intros e He.
        apply in_map_iff in He as (a & <- & Ha). cbn [fst]. apply Hnew, Ha.
      * eapply Forall_impl; [|exact Hall]. cbv beta. intros e He.
        rewrite Hw1 in He. cbn [write_at w_files] in He.
        rewrite listed_app in He. apply orb_false_iff in He as [He _].
        exact He.
Qed.

Lemma saves_length w blocks w' rows ws :
  saves accepts out_name w blocks w' rows ws ->
  length rows = length blocks /\ length ws = length blocks.
Proof.
  induction 1 as [w|w b rest w1 row x w' rows ws _ _ [IH1 IH2]];
    [split; reflexivity|].
  cbn [length]. split; f_equal; assumption.
Qed.

(** Every reported name is a plain file name. *)
Lemma saves_plain w blocks w' rows ws :
  ~ In SLASH out_name ->
  saves accepts out_name w blocks w' rows ws ->
  Forall (fun r => plain_name (s_name r)) rows.
Proof.
  intros Hout. induction 1 as [w|w b rest w1 row x w' rows ws B _ IH];
    constructor; [|exact IH].
  destruct (@save_block_w_inv accepts out_name _ _ _ _ _ B) as (_ & _ & _ & _ & _ & _ & _ & e' & S).
  apply (@save_block_flat accepts out_name b (w_files w) e' row Hout S).
Qed.

End DanglingLinks.

Section TwoModels.

Variable accepts : str -> bool.
Variable out_name : str.

(** Without dangling links one pass of the loop is the pass of the first
    model. *)
Lemma save_block_w_no_links (b : block) (w : world) :
  w_links w = [] ->
  save_block_w accepts out_name b w
  = match save_block accepts out_name b (w_files w), code b with
    | Some (e', row), Some text =>
        Some (World e' [], row, (Inside (s_name row), text))
    | _, _ => None
    end.
Proof.
  intros HL. unfold save_block_w, save_block.
  destruct (dedup _ _ _ _ _ _ _) as [d|] eqn:D; cbn [bind];
    [|reflexivity].
  destruct (@dedup_spec accepts (w_files w) _ _ _ _ _ _ D) as (Hd & _).
  destruct (@not_exists_inv accepts (w_files w) d Hd)
    as (n & -> & Hdd & Hacc & Hfree).
  destruct (code b) as [text|] eqn:C; cbn [write_text_w write_text bind];
    [|reflexivity].
  rewrite Hdd, Hacc. cbn [andb].
  destruct (utf8_encodable text); cbn [bind]; [|reflexivity].
  rewrite HL. cbn [place_of link_target bind fst snd dest_name s_name].
  unfold write_at, names_of. rewrite HL. cbn [filter map app w_files].
  rewrite (@put_fresh (w_files w) n text Hfree). reflexivity.
Qed.

End TwoModels.

(** * Properties of [save_code_files] in any directory *)

(** X15.  [save_code_files] never overwrites, also where the directory
    holds dangling symbolic links.  When its loop has ended, every name
    under which something existed still does, with the same text; the
    reported names differ from one another and from every name under which
    something existed; the code of each block is written once, and no
    place is written twice.  Where the links are dangling, every name that
    has come to exist is one under which nothing existed.  In a directory
    without dangling links there is exactly one new entry per block, in the
    order of the blocks, under the reported name, with the code of the
    block, made directly in the directory, and still no dangling link.
    Without blocks the directory is left as it was, and is not created. *)
Theorem X15_never_overwrites (accepts : str -> bool) (out_name text : str)
    (fs fs' : option world) (saved : list saved_row)
    (made : list (place * str)) :
  save_code_files_w accepts out_name text fs = Some (fs', saved, made) ->
  exists blocks added,
    extract_code_blocks text = Some blocks /\
    map s_line saved = map line_no blocks /\
    map (fun x => Some (snd x)) made = map code blocks /\
    NoDup (map s_name saved) /\
    Forall (fun r => listed (w_files (world_of fs)) (s_name r) = false /\
                     accepts (s_name r) = true) saved /\
    NoDup (map fst made) /\
    (blocks = [] -> fs' = fs) /\
    (blocks <> [] ->
     exists new,
       fs' = Some new /\
       w_files new = w_files (world_of fs) ++ added /\
       (dangling (world_of fs) = true ->
        dangling new = true /\
        Forall (fun e => listed (w_files (world_of fs)) (fst e) = false)
               added) /\
       (w_links (world_of fs) = [] ->
        w_links new = [] /\
        map fst added = map s_name saved /\
        map (fun e => Some (snd e)) added = map code blocks /\
        map fst made = map Inside (map s_name saved))).
Proof.
  unfold save_code_files_w.
  destruct (extract_code_blocks text) as [blocks|]; cbn [bind];
    [|discriminate].
  destruct blocks as [|b rest].
  - intros H; injection H as <- <- <-. exists [], [].
    repeat (split; [reflexivity|]).
    split; [constructor|]. split; [constructor|]. split; [constructor|].
    split; [reflexivity|]. intros H. contradiction.
  - fold (world_of fs).
    destruct (save_blocks_w _ _ _ _ _ _) as [[[w' sv] md]|] eqn:S;
      cbn [bind fst snd]; [|discriminate].
    intros H; injection H as <- <- <-.
    destruct (@save_blocks_w_saves accepts out_name _ _ _ _ _ _ _ S)
      as (rows & ws & Hs & Hm & Hrun).
    cbn [app] in Hs, Hm. subst sv md.
    destruct (saves_fields Hrun) as (Hlines & Hcodes).
    destruct (saves_names Hrun) as (Hnew & Hnd).
    destruct (saves_grow Hrun) as ((added & Hadded) & _ & _).
    destruct (saves_length Hrun) as (Hlr & Hlw).
    exists (b :: rest), added.
    split; [reflexivity|]. split; [exact Hlines|]. split; [exact Hcodes|].
    split; [exact Hnd|]. split; [exact Hnew|].
    split; [apply (saves_places_differ Hrun)|].
    split; [discriminate|]. intros _. exists w'.
    split; [reflexivity|]. split; [exact Hadded|]. split.
    + intros Hd. destruct (saves_fresh Hrun Hd) as (Hd' & added' & Ha' & Hall).
      split; [exact Hd'|].
      rewrite Hadded in Ha'. apply app_inv_head in Ha'. subst added'.
      exact Hall.
    + intros HL. destruct (saves_no_links Hrun HL) as (HL' & Hf & Hp).
      split; [exact HL'|].
      rewrite Hadded in Hf. apply app_inv_head in Hf. subst added.
      assert (Hlen : length (map s_name rows) = length (map snd ws))
        by (rewrite !length_map; congruence).
      split; [|split; [|exact Hp]].
      * clear - Hlen. revert Hlen.
        generalize (map s_name rows) (map snd ws).
        induction l as [|a l IH]; intros [|c l'] H; simpl in *;
          try discriminate; [reflexivity|].
        f_equal. apply IH. lia.
      * rewrite <- Hcodes. clear - Hlen.
        assert (H : map snd (combine (map s_name rows) (map snd ws))
                    = map snd ws).
        { revert Hlen. generalize (map s_name rows) (map snd ws).
          induction l as [|a l IH]; intros [|c l'] H; simpl in *;
            try discriminate; [reflexivity|].
          f_equal. apply IH. lia. }
        rewrite <- (map_map snd Some), H, map_map. reflexivity.
Qed.

(** X15 in a directory that holds [code_line1.py] and two dangling links
    under names the loop comes to. *)
Lemma X15_never_overwrites_witness :
  exists fs' saved made,
    save_code_files_w any_name (lit "code") x_three_fences (Some x_linked)
    = Some (fs', saved, made) /\
    NoDup (map s_name saved) /\ NoDup (map fst made).
Proof.
  destruct (save_code_files_w any_name (lit "code") x_three_fences
              (Some x_linked)) as [[[fs' saved] made]|] eqn:E.
  - exists fs', saved, made. split; [reflexivity|].
    destruct (X15_never_overwrites _ _ _ _ E)
      as (blocks & added & _ & _ & _ & Hnd & _ & Hpl & _).
    split; [exact Hnd | exact Hpl].
  - vm_compute in E. discriminate E.
Defined.

(** X19.  Where the files are made.  Whatever the hints are, every file
    is written under a plain name: not empty, not [.] or [..], and without
    a slash.  It is made directly in the output directory under that name,
    unless the name is a dangling symbolic link of the directory: then it
    is made where the link leads.  This holds for each pass of the loop
    and so for the whole run; when no reported name is a dangling link,
    every file is made directly in the output directory. *)
Theorem X19_files_stay_in_out_dir (accepts : str -> bool)
    (out_name : str) :
  ~ In SLASH out_name ->
  (forall b w w1 row x,
     save_block_w accepts out_name b w = Some (w1, row, x) ->
     plain_name (s_name row) /\
     (fst x = Inside (s_name row) \/
      In (s_name row, Some (fst x)) (w_links w))) /\
  (forall text fs fs' saved made,
     save_code_files_w accepts out_name text fs = Some (fs', saved, made) ->
     Forall (fun r => plain_name (s_name r)) saved /\
     Forall2 (fun r x => fst x = Inside (s_name r) \/
                         In (s_name r, Some (fst x))
                            (w_links (world_of fs))) saved made /\
     (Forall (fun r => link_target (w_links (world_of fs)) (s_name r)
                       = None) saved ->
      map fst made = map Inside (map s_name saved))).
Proof.
  intros Hout. split.
  - intros b w w1 row x B.
    destruct (@save_block_w_inv accepts out_name _ _ _ _ _ B)
      as (_ & _ & _ & _ & P & _ & _ & e' & S).
    split; [|apply place_of_cases; exact P].
    apply (@save_block_flat accepts out_name b (w_files w) e' row Hout S).
  - intros text fs fs' saved made. unfold save_code_files_w.
    destruct (extract_code_blocks text) as [blocks|]; cbn [bind];
      [|discriminate].
    destruct blocks as [|b rest].
    + intros H; injection H as _ <- <-.
      split; [constructor|]. split; [constructor|reflexivity].
    + fold (world_of fs).
      destruct (save_blocks_w _ _ _ _ _ _) as [[[w' sv] md]|] eqn:S;
        cbn [bind fst snd]; [|discriminate].
      intros H; injection H as _ <- <-.
      destruct (@save_blocks_w_saves accepts out_name _ _ _ _ _ _ _ S)
        as (rows & ws & Hs & Hm & Hrun).
      cbn [app] in Hs, Hm. subst sv md.
      pose proof (saves_places Hrun) as Hplaces.
      split; [apply (saves_plain Hout Hrun)|]. split; [exact Hplaces|].
      clear - Hplaces. induction Hplaces as [|r y rows ws Hry _ IH];
        intros Hall; [reflexivity|].
      inversion Hall as [|? ? Hr Hrest]; subst.
      cbn [map]. f_equal; [|apply IH; exact Hrest].
      destruct Hry as [Hy|Hy]; [exact Hy|].
      exfalso. apply (@link_target_None _ _ Hr _ Hy).
Qed.

(** X19 on a hint that climbs out of the directory. *)
Lemma X19_files_stay_in_out_dir_witness :
  exists fs' saved made,
    save_code_files_w any_name (lit "code")
      (lit "```sh:../../etc/passwd" ++ [NL] ++ lit "x" ++ [NL] ++ lit "```")
      None = Some (fs', saved, made) /\
    Forall (fun r => plain_name (s_name r)) saved /\
    map fst made = map Inside (map s_name saved).
Proof.
  assert (Hout : ~ In SLASH (lit "code")).
  { simpl. intros H. repeat (destruct H as [H|H]; [discriminate H|]).
    exact H. }
  destruct (@X19_files_stay_in_out_dir any_name (lit "code") Hout)
    as (_ & Hall).
  destruct (save_code_files_w any_name (lit "code")
              (lit "```sh:../../etc/passwd" ++ [NL] ++ lit "x" ++ [NL]
               ++ lit "```") None) as [[[fs' saved] made]|] eqn:E.
  - exists fs', saved, made. split; [reflexivity|].
    destruct (Hall _ _ _ _ _ E) as (Hplain & _ & Hin).
    split; [exact Hplain|]. apply Hin.
    apply Forall_forall. intros r _. reflexivity.
  - vm_compute in E. discriminate E.
Defined.
